(** * The control-flow decoder and the stack reconstruction pass of bin2llvmir

    A shallow embedding of
    - [src/bin2llvmir/optimizations/decoder/decoder.cpp] (class [Decoder]) and
    - [src/bin2llvmir/optimizations/stack/stack.cpp] (class [StackAnalysis]),
    followed by the properties of these two passes.

    LLVM objects are heap cells addressed by pointers: here every object
    (function, basic block, lifted instruction, IR instruction) carries a
    natural number standing for its pointer, and a null pointer is [None].
    Code that would dereference a null pointer, fail an assertion or leave
    the process is given an explicit [outcome]. *)

From Stdlib Require Import ZArith Lia.
From stdpp Require Import base option list gmap strings pretty sorting.

Local Open Scope Z_scope.

(** ** Outcomes of a C++ call *)

Inductive outcome (A : Type) : Type :=
  | Done (x : A)            (* the call returns x *)
  | AssertFail              (* assert(false): the process aborts *)
  | NullDeref               (* a null pointer is dereferenced *)
  | ForeignInsert           (* a block is linked into another function's list *)
  | Exited (code : Z)       (* exit(code) *)
  | Timeout.                (* the model ran out of fuel *)
Arguments Done {A} x.
Arguments AssertFail {A}.
Arguments NullDeref {A}.
Arguments ForeignInsert {A}.
Arguments Exited {A} code.
Arguments Timeout {A}.

Definition obind {A B} (o : outcome A) (k : A -> outcome B) : outcome B :=
  match o with
  | Done x => k x
  | AssertFail => AssertFail
  | NullDeref => NullDeref
  | ForeignInsert => ForeignInsert
  | Exited c => Exited c
  | Timeout => Timeout
  end.

#[global] Instance outcome_ret : MRet outcome := @Done.
#[global] Instance outcome_bind : MBind outcome := fun A B k o => obind o k.

(** [exit(code)]: the process ends; what follows the call is not run. *)
Definition exit (code : Z) : outcome unit := Exited code.

(** An expression statement: the value is computed and dropped. *)
Definition discard {A} (x : A) : outcome unit := Done tt.

(** Dereferencing a pointer that may be null. *)
Definition deref {A} (p : option A) : outcome A :=
  match p with
  | Some x => Done x
  | None => NullDeref
  end.

(** The value a call returns, [x] when it does not return. *)
Definition from_Done {A} (x : A) (o : outcome A) : A :=
  match o with
  | Done y => y
  | _ => x
  end.

(** Whether a call returns to its caller. *)
Definition returns {A} (o : outcome A) : bool :=
  match o with
  | Done _ => true
  | _ => false
  end.

(** ** Addresses and address ranges *)

(** Modelled from the spec: the class [retdec::utils::Address] is declared
    outside the sources at hand. "A possibly-undefined unsigned integer
    denoting a byte in the target image. Arithmetic on an undefined address
    yields undefined." *)
Definition Address : Type := option Z.

Definition getUndef : Address := None.
Definition isDefined (a : Address) : bool := bool_decide (is_Some a).
Definition isUndefined (a : Address) : bool := negb (isDefined a).

Definition addr_add (a : Address) (n : Z) : Address := (fun x => x + n) <$> a.

(** Lower-case hexadecimal digits of a number, most significant first. *)
Definition hex_digit (d : Z) : string :=
  match d with
  | 0 => "0" | 1 => "1" | 2 => "2" | 3 => "3" | 4 => "4" | 5 => "5"
  | 6 => "6" | 7 => "7" | 8 => "8" | 9 => "9" | 10 => "a" | 11 => "b"
  | 12 => "c" | 13 => "d" | 14 => "e" | _ => "f"
  end%string.

Fixpoint hex_digits (fuel : nat) (n : Z) (acc : string) : string :=
  match fuel with
  | O => acc
  | S fuel' =>
      let acc' := (hex_digit (n mod 16) +:+ acc)%string in
      if n / 16 =? 0 then acc' else hex_digits fuel' (n / 16) acc'
  end.

(** Modelled from the spec: [Address::toHexString] and
    [Address::toHexPrefixString] ("All addresses are lower-case
    0x-prefixed hex"). *)
Definition toHexString (a : Z) : string :=
  hex_digits (S (Z.to_nat (Z.log2 a))) a "".

Definition toHexPrefixString (a : Z) : string := ("0x" +:+ toHexString a)%string.

(** Modelled from the spec: [AddressRange] and the range container are
    declared outside the sources at hand. The spec describes a range as
    half-open, "[start, end) with size = end - start"; [decodeJumpTarget]
    builds its range from the address of the last consumed byte. The
    convention for the end is therefore a parameter of the model:
    [Exclusive] is the spec's reading, [Inclusive] the reading under which
    the end is the last address of the range. *)
Inductive end_convention := Exclusive | Inclusive.

Record AddressRange := mkRange { getStart : Z; getEnd : Z }.

Section Ranges.
Variable conv : end_convention.

(** One past the last address covered by the range. *)
Definition range_limit (r : AddressRange) : Z :=
  match conv with
  | Exclusive => getEnd r
  | Inclusive => getEnd r + 1
  end.

Definition range_of_limit (s l : Z) : AddressRange :=
  match conv with
  | Exclusive => mkRange s l
  | Inclusive => mkRange s (l - 1)
  end.

Definition getSize (r : AddressRange) : Z := range_limit r - getStart r.

Definition contains (r : AddressRange) (a : Z) : bool :=
  (getStart r <=? a) && (a <? range_limit r).

(** [getRange]: the range of the container that holds [a], or null. *)
Definition getRange (rs : list AddressRange) (a : Z) : option AddressRange :=
  List.find (fun r => contains r a) rs.

Definition containsAddress (rs : list AddressRange) (a : Z) : bool :=
  bool_decide (is_Some (getRange rs a)).

(** What is left of [x] once [r] is taken out: the part below [r] and the
    part above it, each kept only when it is not empty. *)
Definition subtract (r x : AddressRange) : list AddressRange :=
  let lo := Z.min (range_limit x) (getStart r) in
  let hi := Z.max (getStart x) (range_limit r) in
  (if getStart x <? lo then [range_of_limit (getStart x) lo] else [])
  ++ (if hi <? range_limit x then [range_of_limit hi (range_limit x)] else []).

(** [remove]: punch the hole [r] out of every range of the container. *)
Definition remove (r : AddressRange) (rs : list AddressRange) : list AddressRange :=
  if range_limit r <=? getStart r then rs
  else flat_map (subtract r) rs.
End Ranges.

(** ** The IR values the two passes look at *)

Inductive Ty :=
  | IntegerTy (bits : N)
  | PointerTy (elem : Ty)
  | StructTy (id : nat)
  | ArrayTy (len : N) (elem : Ty)
  | FloatTy
  | VoidTy.

Inductive Value :=
  | ConstantInt (bits : N) (val : Z)       (* an integer constant of [bits] bits *)
  | GlobalVariable (g : nat) (ty : Ty)     (* a global of value type [ty] *)
  | InstValue (i : nat) (ty : Ty)          (* the result of instruction [i] *)
  | UndefValue (ty : Ty).

(** [APInt::getActiveBits]: the number of bits up to the highest set bit of
    the constant, whose bits are those of [val] modulo [2 ^ bits]. *)
Definition getActiveBits (bits : N) (val : Z) : Z :=
  let u := val mod 2 ^ Z.of_N bits in
  if u =? 0 then 0 else Z.log2 u + 1.

(** [ConstantInt::getZExtValue]: the unsigned reading of the constant's
    bits as a [uint64_t]. It asserts that the value has no more than 64
    active bits; a constant of up to 64 bits always passes. *)
Definition getZExtValue (bits : N) (val : Z) : outcome Z :=
  if getActiveBits bits val <=? 64 then Done (val mod 2 ^ Z.of_N bits) else AssertFail.

(** [ConstantInt::getSExtValue]: the signed reading of the constant's bits
    as an [int64_t]. The accessor asserts that the value has no more than 64
    significant bits; this is its result for the constants that pass. *)
Definition getSExtValue (bits : N) (val : Z) : Z :=
  let u := val mod 2 ^ Z.of_N bits in
  if (0 <? Z.of_N bits) && (2 ^ (Z.of_N bits - 1) <=? u) then u - 2 ^ Z.of_N bits else u.

Definition isConstantInt (v : Value) : bool :=
  match v with ConstantInt _ _ => true | _ => false end.

(** ** The decoder's view of the LLVM module *)

(** One lifted machine instruction: the IR emitted for it, headed by the
    store that anchors it to its address and ended by the pseudo call the
    translator synthesised for a control-flow instruction, if any. The
    pseudo call is the [fromInst] of the jump targets it gives rise to. *)
Record AsmInst := mkAsmInst { ai_id : nat; ai_addr : Z }.

(** A basic block: its lifted instructions in order, then its terminator
    with the successor blocks ([None]: the block has no terminator). *)
Record BasicBlock := mkBB {
  bb_id : nat;
  bb_insns : list AsmInst;
  bb_term : option (list nat)
}.

Record Function := mkFn {
  fn_id : nat;
  fn_name : string;
  fn_blocks : list BasicBlock
}.

(** [BasicBlock::empty]: no instruction at all, not even a terminator. *)
Definition bb_empty (b : BasicBlock) : bool :=
  match bb_insns b, bb_term b with
  | [], None => true
  | _, _ => false
  end.

Definition successors (b : BasicBlock) : list nat := default [] (bb_term b).

(** Pointer lookups in the module. *)
Definition getFn (m : list Function) (f : nat) : option Function :=
  List.find (fun F => Nat.eqb (fn_id F) f) m.

Definition has_block (b : nat) (F : Function) : bool :=
  existsb (fun B => Nat.eqb (bb_id B) b) (fn_blocks F).

(** [BasicBlock::getParent]. *)
Definition getParent (m : list Function) (b : nat) : option nat :=
  fn_id <$> List.find (has_block b) m.

Definition getBB (m : list Function) (b : nat) : option BasicBlock :=
  F ← List.find (has_block b) m;
  List.find (fun B => Nat.eqb (bb_id B) b) (fn_blocks F).

(** The block that follows [b] in its function ([getNextNode]). *)
Fixpoint next_in (bs : list BasicBlock) (b : nat) : option nat :=
  match bs with
  | [] => None
  | B :: rest =>
      if Nat.eqb (bb_id B) b then bb_id <$> head rest else next_in rest b
  end.

Definition getNextNode (m : list Function) (b : nat) : option nat :=
  F ← List.find (has_block b) m; next_in (fn_blocks F) b.

(** The id of the entry block of function [f] ([&f->front()]). *)
Definition front (m : list Function) (f : nat) : option nat :=
  F ← getFn m f; bb_id <$> head (fn_blocks F).

(** Where a lifted instruction sits: its block and its index there. *)
Record InstLoc := mkLoc { loc_bb : nat; loc_pos : nat; loc_addr : Z }.

Fixpoint find_index {A} (p : A -> bool) (l : list A) : option (nat * A) :=
  match l with
  | [] => None
  | x :: r => if p x then Some (O, x)
              else '(i, y) ← find_index p r; Some (S i, y)
  end.

Definition locate_in_block (p : AsmInst -> bool) (B : BasicBlock) : option InstLoc :=
  '(i, x) ← find_index p (bb_insns B); Some (mkLoc (bb_id B) i (ai_addr x)).

Fixpoint first_some {A B} (f : A -> option B) (l : list A) : option B :=
  match l with
  | [] => None
  | x :: r => match f x with Some y => Some y | None => first_some f r end
  end.

Definition locate (p : AsmInst -> bool) (m : list Function) : option InstLoc :=
  first_some (fun F => first_some (locate_in_block p) (fn_blocks F)) m.

(** The instruction with pointer [i]. *)
Definition locateInst (m : list Function) (i : nat) : option InstLoc :=
  locate (fun x => Nat.eqb (ai_id x) i) m.

(** Modelled from the spec: [AsmInstruction(module, addr)] is declared
    outside the sources at hand: "an instruction already exists at
    jt.address". It is the first lifted instruction of the module, in
    function, block and instruction order, whose address is [addr]. *)
Definition AsmInstruction (m : list Function) (a : Z) : option InstLoc :=
  locate (fun x => ai_addr x =? a) m.

(** *** Changing the module *)

Definition map_blocks (g : list BasicBlock -> list BasicBlock) (F : Function) : Function :=
  mkFn (fn_id F) (fn_name F) (g (fn_blocks F)).

Definition update_fn (f : nat) (g : list BasicBlock -> list BasicBlock)
    (m : list Function) : list Function :=
  List.map (fun F => if Nat.eqb (fn_id F) f then map_blocks g F else F) m.

(** The function list with [F] right after the function [before]
    ([fl.insertAfter]); at the front when [before] is null ([fl.insert(fl.begin(), f)]). *)
Fixpoint insert_fn_after (before : nat) (F : Function) (m : list Function) : list Function :=
  match m with
  | [] => [F]
  | G :: rest =>
      if Nat.eqb (fn_id G) before then G :: F :: rest
      else G :: insert_fn_after before F rest
  end.

Definition insert_fn (before : option nat) (F : Function) (m : list Function) : list Function :=
  match before with
  | Some g => insert_fn_after g F m
  | None => F :: m
  end.

(** A block list with [nb] right after the block [ia]. *)
Fixpoint insert_bb_after (ia : nat) (nb : BasicBlock) (bs : list BasicBlock) : list BasicBlock :=
  match bs with
  | [] => []
  | B :: rest =>
      if Nat.eqb (bb_id B) ia then B :: nb :: rest
      else B :: insert_bb_after ia nb rest
  end.

(** A block with the instruction [x] put in at index [pos]. *)
Definition insert_inst (b : nat) (pos : nat) (x : AsmInst) (bs : list BasicBlock) : list BasicBlock :=
  List.map (fun B =>
    if Nat.eqb (bb_id B) b
    then mkBB (bb_id B) (take pos (bb_insns B) ++ x :: drop pos (bb_insns B)) (bb_term B)
    else B) bs.

Definition insert_inst_module (b : nat) (pos : nat) (x : AsmInst) (m : list Function) : list Function :=
  List.map (map_blocks (insert_inst b pos x)) m.

(** [BasicBlock::splitBasicBlock]: the block [b] keeps its instructions
    before index [pos] and branches to the new block [nb], which takes the
    instructions from [pos] on and the old terminator and follows [b] in the
    function. *)
Fixpoint split_bb (b : nat) (pos : nat) (nb : nat) (bs : list BasicBlock) : list BasicBlock :=
  match bs with
  | [] => []
  | B :: rest =>
      if Nat.eqb (bb_id B) b
      then mkBB (bb_id B) (take pos (bb_insns B)) (Some [nb])
           :: mkBB nb (drop pos (bb_insns B)) (bb_term B) :: rest
      else B :: split_bb b pos nb rest
  end.

(** Modelled from the spec: [AsmInstruction::makeStart] is declared outside
    the sources at hand: "split the enclosing block there (making a new
    block start)". The block of the instruction is split in front of it. *)
Definition makeStart (loc : InstLoc) (nb : nat) (m : list Function) : list Function :=
  List.map (map_blocks (split_bb (loc_bb loc) (loc_pos loc) nb)) m.

(** The blocks of a function that is cut in front of the instruction at
    index [pos] of block [b]: what stays, closed by a return, and what
    moves out, headed by the new block [nb]. *)
Fixpoint cut_at (b : nat) (pos : nat) (bs : list BasicBlock) : list BasicBlock :=
  match bs with
  | [] => []
  | B :: rest =>
      if Nat.eqb (bb_id B) b
      then [mkBB (bb_id B) (take pos (bb_insns B)) (Some [])]
      else B :: cut_at b pos rest
  end.

Fixpoint suffix_at (b : nat) (pos : nat) (nb : nat) (bs : list BasicBlock) : list BasicBlock :=
  match bs with
  | [] => []
  | B :: rest =>
      if Nat.eqb (bb_id B) b
      then mkBB nb (drop pos (bb_insns B)) (bb_term B) :: rest
      else suffix_at b pos nb rest
  end.

(** Modelled from the spec: [splitFunctionOn] is declared outside the
    sources at hand: "split the enclosing function at that instruction: the
    suffix becomes a new function". The new function [nf], named [name],
    follows the enclosing function in the module; its entry block [nb]
    starts with the instruction. *)
Definition splitFunctionOn (loc : InstLoc) (name : string) (nb nf : nat)
    (m : list Function) : outcome (list Function) :=
  G ← deref (List.find (has_block (loc_bb loc)) m);
  let moved := suffix_at (loc_bb loc) (loc_pos loc) nb (fn_blocks G) in
  Done (insert_fn_after (fn_id G) (mkFn nf name moved)
          (update_fn (fn_id G) (cut_at (loc_bb loc) (loc_pos loc)) m)).

(** ** Jump targets and their worklist *)

Inductive eType :=
  | ENTRY_POINT
  | CONTROL_FLOW_CALL_AFTER
  | CONTROL_FLOW_BR_FALSE
  | CONTROL_FLOW_BR_TRUE
  | CONTROL_FLOW_CALL_TARGET
  | CONTROL_FLOW_RETURN_TARGET.

#[global] Instance eType_eq_dec : EqDecision eType.
Proof. solve_decision. Defined.

Record JumpTarget := mkJT {
  jt_address : Address;
  jt_type : eType;
  jt_mode : nat;
  jt_fromInst : option nat;
  jt_name : string
}.

(** Modelled from the spec: the container of jump targets is declared
    outside the sources at hand. "Priority: entry points first; then
    strictly ascending address; then deterministic kind ordering
    CF_CALL_TARGET < CF_BR_TRUE < CF_BR_FALSE < CF_CALL_AFTER <
    CF_RETURN_TARGET. Duplicate (addr, kind, from) pushes are idempotent." *)
Definition kind_rank (t : eType) : Z :=
  match t with
  | ENTRY_POINT => 0
  | CONTROL_FLOW_CALL_TARGET => 1
  | CONTROL_FLOW_BR_TRUE => 2
  | CONTROL_FLOW_BR_FALSE => 3
  | CONTROL_FLOW_CALL_AFTER => 4
  | CONTROL_FLOW_RETURN_TARGET => 5
  end.

Definition is_entry (j : JumpTarget) : bool := bool_decide (jt_type j = ENTRY_POINT).

Definition addr_ltb (a b : Address) : bool :=
  match a, b with
  | Some x, Some y => x <? y
  | Some _, None => true
  | None, _ => false
  end.

Definition jt_before (x y : JumpTarget) : bool :=
  if is_entry x && negb (is_entry y) then true
  else if negb (is_entry x) && is_entry y then false
  else if addr_ltb (jt_address x) (jt_address y) then true
  else if addr_ltb (jt_address y) (jt_address x) then false
  else kind_rank (jt_type x) <? kind_rank (jt_type y).

Definition jt_same (x y : JumpTarget) : bool :=
  bool_decide (jt_address x = jt_address y)
  && bool_decide (jt_type x = jt_type y)
  && bool_decide (jt_fromInst x = jt_fromInst y).

Fixpoint jt_insert (j : JumpTarget) (q : list JumpTarget) : list JumpTarget :=
  match q with
  | [] => [j]
  | k :: rest => if jt_before j k then j :: q else k :: jt_insert j rest
  end.

Definition jt_push (j : JumpTarget) (q : list JumpTarget) : list JumpTarget :=
  if existsb (jt_same j) q then q else jt_insert j q.

(** ** Pseudo calls waiting for their targets *)

Inductive PseudoKind := PseudoCall | PseudoReturn | PseudoBr | PseudoCondBr.

Record PseudoEntry := mkPseudo {
  pe_kind : PseudoKind;
  pe_targetFunction : option nat;
  pe_targetBbTrue : option nat;
  pe_targetBbFalse : option nat
}.

(** Modelled from the spec: the pseudo-call worklist is declared outside the
    sources at hand. "Each set is idempotent for the same target and fails
    loudly if called twice with different targets." A call that was never
    registered fails as loudly. *)
Definition set_once (old : option nat) (new : nat) : outcome (option nat) :=
  match old with
  | None => Done (Some new)
  | Some t => if Nat.eqb t new then Done (Some t) else AssertFail
  end.

Definition addPseudo (k : PseudoKind) (c : nat) (w : gmap nat PseudoEntry) : gmap nat PseudoEntry :=
  <[c := mkPseudo k None None None]> w.

Definition setTargetFunction (c f : nat) (w : gmap nat PseudoEntry) : outcome (gmap nat PseudoEntry) :=
  match w !! c with
  | None => AssertFail
  | Some e =>
      t ← set_once (pe_targetFunction e) f;
      Done (<[c := mkPseudo (pe_kind e) t (pe_targetBbTrue e) (pe_targetBbFalse e)]> w)
  end.

Definition setTargetBbTrue (c b : nat) (w : gmap nat PseudoEntry) : outcome (gmap nat PseudoEntry) :=
  match w !! c with
  | None => AssertFail
  | Some e =>
      t ← set_once (pe_targetBbTrue e) b;
      Done (<[c := mkPseudo (pe_kind e) (pe_targetFunction e) t (pe_targetBbFalse e)]> w)
  end.

Definition setTargetBbFalse (c b : nat) (w : gmap nat PseudoEntry) : outcome (gmap nat PseudoEntry) :=
  match w !! c with
  | None => AssertFail
  | Some e =>
      t ← set_once (pe_targetBbFalse e) b;
      Done (<[c := mkPseudo (pe_kind e) (pe_targetFunction e) (pe_targetBbTrue e) t]> w)
  end.

(** [llvm::cast<llvm::CallInst>(jt.fromInst)] asserts on a null pointer. *)
Definition cast_CallInst (i : option nat) : outcome nat :=
  match i with
  | Some c => Done c
  | None => AssertFail
  end.

(** ** The decoder's state *)

Record Decoder := mkDecoder {
  module_ : list Function;              (* _module: its function list *)
  addr2fnc : gmap Z nat;                (* _addr2fnc *)
  fnc2addr : gmap nat Z;                (* _fnc2addr *)
  addr2bb : gmap Z nat;                 (* _addr2bb *)
  bb2addr : gmap nat Z;                 (* _bb2addr *)
  allowedRanges : list AddressRange;    (* _allowedRanges *)
  jumpTargets : list JumpTarget;        (* _jumpTargets *)
  pseudoWorklist : gmap nat PseudoEntry; (* _pseudoWorklist *)
  currentMode : nat;                    (* _currentMode *)
  heap_next : nat                       (* the next pointer the allocator hands out *)
}.

Definition set_module (m : list Function) (d : Decoder) : Decoder :=
  mkDecoder m (addr2fnc d) (fnc2addr d) (addr2bb d) (bb2addr d)
    (allowedRanges d) (jumpTargets d) (pseudoWorklist d) (currentMode d) (heap_next d).

Definition index_fnc (a : Z) (f : nat) (d : Decoder) : Decoder :=
  mkDecoder (module_ d) (<[a := f]> (addr2fnc d)) (<[f := a]> (fnc2addr d))
    (addr2bb d) (bb2addr d)
    (allowedRanges d) (jumpTargets d) (pseudoWorklist d) (currentMode d) (heap_next d).

Definition index_bb (a : Z) (b : nat) (d : Decoder) : Decoder :=
  mkDecoder (module_ d) (addr2fnc d) (fnc2addr d)
    (<[a := b]> (addr2bb d)) (<[b := a]> (bb2addr d))
    (allowedRanges d) (jumpTargets d) (pseudoWorklist d) (currentMode d) (heap_next d).

Definition set_allowedRanges (rs : list AddressRange) (d : Decoder) : Decoder :=
  mkDecoder (module_ d) (addr2fnc d) (fnc2addr d) (addr2bb d) (bb2addr d)
    rs (jumpTargets d) (pseudoWorklist d) (currentMode d) (heap_next d).

Definition set_jumpTargets (q : list JumpTarget) (d : Decoder) : Decoder :=
  mkDecoder (module_ d) (addr2fnc d) (fnc2addr d) (addr2bb d) (bb2addr d)
    (allowedRanges d) q (pseudoWorklist d) (currentMode d) (heap_next d).

Definition set_pseudoWorklist (w : gmap nat PseudoEntry) (d : Decoder) : Decoder :=
  mkDecoder (module_ d) (addr2fnc d) (fnc2addr d) (addr2bb d) (bb2addr d)
    (allowedRanges d) (jumpTargets d) w (currentMode d) (heap_next d).

(** [new]: a pointer that no live object has. *)
Definition alloc (d : Decoder) : nat * Decoder :=
  (heap_next d,
   mkDecoder (module_ d) (addr2fnc d) (fnc2addr d) (addr2bb d) (bb2addr d)
     (allowedRanges d) (jumpTargets d) (pseudoWorklist d) (currentMode d) (S (heap_next d))).

(** ** What the translator hands back *)

(** The pseudo call synthesised for a control-flow instruction, with its
    argument operands. *)
Record BranchCall := mkBranchCall { bc_kind : PseudoKind; bc_args : list Value }.

(** [TranslationResultOne]: [tr_llvmInsn] tells whether [llvmInsn] is a
    non-null, valid anchor of a lifted instruction. *)
Record TranslationResultOne := mkResult {
  tr_failed : bool;
  tr_llvmInsn : bool;
  tr_size : Z;
  tr_branchCall : option BranchCall
}.

(** [CallInst::getArgOperand] asserts that the operand exists. *)
Definition getArgOperand (c : BranchCall) (i : nat) : outcome Value :=
  match bc_args c !! i with
  | Some v => Done v
  | None => AssertFail
  end.

(** The entry of an ordered map with the greatest key not above [a]: what
    [upper_bound(a)] followed by one step back yields, and nothing when the
    map is empty or its first key is above [a]. *)
Definition entry_before {V} (m : gmap Z V) (a : Z) : option (Z * V) :=
  foldr (fun kv best =>
           if kv.1 <=? a
           then match best with
                | Some b => if b.1 <? kv.1 then Some kv else best
                | None => Some kv
                end
           else best)
        None (map_to_list m).

(** ** The decoder *)

Section Decoder.
(** The end convention of [AddressRange], the single-instruction
    translator (bytes left at an address to what was lifted there) and the
    image (the number of raw bytes available at an address, or null) are
    the collaborators of the decoder. *)
Variable conv : end_convention.
Variable translateOne : Z -> Z -> TranslationResultOne.
Variable getRawSegmentData : Z -> option Z.

(** *** Jump target of a pseudo call's argument *)

(** The [uint64_t] that [getZExtValue] returns converts to an address. *)
Definition getJumpTarget (val : Value) : outcome Address :=
  match val with
  | ConstantInt bits v => a ← getZExtValue bits v; Done (Some a)
  | _ => Done getUndef
  end.

(** *** Function helper methods *)

Definition getFunctionAddress (d : Decoder) (f : option nat) : Address :=
  f ≫= fun f => fnc2addr d !! f.

(** Modelled from the spec: [AsmInstruction::getInstructionAddress] is
    declared outside the sources at hand; "the address of the last
    instruction in its last block (if known)". The last IR instruction of a
    block belongs to the last instruction lifted into it. *)
Definition getInstructionAddress_back (B : BasicBlock) : Address :=
  ai_addr <$> last (bb_insns B).

(** The end address of the function [f] points to: the body of
    [getFunctionEndAddress] once [f] is dereferenced. *)
Definition functionEnd (d : Decoder) (F : Function) : Address :=
  match last (fn_blocks F) with
  | None => getFunctionAddress d (Some (fn_id F))
  | Some B =>
      if bb_empty B then getFunctionAddress d (Some (fn_id F))
      else getInstructionAddress_back B
  end.

(** [getFunctionEndAddress]. The statement [Address();] of the null branch
    builds a temporary and drops it: control falls through to [f->empty()]. *)
Definition getFunctionEndAddress (d : Decoder) (f : option nat) : outcome Address :=
  _ ← (if bool_decide (f = None) then discard getUndef else Done tt);
  F ← deref (f ≫= getFn (module_ d));
  Done (functionEnd d F).

Definition getFunction (d : Decoder) (a : Address) : option nat :=
  a ≫= fun a => addr2fnc d !! a.

Definition getFunctionBeforeAddress (d : Decoder) (a : Address) : option nat :=
  a ≫= fun a => snd <$> entry_before (addr2fnc d) a.

Definition addr_lt (a b : Address) : bool :=
  match a, b with
  | Some x, Some y => x <? y
  | _, _ => false
  end.

Definition getFunctionContainingAddress (d : Decoder) (a : Address) : outcome (option nat) :=
  let f := getFunctionBeforeAddress d a in
  end_ ← getFunctionEndAddress d f;
  Done (if isDefined a && isDefined end_ && addr_lt a end_ then f else None).

(** *** Basic block helper methods *)

Definition getBasicBlockAddress (d : Decoder) (b : option nat) : Address :=
  b ≫= fun b => bb2addr d !! b.

(** The end address of the block [b] points to: the body of
    [getBasicBlockEndAddress] once [b] is dereferenced. *)
Definition blockEnd (d : Decoder) (B : BasicBlock) : Address :=
  if bb_empty B then getBasicBlockAddress d (Some (bb_id B))
  else getInstructionAddress_back B.

(** [getBasicBlockEndAddress], with the same null branch. *)
Definition getBasicBlockEndAddress (d : Decoder) (b : option nat) : outcome Address :=
  _ ← (if bool_decide (b = None) then discard getUndef else Done tt);
  B ← deref (b ≫= getBB (module_ d));
  Done (blockEnd d B).

Definition getBasicBlock (d : Decoder) (a : Address) : option nat :=
  a ≫= fun a => addr2bb d !! a.

Definition getBasicBlockBeforeAddress (d : Decoder) (a : Address) : option nat :=
  a ≫= fun a => snd <$> entry_before (addr2bb d) a.

Definition getBasicBlockContainingAddress (d : Decoder) (a : Address) : outcome (option nat) :=
  let f := getBasicBlockBeforeAddress d a in
  end_ ← getBasicBlockEndAddress d f;
  Done (if isDefined a && isDefined end_ && addr_lt a end_ then f else None).

(** [createBasicBlock]: the new block holds a return of undef and is put
    in front of the block that follows [insertAfter], at the end of [f]
    when there is none. The names of blocks are not modelled. *)
Definition createBasicBlock (d : Decoder) (a : Z) (f : nat) (insertAfter : option nat)
    : outcome (nat * Decoder) :=
  let next := insertAfter ≫= getNextNode (module_ d) in
  let '(b, d1) := alloc d in
  let nb := mkBB b [] (Some []) in
  m ← match insertAfter, next with
      | Some ia, Some n =>
          if bool_decide (getParent (module_ d) n = Some f)
          then Done (update_fn f (insert_bb_after ia nb) (module_ d))
          else ForeignInsert
      | _, _ => Done (update_fn f (fun bs => bs ++ [nb]) (module_ d))
      end;
  Done (b, index_bb a b (set_module m d1)).

(** [createFunction]. With an empty function list [Function::Create] is
    given the module and links the function into its list; the insertion
    that follows then links a function that is linked already, which LLVM's
    list rejects by assertion. In every other case the function is created
    detached and put after the function before [a], or at the front. *)
Definition createFunction (d : Decoder) (a : Z) (name : string) : outcome (nat * Decoder) :=
  let n := if bool_decide (name = "") then ("function_" +:+ toHexString a)%string else name in
  let '(f, d1) := alloc d in
  let before := getFunctionBeforeAddress d (Some a) in
  m ← (if bool_decide (module_ d = []) then AssertFail
       else Done (insert_fn before (mkFn f n []) (module_ d)));
  '(_, d2) ← createBasicBlock (set_module m d1) a f None;
  if bool_decide (is_Some (addr2fnc d2 !! a)) then AssertFail
  else Done (f, index_fnc a f d2).

(** *** Where the builder is put *)

(** An insertion point: a block and an index among its lifted
    instructions. *)
Definition Position : Type := (nat * nat)%type.

(** [IRBuilder<>(&f->front().front())]. *)
Definition at_front (d : Decoder) (f : nat) : outcome Position :=
  b ← deref (front (module_ d) f); Done (b, O).

(** [fromInst->getFunction()] and [fromInst->getParent()]. *)
Definition inst_block (d : Decoder) (i : option nat) : outcome nat :=
  loc ← deref (i ≫= locateInst (module_ d)); Done (loc_bb loc).

Definition inst_function (d : Decoder) (i : option nat) : outcome nat :=
  b ← inst_block d i; deref (getParent (module_ d) b).

Definition getIrBuilder (d : Decoder) (jt : JumpTarget) (a : Z) : outcome (Position * Decoder) :=
  if bool_decide (addr2fnc d = ∅) && bool_decide (jt_type jt = ENTRY_POINT) then
    '(f, d1) ← createFunction d a (jt_name jt);
    p ← at_front d1 f; Done (p, d1)
  else match jt_type jt with
  | CONTROL_FLOW_CALL_AFTER =>
      loc ← deref (jt_fromInst jt ≫= locateInst (module_ d));
      B ← deref (getBB (module_ d) (loc_bb loc));
      (* assert(next): there should be at least a terminator *)
      if bool_decide (S (loc_pos loc) = length (bb_insns B)) && bool_decide (bb_term B = None)
      then AssertFail
      else Done ((loc_bb loc, S (loc_pos loc)), d)
  | CONTROL_FLOW_BR_FALSE =>
      fromFnc ← inst_function d (jt_fromInst jt);
      fromBb ← inst_block d (jt_fromInst jt);
      '(bb, d1) ← createBasicBlock d a fromFnc (Some fromBb);
      c ← cast_CallInst (jt_fromInst jt);
      w ← setTargetBbFalse c bb (pseudoWorklist d1);
      Done ((bb, O), set_pseudoWorklist w d1)
  | CONTROL_FLOW_BR_TRUE =>
      fromFnc ← inst_function d (jt_fromInst jt);
      match getFunctionBeforeAddress d (Some a) with
      | None =>
          '(f, d1) ← createFunction d a (jt_name jt);
          c ← cast_CallInst (jt_fromInst jt);
          w ← setTargetFunction c f (pseudoWorklist d1);
          p ← at_front d1 f; Done (p, set_pseudoWorklist w d1)
      | Some targetFnc =>
          if Nat.eqb targetFnc fromFnc then
            match getBasicBlockBeforeAddress d (Some a) with
            | None => AssertFail
            | Some targetBb =>
                '(newBb, d1) ← createBasicBlock d a targetFnc (Some targetBb);
                c ← cast_CallInst (jt_fromInst jt);
                w ← setTargetBbTrue c newBb (pseudoWorklist d1);
                Done ((newBb, O), set_pseudoWorklist w d1)
            end
          else
            if bool_decide (getFunctionAddress d (Some targetFnc) = Some a) then AssertFail
            else
              contFnc ← getFunctionContainingAddress d (Some a);
              match contFnc with
              | Some _ => AssertFail
              | None =>
                  '(f, d1) ← createFunction d a (jt_name jt);
                  c ← cast_CallInst (jt_fromInst jt);
                  w ← setTargetFunction c f (pseudoWorklist d1);
                  p ← at_front d1 f; Done (p, set_pseudoWorklist w d1)
              end
      end
  | CONTROL_FLOW_CALL_TARGET =>
      match getFunction d (Some a) with
      | Some _ => AssertFail
      | None =>
          contFnc ← getFunctionContainingAddress d (Some a);
          match contFnc with
          | Some _ => AssertFail
          | None =>
              '(f, d1) ← createFunction d a (jt_name jt);
              c ← cast_CallInst (jt_fromInst jt);
              w ← setTargetFunction c f (pseudoWorklist d1);
              p ← at_front d1 f; Done (p, set_pseudoWorklist w d1)
          end
      end
  | _ => AssertFail
  end.

(** *** Jump targets of a lifted instruction *)

(** Modelled from the spec: the conversion of an [Address] to [bool], in
    [if (auto t = getJumpTarget(...))], is declared outside the sources at
    hand; the target is pushed when it "folds to a constant address", that
    is, when it is defined. *)
Definition push_if_defined (t : Address) (k : eType) (mode : nat) (from : nat)
    (q : list JumpTarget) : list JumpTarget :=
  if isDefined t then jt_push (mkJT t k mode (Some from) "") q else q.

(** [getJumpTargetsFromInstruction]: [call] is the pointer of the pseudo
    call of the instruction lifted at [addr]. The result tells whether the
    instruction ends its basic block. *)
Definition getJumpTargetsFromInstruction (d : Decoder) (call : nat) (addr : Z)
    (tr : TranslationResultOne) : outcome (bool * Decoder) :=
  let m := currentMode d in
  let nextAddr := Some (addr + tr_size tr) in
  match tr_branchCall tr with
  | None => Done (false, d)
  | Some bc =>
      match bc_kind bc with
      | PseudoCall =>
          v ← getArgOperand bc 0;
          t ← getJumpTarget v;
          let q1 := push_if_defined t CONTROL_FLOW_CALL_TARGET m call (jumpTargets d) in
          let q2 := jt_push (mkJT nextAddr CONTROL_FLOW_CALL_AFTER m (Some call) "") q1 in
          Done (true, set_pseudoWorklist (addPseudo PseudoCall call (pseudoWorklist d))
                        (set_jumpTargets q2 d))
      | PseudoReturn =>
          v ← getArgOperand bc 0;
          t ← getJumpTarget v;
          let q1 := push_if_defined t CONTROL_FLOW_RETURN_TARGET m call (jumpTargets d) in
          Done (true, set_pseudoWorklist (addPseudo PseudoReturn call (pseudoWorklist d))
                        (set_jumpTargets q1 d))
      | PseudoBr =>
          v ← getArgOperand bc 0;
          t ← getJumpTarget v;
          let q1 := push_if_defined t CONTROL_FLOW_BR_TRUE m call (jumpTargets d) in
          Done (true, set_pseudoWorklist (addPseudo PseudoBr call (pseudoWorklist d))
                        (set_jumpTargets q1 d))
      | PseudoCondBr =>
          v ← getArgOperand bc 1;
          t ← getJumpTarget v;
          let q1 := push_if_defined t CONTROL_FLOW_BR_TRUE m call (jumpTargets d) in
          let q2 := jt_push (mkJT nextAddr CONTROL_FLOW_BR_FALSE m (Some call) "") q1 in
          Done (true, set_pseudoWorklist (addPseudo PseudoCondBr call (pseudoWorklist d))
                        (set_jumpTargets q2 d))
      end
  end.

(** *** The decode loop *)

(** The do-while loop of [decodeJumpTarget]. Modelled from the spec: the
    translator is declared outside the sources at hand; it is handed the
    byte window and the cursor [addr] and the decoder must "advance addr by
    the lifted size and continue", so a lifted instruction moves the cursor
    and shrinks the window by its size, and a failed translation leaves the
    loop with the cursor where it was. The map from IR to machine
    instructions that the loop also fills is not modelled. The result is the
    cursor on exit. *)
Fixpoint translate_loop (fuel : nat) (bb pos : nat) (addr avail : Z) (d : Decoder)
    : outcome (Z * Decoder) :=
  match fuel with
  | O => Timeout
  | S fuel' =>
      let res := translateOne addr avail in
      if tr_failed res || negb (tr_llvmInsn res) then Done (addr, d)
      else
        let '(i, d1) := alloc d in
        let d2 := set_module (insert_inst_module bb pos (mkAsmInst i addr) (module_ d1)) d1 in
        '(bbEnd, d3) ← getJumpTargetsFromInstruction d2 i addr res;
        let addr' := addr + tr_size res in
        if bbEnd : bool then Done (addr', d3)
        else translate_loop fuel' bb (S pos) addr' (avail - tr_size res) d3
  end.

(** The range handed to [_allowedRanges.remove] on exit. *)
Definition decRange (start addr : Z) : AddressRange :=
  let end_ := if start <? addr then addr - 1 else start in
  mkRange start end_.

(** *** Recovery of a jump target outside the allowed ranges *)

Definition recover (d : Decoder) (jt : JumpTarget) (a : Z) : outcome Decoder :=
  match jt_type jt with
  | CONTROL_FLOW_CALL_AFTER => AssertFail
  | CONTROL_FLOW_BR_FALSE =>
      fromFnc ← inst_function d (jt_fromInst jt);
      match getBasicBlock d (Some a) with
      | None => AssertFail
      | Some targetBb =>
          parent ← deref (getParent (module_ d) targetBb);
          if Nat.eqb parent fromFnc then
            c ← cast_CallInst (jt_fromInst jt);
            w ← setTargetBbFalse c targetBb (pseudoWorklist d);
            Done (set_pseudoWorklist w d)
          else AssertFail
      end
  | CONTROL_FLOW_BR_TRUE =>
      fromFnc ← inst_function d (jt_fromInst jt);
      match getBasicBlock d (Some a) with
      | None =>
          match AsmInstruction (module_ d) a with
          | Some ai =>
              if bool_decide (getParent (module_ d) (loc_bb ai) = Some fromFnc) then
                let '(newBb, d1) := alloc d in
                let d2 := index_bb a newBb (set_module (makeStart ai newBb (module_ d1)) d1) in
                c ← cast_CallInst (jt_fromInst jt);
                w ← setTargetBbTrue c newBb (pseudoWorklist d2);
                Done (set_pseudoWorklist w d2)
              else AssertFail
          | None => AssertFail
          end
      | Some targetBb =>
          parent ← deref (getParent (module_ d) targetBb);
          if Nat.eqb parent fromFnc then
            c ← cast_CallInst (jt_fromInst jt);
            w ← setTargetBbTrue c targetBb (pseudoWorklist d);
            Done (set_pseudoWorklist w d)
          else AssertFail
      end
  | CONTROL_FLOW_CALL_TARGET =>
      match getFunction d (Some a) with
      | Some f =>
          c ← cast_CallInst (jt_fromInst jt);
          w ← setTargetFunction c f (pseudoWorklist d);
          Done (set_pseudoWorklist w d)
      | None =>
          match AsmInstruction (module_ d) a with
          | Some ai =>
              let n := ("function_" +:+ toHexString a)%string in
              let '(newBb, d1) := alloc d in
              let '(newFnc, d2) := alloc d1 in
              m ← splitFunctionOn ai n newBb newFnc (module_ d2);
              Done (index_bb a newBb (index_fnc a newFnc (set_module m d2)))
          | None => AssertFail
          end
      end
  | _ => Done d
  end.

(** *** One jump target *)

Definition decodeJumpTarget (fuel : nat) (d : Decoder) (jt : JumpTarget) : outcome Decoder :=
  match jt_address jt with
  | None => Done d
  | Some start =>
      match getRange conv (allowedRanges d) start with
      | None => recover d jt start
      | Some range =>
          match getRawSegmentData start with
          | None => Done d
          | Some avail =>
              let avail := if getSize conv range <? avail then getSize conv range else avail in
              '((bb, pos), d1) ← getIrBuilder d jt start;
              '(addr, d2) ← translate_loop fuel bb pos start avail d1;
              Done (set_allowedRanges
                      (remove conv (decRange start addr) (allowedRanges d2)) d2)
          end
      end
  end.

(** *** The worklist loop *)

Fixpoint decode (n : nat) (fuel : nat) (d : Decoder) : outcome Decoder :=
  match jumpTargets d with
  | [] => Done d
  | jt :: rest =>
      match fuel with
      | O => Timeout
      | S fuel' =>
          d' ← decodeJumpTarget n (set_jumpTargets rest d) jt;
          decode n fuel' d'
      end
  end.
End Decoder.

(** The decoder after the first [k] rounds of the loop of [decode] (after
    all of them when the worklist is drained earlier): the points at which
    the indices can be observed during decoding. *)
Fixpoint decode_prefix (conv : end_convention)
    (translateOne : Z -> Z -> TranslationResultOne) (getRawSegmentData : Z -> option Z)
    (n : nat) (k : nat) (d : Decoder) : outcome Decoder :=
  match k with
  | O => Done d
  | S k' =>
      match jumpTargets d with
      | [] => Done d
      | jt :: rest =>
          d' ← decodeJumpTarget conv translateOne getRawSegmentData n (set_jumpTargets rest d) jt;
          decode_prefix conv translateOne getRawSegmentData n k' d'
      end
  end.

(** ** The control-flow dump *)

#[local] Set Warnings "-register-all".
Inductive Json :=
  | JString (s : string)
  | JArray (l : list Json)
  | JObject (members : list (string * Json)).

Section Dump.
(** The JSON writer (jsoncpp's [StreamWriter]) is a collaborator: it
    turns a JSON value into the bytes of [control-flow.json]. *)
Variable write : Json -> string.

(** The blocks of a list up to and including block [b], last first: the
    chain that [getPrevNode] walks from [b]. *)
Fixpoint back_from (b : nat) (seen : list BasicBlock) (bs : list BasicBlock)
    : option (list BasicBlock) :=
  match bs with
  | [] => None
  | B :: rest =>
      if Nat.eqb (bb_id B) b then Some (B :: seen) else back_from b (B :: seen) rest
  end.

(** The first block of the chain that has an address; [assert(succ)] fails
    when the chain ends before one is found. *)
Fixpoint first_addressed (d : Decoder) (chain : list BasicBlock) : outcome Z :=
  match chain with
  | [] => AssertFail
  | B :: rest =>
      match getBasicBlockAddress d (Some (bb_id B)) with
      | Some a => Done a
      | None => first_addressed d rest
      end
  end.

Definition succ_address (d : Decoder) (succ : nat) : outcome Z :=
  F ← deref (List.find (has_block succ) (module_ d));
  chain ← deref (back_from succ [] (fn_blocks F));
  first_addressed d chain.

Fixpoint dump_succs (d : Decoder) (ss : list nat) : outcome (list Json) :=
  match ss with
  | [] => Done []
  | s :: rest =>
      a ← succ_address d s;
      js ← dump_succs d rest;
      Done (JString (toHexPrefixString a) :: js)
  end.

Fixpoint dump_bbs (d : Decoder) (bs : list BasicBlock) : outcome (list Json) :=
  match bs with
  | [] => Done []
  | B :: rest =>
      match getBasicBlockAddress d (Some (bb_id B)), blockEnd d B with
      | Some start, Some end_ =>
          jsonSuccs ← dump_succs d (successors B);
          js ← dump_bbs d rest;
          Done (JObject [("address", JString (toHexPrefixString start));
                         ("address_end", JString (toHexPrefixString end_));
                         ("succs", JArray jsonSuccs)]%string :: js)
      | _, _ => dump_bbs d rest
      end
  end.

Fixpoint dump_fncs (d : Decoder) (fs : list Function) : outcome (list Json) :=
  match fs with
  | [] => Done []
  | F :: rest =>
      match getFunctionAddress d (Some (fn_id F)), functionEnd d F with
      | Some start, Some end_ =>
          jsonBbs ← dump_bbs d (fn_blocks F);
          js ← dump_fncs d rest;
          Done (JObject [("address", JString (toHexPrefixString start));
                         ("address_end", JString (toHexPrefixString end_));
                         ("bbs", JArray jsonBbs);
                         ("code_refs", JArray [])]%string :: js)
      | _, _ => dump_fncs d rest
      end
  end.

(** [dumpControFlowToJson]: the bytes written to [control-flow.json]. *)
Definition dumpControFlowToJson (d : Decoder) : outcome string :=
  jsonFncs ← dump_fncs d (module_ d);
  Done (write (JArray jsonFncs)).
End Dump.

(** ** The pass *)

Section Run.
Variable conv : end_convention.
Variable translateOne : Z -> Z -> TranslationResultOne.
Variable getRawSegmentData : Z -> option Z.
Variable write : Json -> string.
(** [initTranslator], [initEnvironment], [initRanges] and
    [initJumpTargets] are defined outside the sources at hand: together
    they take the decoder to its state before decoding. *)
Variable init : Decoder -> Decoder.

(** [Decoder::run]: [config] and [image] tell whether [_config] and
    [_image] are non-null. After [decode] the module and the control flow
    are dumped and the process exits with status 1; the [return false]
    that follows is never reached. *)
Definition run (config image : bool) (n fuel : nat) (d : Decoder) : outcome bool :=
  if negb config || negb image then Done false
  else
    d1 ← decode conv translateOne getRawSegmentData n fuel (init d);
    _ ← dumpControFlowToJson write d1;
    _ ← exit 1;
    Done false.
End Run.

(** ** The IR the stack pass rewrites *)

#[global] Instance Ty_eq_dec : EqDecision Ty.
Proof. solve_decision. Defined.

#[global] Instance Value_eq_dec : EqDecision Value.
Proof. solve_decision. Defined.

Inductive Op :=
  | Load (ptr : Value) (ty : Ty)                (* a load of a [ty] from [ptr] *)
  | Store (val ptr : Value)
  | Alloca (ty : Ty) (name : string)            (* a local of allocated type [ty] *)
  | Convert (v : Value) (ty : Ty)               (* a conversion of [v] to [ty] *)
  | Add (a b : Value) (ty : Ty)
  | OtherOp (ops : list Value) (ty : Ty).

Record Instruction := mkInst { inst_id : nat; inst_op : Op }.

Record SFunction := mkSFn { sf_id : nat; sf_blocks : list (list Instruction) }.

Definition typeOf (v : Value) : Ty :=
  match v with
  | ConstantInt bits _ => IntegerTy bits
  | GlobalVariable _ ty => PointerTy ty
  | InstValue _ ty => ty
  | UndefValue ty => ty
  end.

Definition op_type (o : Op) : Ty :=
  match o with
  | Load _ ty => ty
  | Store _ _ => VoidTy
  | Alloca ty _ => PointerTy ty
  | Convert _ ty => ty
  | Add _ _ ty => ty
  | OtherOp _ ty => ty
  end.

(** An instruction used as a value. *)
Definition inst_value (i : Instruction) : Value := InstValue (inst_id i) (op_type (inst_op i)).

Definition isAggregateType (t : Ty) : bool :=
  match t with
  | StructTy _ | ArrayTy _ _ => true
  | _ => false
  end.

(** [getPointerElementType]: null when the type is not a pointer. *)
Definition getPointerElementType (t : Ty) : option Ty :=
  match t with
  | PointerTy e => Some e
  | _ => None
  end.

Definition isIntegerTy1 (t : Ty) : bool :=
  match t with
  | IntegerTy 1 => true
  | _ => false
  end.

Definition isGlobalVariable (v : Value) : bool :=
  match v with GlobalVariable _ _ => true | _ => false end.

(** [AllocaInst]: a stack slot. *)
Record AllocaInst := mkAlloca { al_id : nat; al_type : Ty; al_name : string }.

Definition alloca_value (a : AllocaInst) : Value := InstValue (al_id a) (PointerTy (al_type a)).

(** [ReplaceItem]. *)
Record ReplaceItem := mkReplace { ri_inst : nat; ri_from : Value; ri_to : AllocaInst }.

(** *** Editing a function body *)

Definition find_inst (body : list (list Instruction)) (i : nat) : option Instruction :=
  List.find (fun x => Nat.eqb (inst_id x) i) (concat body).

(** The instructions [new] put in front of instruction [i]. *)
Definition insert_before (i : nat) (new : list Instruction) (body : list (list Instruction))
    : list (list Instruction) :=
  List.map (flat_map (fun x => if Nat.eqb (inst_id x) i then new ++ [x] else [x])) body.

Definition set_op (i : nat) (o : Op) (body : list (list Instruction)) : list (list Instruction) :=
  List.map (List.map (fun x => if Nat.eqb (inst_id x) i then mkInst i o else x)) body.

Definition erase (dead : list nat) (body : list (list Instruction)) : list (list Instruction) :=
  List.map (List.filter (fun x => negb (existsb (Nat.eqb (inst_id x)) dead))) body.

Definition subst_value (from to v : Value) : Value :=
  if bool_decide (v = from) then to else v.

Definition subst_op (from to : Value) (o : Op) : Op :=
  match o with
  | Load p ty => Load (subst_value from to p) ty
  | Store v p => Store (subst_value from to v) (subst_value from to p)
  | Alloca ty n => Alloca ty n
  | Convert v ty => Convert (subst_value from to v) ty
  | Add a b ty => Add (subst_value from to a) (subst_value from to b) ty
  | OtherOp ops ty => OtherOp (List.map (subst_value from to) ops) ty
  end.

(** The operands of an instruction ([User::operands]). *)
Definition uses (o : Op) : list Value :=
  match o with
  | Load p _ => [p]
  | Store v p => [v; p]
  | Alloca _ _ => []
  | Convert v _ => [v]
  | Add a b _ => [a; b]
  | OtherOp ops _ => ops
  end.

(** [Value::replaceAllUsesWith] within the function, and
    [User::replaceUsesOfWith] on one instruction. *)
Definition replaceAllUsesWith (from to : Value) (body : list (list Instruction))
    : list (list Instruction) :=
  List.map (List.map (fun x => mkInst (inst_id x) (subst_op from to (inst_op x)))) body.

Definition replaceUsesOfWith (i : nat) (from to : Value) (body : list (list Instruction))
    : list (list Instruction) :=
  List.map (List.map (fun x =>
    if Nat.eqb (inst_id x) i then mkInst (inst_id x) (subst_op from to (inst_op x)) else x)) body.

(** Modelled from the spec: [convertValueToType] is declared outside the
    sources at hand: "insert a type-coercion". A value that has the type
    already is returned as it is; otherwise one conversion instruction, with
    the fresh pointer [fresh], is put in front of [before]. The result is
    the converted value and whether [fresh] was used. *)
Definition convertValueToType (v : Value) (ty : Ty) (before : nat) (fresh : nat)
    (body : list (list Instruction)) : Value * bool * list (list Instruction) :=
  if bool_decide (typeOf v = ty) then (v, false, body)
  else (InstValue fresh ty, true, insert_before before [mkInst fresh (Convert v ty)] body).

(** ** Symbolic trees *)

(** Modelled from the spec: [SymbolicTree] is declared outside the sources
    at hand: a node with the IR value it stands for (null once it is
    simplified away) and the nodes of its operands. How a tree is built and
    simplified is a parameter of the pass. *)
#[local] Set Warnings "-register-all".
Inductive SymbolicTree := SNode (value : option Value) (ops : list SymbolicTree).

Definition st_value (t : SymbolicTree) : option Value := let 'SNode v _ := t in v.
Definition st_ops (t : SymbolicTree) : list SymbolicTree := let 'SNode _ o := t in o.

(** [getPostOrder]: operands before the node. *)
Fixpoint getPostOrder (t : SymbolicTree) : list SymbolicTree :=
  match t with
  | SNode v ops => flat_map getPostOrder ops ++ [t]
  end.

(** [getLevelOrder]: the nodes level by level, the root first. *)
Fixpoint levels (fuel : nat) (ts : list SymbolicTree) : list SymbolicTree :=
  match fuel with
  | O => []
  | S fuel' =>
      match ts with
      | [] => []
      | _ => ts ++ levels fuel' (flat_map st_ops ts)
      end
  end.

Fixpoint depth (t : SymbolicTree) : nat :=
  match t with
  | SNode _ ops => S (foldr (fun c n => Nat.max (depth c) n) O ops)
  end.

Definition getLevelOrder (t : SymbolicTree) : list SymbolicTree := levels (depth t) [t].

(** ** The stack pass *)

(** What the pass asks of the configuration and of the debug information. *)
Record Config := mkConfig {
  isStackPointerRegister : Value -> bool;
  isRegister : Value -> bool;
  cfg_getFunctionAddress : nat -> Address
}.

Record DebugVar := mkDebugVar {
  dv_name : string;
  dv_isStack : bool;
  dv_stackOffset : Z;
  dv_type : Ty
}.

Record DebugFormat := mkDebug { dbg_getFunction : Address -> option (list DebugVar) }.

Inductive Event :=
  | EvReachingDefinitions        (* the reaching-definitions analysis was built and run *)
  | EvFunction (f : nat).        (* runOnFunction was entered for f *)

Record Pass := mkPass {
  p_module : list SFunction;                 (* _module *)
  p_stackVars : gmap (nat * Z) AllocaInst;   (* the stack variables known to the configuration *)
  p_fromDebug : gmap nat string;             (* slots flagged as debug-derived, with their real names *)
  p_next : nat;                              (* the next pointer the allocator hands out *)
  p_log : list Event
}.

Definition get_body (p : Pass) (f : nat) : list (list Instruction) :=
  match List.find (fun F => Nat.eqb (sf_id F) f) (p_module p) with
  | Some F => sf_blocks F
  | None => []
  end.

Definition set_body (f : nat) (body : list (list Instruction)) (p : Pass) : Pass :=
  mkPass (List.map (fun F => if Nat.eqb (sf_id F) f then mkSFn f body else F) (p_module p))
    (p_stackVars p) (p_fromDebug p) (p_next p) (p_log p).

Definition bump (p : Pass) : Pass :=
  mkPass (p_module p) (p_stackVars p) (p_fromDebug p) (S (p_next p)) (p_log p).

Definition log_event (e : Event) (p : Pass) : Pass :=
  mkPass (p_module p) (p_stackVars p) (p_fromDebug p) (p_next p) (p_log p ++ [e]).

(** [int]: a signed 32-bit integer. *)
Definition to_int (z : Z) : Z := (z + 2 ^ 31) mod 2 ^ 32 - 2 ^ 31.

Definition at_entry (x : Instruction) (body : list (list Instruction)) : list (list Instruction) :=
  match body with
  | [] => []
  | b :: rest => (x :: b) :: rest
  end.

(** Modelled from the spec: [IrModifier::getStackVariable] is declared
    outside the sources at hand: "obtain the slot (create it at the
    function's entry on first demand)"; "once created, subsequent lookups
    with the same (function, offset) return it"; without a name "its name is
    synthesized from k". *)
Definition getStackVariable (p : Pass) (f : nat) (offset : Z) (t : Ty) (name : string)
    : AllocaInst * Pass :=
  match p_stackVars p !! (f, offset) with
  | Some a => (a, p)
  | None =>
      let n := if bool_decide (name = "") then ("stack_var_" +:+ pretty offset)%string else name in
      let a := mkAlloca (p_next p) t n in
      let body := at_entry (mkInst (al_id a) (Alloca t n)) (get_body p f) in
      let p1 := set_body f body (bump p) in
      (a, mkPass (p_module p1) (<[(f, offset) := a]> (p_stackVars p1))
               (p_fromDebug p1) (p_next p1) (p_log p1))
  end.

Definition set_fromDebug (a : AllocaInst) (real : string) (p : Pass) : Pass :=
  mkPass (p_module p) (p_stackVars p) (<[al_id a := real]> (p_fromDebug p)) (p_next p) (p_log p).

Section StackAnalysis.
(** The reaching-definitions analysis and the symbolic trees built on it
    are collaborators: [buildTree rda body val val2val] is the tree rooted
    at [val], with the flag [isVal2ValMapUsed]; [simplifyNode] is
    [SymbolicTree::simplifyNode]. *)
Variable RDA : Type.
Variable RDA_runOnModule : list SFunction -> Config -> RDA.
Variable buildTree :
  RDA -> list (list Instruction) -> Value -> gmap nat Value -> SymbolicTree * bool.
Variable simplifyNode : Config -> SymbolicTree -> SymbolicTree.
(** [AsmInstruction::isLlvmToAsmInstruction]: the store is one of the
    anchors that tie the IR to the machine instructions. *)
Variable isLlvmToAsmInstruction : Instruction -> bool.

Variable config : Config.
Variable dbgf : option DebugFormat.

Definition is_add (body : list (list Instruction)) (v : option Value) : bool :=
  match v with
  | Some (InstValue i _) =>
      match inst_op <$> find_inst body i with
      | Some (Add _ _ _) => true
      | _ => false
      end
  | _ => false
  end.

Definition as_load (body : list (list Instruction)) (v : option Value) : option Value :=
  match v with
  | Some (InstValue i _) =>
      match inst_op <$> find_inst body i with
      | Some (Load p _) => Some p
      | _ => None
      end
  | _ => None
  end.

Definition as_constant (v : option Value) : option Z :=
  match v with
  | Some (ConstantInt bits val) => Some (getSExtValue bits val)
  | _ => None
  end.

(** The first node, in level order, that adds a constant to a load; its
    constant is the base offset when the load reads a register. *)
Fixpoint first_add_offset (body : list (list Instruction)) (ns : list SymbolicTree)
    : option Z :=
  match ns with
  | [] => None
  | n :: rest =>
      match is_add body (st_value n), st_ops n with
      | true, [l; c] =>
          match as_load body (st_value l), as_constant (st_value c) with
          | Some ptr, Some k => if isRegister config ptr then Some (to_int k) else None
          | _, _ => first_add_offset body rest
          end
      | _, _ => first_add_offset body rest
      end
  end.

Definition getDebugStackVariable (body : list (list Instruction)) (fnc : nat)
    (root : SymbolicTree) : option DebugVar :=
  dbg ← dbgf;
  locals ← dbg_getFunction dbg (cfg_getFunctionAddress config fnc);
  baseOffset ← match as_constant (st_value root) with
               | Some k => Some (to_int k)
               | None => first_add_offset body (getLevelOrder root)
               end;
  List.find (fun var => dv_isStack var && (dv_stackOffset var =? baseOffset)) locals.

Definition is_store_of (inst : Instruction) (val : Value) : bool :=
  match inst_op inst with
  | Store v _ => bool_decide (v = val)
  | _ => false
  end.

(** [handleInstruction] for the instruction [inst] of function [fnc]; the
    replace list and the substitution map are threaded with the pass. *)
Definition handleInstruction (rda : RDA) (fnc : nat) (inst : Instruction) (val : Value)
    (type : Ty) (st : Pass * list ReplaceItem * gmap nat Value)
    : bool * (Pass * list ReplaceItem * gmap nat Value) :=
  let '(p, replaceItems, val2val) := st in
  let body := get_body p fnc in
  let '(root, used) := buildTree rda body val val2val in
  if negb used
     && negb (existsb (fun n => from_option (isStackPointerRegister config) false (st_value n))
                      (getPostOrder root))
  then (false, st)
  else
    let debugSv := getDebugStackVariable body fnc root in
    let root := simplifyNode config root in
    let debugSv := if debugSv is None then getDebugStackVariable body fnc root else debugSv in
    match st_value root with
    | Some (ConstantInt bits k) =>
        let ci := ConstantInt bits k in
        let val2val := if is_store_of inst val then <[inst_id inst := ci]> val2val else val2val in
        let name := from_option dv_name "" debugSv in
        let t := from_option dv_type type debugSv in
        let '(a, p1) := getStackVariable p fnc (getSExtValue bits k) t name in
        let p2 := match debugSv with
                  | Some sv => set_fromDebug a (dv_name sv) p1
                  | None => p1
                  end in
        (true, (p2, replaceItems ++ [mkReplace (inst_id inst) val a], val2val))
    | _ => (false, st)
    end.

(** *** The three loops of [runOnFunction] *)

(** The first loop: the stores, on their value operand. The result of
    [handleInstruction] is dropped. *)
Definition phaseA_step (rda : RDA) (fnc : nat)
    (st : Pass * list ReplaceItem * gmap nat Value) (i : Instruction)
    : Pass * list ReplaceItem * gmap nat Value :=
  match inst_op i with
  | Store v _ =>
      if isLlvmToAsmInstruction i then st
      else snd (handleInstruction rda fnc i v (typeOf v) st)
  | _ => st
  end.

(** The second loop: the loads and the stores, on their pointer operand. *)
Definition skip_pointer (ptr : Value) : bool :=
  match getPointerElementType (typeOf ptr) with
  | Some pt => isIntegerTy1 pt
  | None => false
  end.

Definition phaseB_step (rda : RDA) (fnc : nat)
    (acc : bool * (Pass * list ReplaceItem * gmap nat Value)) (i : Instruction)
    : bool * (Pass * list ReplaceItem * gmap nat Value) :=
  let '(changed, st) := acc in
  match inst_op i with
  | Load ptr ty =>
      if skip_pointer ptr then acc
      else if isGlobalVariable ptr then acc
      else let '(c, st') := handleInstruction rda fnc i ptr ty st in (changed || c, st')
  | Store v ptr =>
      if isLlvmToAsmInstruction i then acc
      else if skip_pointer ptr then acc
      else if negb (isGlobalVariable ptr)
      then let '(c, st') := handleInstruction rda fnc i ptr (typeOf v) st in (changed || c, st')
      else acc
  | _ => acc
  end.

(** The third loop: one deferred replacement. [toErase] is a set: an
    instruction entered twice is erased once. *)
Definition phaseD_step (st : list (list Instruction) * list nat * nat) (ri : ReplaceItem)
    : list (list Instruction) * list nat * nat :=
  let '(body, toErase, next) := st in
  let to := alloca_value (ri_to ri) in
  let generic :=
    let '(conv, used, body1) :=
      convertValueToType to (typeOf (ri_from ri)) (ri_inst ri) next body in
    (replaceUsesOfWith (ri_inst ri) (ri_from ri) conv body1,
     toErase, if used : bool then S next else next) in
  match inst_op <$> find_inst body (ri_inst ri) with
  | Some (Store v ptr) =>
      if bool_decide (ptr = ri_from ri) then
        if isAggregateType (al_type (ri_to ri)) then
          let '(conv, used, body1) :=
            convertValueToType to (typeOf ptr) (ri_inst ri) next body in
          (set_op (ri_inst ri) (Store v conv) body1,
           toErase, if used : bool then S next else next)
        else
          let '(conv, used, body1) :=
            convertValueToType v (al_type (ri_to ri)) (ri_inst ri) next body in
          let next1 := if used : bool then S next else next in
          let body2 := insert_before (ri_inst ri) [mkInst next1 (Store conv to)] body1 in
          let toErase1 := list_union toErase [ri_inst ri] in
          let body3 := insert_before (ri_inst ri) [mkInst (S next1) (Store conv to)] body2 in
          let toErase2 := list_union toErase1 [ri_inst ri] in
          (body3, toErase2, S (S next1))
      else generic
  | Some (Load ptr ty) =>
      if bool_decide (ptr = ri_from ri) then
        if isAggregateType (al_type (ri_to ri)) then
          let '(conv, used, body1) :=
            convertValueToType to (typeOf ptr) (ri_inst ri) next body in
          (set_op (ri_inst ri) (Load conv ty) body1,
           toErase, if used : bool then S next else next)
        else
          let nl := mkInst next (Load to (al_type (ri_to ri))) in
          let body1 := insert_before (ri_inst ri) [nl] body in
          let '(conv, used, body2) :=
            convertValueToType (inst_value nl) ty (ri_inst ri) (S next) body1 in
          (replaceAllUsesWith (InstValue (ri_inst ri) ty) conv body2,
           list_union toErase [ri_inst ri],
           if used : bool then S (S next) else S next)
      else generic
  | _ => generic
  end.

(** The first loop: the substitution map and the replace list it leaves. *)
Definition phaseA (rda : RDA) (fnc : nat) (p : Pass)
    : Pass * list ReplaceItem * gmap nat Value :=
  foldl (phaseA_step rda fnc) (p, [], ∅) (concat (get_body p fnc)).

Definition phaseB (rda : RDA) (fnc : nat) (st : Pass * list ReplaceItem * gmap nat Value)
    : bool * (Pass * list ReplaceItem * gmap nat Value) :=
  foldl (phaseB_step rda fnc) (false, st) (concat (get_body st.1.1 fnc)).

(** The third loop, and the erasure that follows it. *)
Definition phaseD (fnc : nat) (replaceItems : list ReplaceItem) (p : Pass) : Pass :=
  let '(body, toErase, next) :=
    foldl phaseD_step (get_body p fnc, [], p_next p) replaceItems in
  let p2 := set_body fnc (erase toErase body) p in
  mkPass (p_module p2) (p_stackVars p2) (p_fromDebug p2) next (p_log p2).

Definition runOnFunction (rda : RDA) (fnc : nat) (p : Pass) : bool * Pass :=
  let p := log_event (EvFunction fnc) p in
  let '(changed, (p1, replaceItems, _)) := phaseB rda fnc (phaseA rda fnc p) in
  (changed, phaseD fnc replaceItems p1).
End StackAnalysis.

Section StackRun.
Variable RDA : Type.
Variable RDA_runOnModule : list SFunction -> Config -> RDA.
Variable buildTree :
  RDA -> list (list Instruction) -> Value -> gmap nat Value -> SymbolicTree * bool.
Variable simplifyNode : Config -> SymbolicTree -> SymbolicTree.
Variable isLlvmToAsmInstruction : Instruction -> bool.

(** [StackAnalysis::run]: [config] is [_config], null or not. *)
Definition stack_run (config : option Config) (dbgf : option DebugFormat) (p : Pass)
    : bool * Pass :=
  match config with
  | None => (false, p)
  | Some c =>
      let rda := RDA_runOnModule (p_module p) c in
      let p := log_event EvReachingDefinitions p in
      foldl (fun acc f =>
               let '(changed, p) := acc in
               let '(c', p') :=
                 runOnFunction RDA buildTree simplifyNode isLlvmToAsmInstruction c dbgf
                   rda f p in
               (changed || c', p'))
            (false, p) (List.map sf_id (p_module p))
  end.
End StackRun.

(** * Example programs *)

(** The initial module holds the declarations of the pseudo functions the
    translator calls; the image maps the bytes from 0x1000 up to 0x3000, all
    of them allowed. *)
Definition ex_plain (size : Z) : TranslationResultOne := mkResult false true size None.

Definition ex_call (target : Z) : TranslationResultOne :=
  mkResult false true 5 (Some (mkBranchCall PseudoCall [ConstantInt 32 target])).

Definition ex_ret : TranslationResultOne :=
  mkResult false true 1 (Some (mkBranchCall PseudoReturn [UndefValue (IntegerTy 32)])).

Definition ex_failed : TranslationResultOne := mkResult true false 0 None.

Definition ex_image (a : Z) : option Z :=
  if (0x1000 <=? a) && (a <? 0x3000) then Some (0x3000 - a) else None.

Definition ex_start (conv : end_convention) : Decoder :=
  mkDecoder [mkFn 0 "__pseudo_call" []] ∅ ∅ ∅ ∅
    [range_of_limit conv 0x1000 0x3000]
    [mkJT (Some 0x1000) ENTRY_POINT 0 None "main"] ∅ 0 1.

(** A call back into the middle of the function that holds it:
    0x1000 and 0x1002 are plain instructions, 0x1004 calls 0x1002 and
    0x1009 returns. *)
Definition ex_callback (a avail : Z) : TranslationResultOne :=
  if avail <=? 0 then ex_failed
  else if a =? 0x1000 then ex_plain 2
  else if a =? 0x1002 then ex_plain 2
  else if a =? 0x1004 then ex_call 0x1002
  else if a =? 0x1009 then ex_ret
  else ex_failed.

(** Bytes that the translator cannot lift. *)
Definition ex_undecodable (a avail : Z) : TranslationResultOne := ex_failed.

(** A translator that never takes more bytes than it is given: two-byte
    instructions, and a return at 0x1004. *)
Definition ex_bounded (a avail : Z) : TranslationResultOne :=
  if avail <? 2 then ex_failed
  else if a =? 0x1004 then ex_ret
  else ex_plain 2.

(** Two-byte branches whose target operand is a constant too wide for an
    address. *)
Definition ex_wide (a avail : Z) : TranslationResultOne :=
  if avail <? 2 then ex_failed
  else mkResult false true 2 (Some (mkBranchCall PseudoBr [ConstantInt 128 (2 ^ 64)])).

(** The entry point, and the decoder once it is popped. *)
Definition ex_entry : JumpTarget := mkJT (Some 0x1000) ENTRY_POINT 0 None "main".

Definition ex_popped (conv : end_convention) : Decoder := set_jumpTargets [] (ex_start conv).


(** A backward branch into bytes that precede consumed ones:
    0x1000 branches to 0x1008; 0x1004, 0x1006 and 0x1008 are plain
    instructions; 0x100a branches back to 0x1004. *)
Definition ex_br (target : Z) : TranslationResultOne :=
  mkResult false true 2 (Some (mkBranchCall PseudoBr [ConstantInt 32 target])).

Definition ex_overrun (a avail : Z) : TranslationResultOne :=
  if avail <=? 0 then ex_failed
  else if a =? 0x1000 then ex_br 0x1008
  else if a =? 0x1004 then ex_plain 2
  else if a =? 0x1006 then ex_plain 2
  else if a =? 0x1008 then ex_plain 2
  else if a =? 0x100a then ex_br 0x1004
  else ex_failed.

(** The addresses of the instructions lifted into a module. *)
Definition lifted (m : list Function) : list Z :=
  flat_map (fun F => flat_map (fun B => List.map ai_addr (bb_insns B)) (fn_blocks F)) m.

(** The claim of the spec on the range taken out: the addresses that leave
    the allowed ranges are those of [start, addr). *)
Definition removes_start_to_cursor (conv : end_convention)
    (before after : list AddressRange) (start addr : Z) : Prop :=
  forall x, containsAddress conv after x
            = containsAddress conv before x && negb ((start <=? x) && (x <? addr)).


(** Two decoders hold the same module when their function lists agree
    function by function and block by block, up to the pointers of the
    blocks, which [rho] carries over: the same indexed addresses, the same
    lifted addresses, the same terminators and successor edges. *)
Definition bb_corr (rho : nat -> nat) (B1 B2 : BasicBlock) : Prop :=
  bb_id B2 = rho (bb_id B1)
  /\ List.map ai_addr (bb_insns B2) = List.map ai_addr (bb_insns B1)
  /\ bb_term B2 = List.map rho <$> bb_term B1.

Definition fn_corr (rho : nat -> nat) (d1 d2 : Decoder) (F1 F2 : Function) : Prop :=
  fnc2addr d2 !! fn_id F2 = fnc2addr d1 !! fn_id F1
  /\ Forall2 (bb_corr rho) (fn_blocks F1) (fn_blocks F2).

Definition same_module (rho : nat -> nat) (d1 d2 : Decoder) : Prop :=
  (forall x y, rho x = rho y -> x = y)
  /\ Forall2 (fn_corr rho d1 d2) (module_ d1) (module_ d2)
  /\ forall b, bb2addr d2 !! rho b = bb2addr d1 !! b.

(** A function of two blocks, the first branching to the second, and the
    same function at other pointers. *)
Definition ex_dump1 : Decoder :=
  mkDecoder
    [mkFn 1 "main" [mkBB 2 [mkAsmInst 4 0x1000] (Some [3%nat]);
                    mkBB 3 [mkAsmInst 5 0x1004] (Some [])];
     mkFn 0 "__pseudo_call" []]
    {[0x1000 := 1%nat]} {[1%nat := 0x1000]}
    {[0x1000 := 2%nat; 0x1004 := 3%nat]} {[2%nat := 0x1000; 3%nat := 0x1004]}
    [] [] ∅ 0 6.

Definition ex_dump2 : Decoder :=
  mkDecoder
    [mkFn 21 "main" [mkBB 12 [mkAsmInst 34 0x1000] (Some [13%nat]);
                     mkBB 13 [mkAsmInst 35 0x1004] (Some [])];
     mkFn 20 "__pseudo_call" []]
    {[0x1000 := 21%nat]} {[21%nat := 0x1000]}
    {[0x1000 := 12%nat; 0x1004 := 13%nat]} {[12%nat := 0x1000; 13%nat := 0x1004]}
    [] [] ∅ 0 40.

(** A function with a block that has no address of its own, as the blocks
    inside the model of an if-then-else instruction: block 4 sits between
    the blocks at 0x1000 and 0x1004. *)
Definition ex_dump3 : Decoder :=
  mkDecoder
    [mkFn 1 "main" [mkBB 2 [mkAsmInst 5 0x1000] (Some [4%nat]);
                    mkBB 4 [] (Some [3%nat]);
                    mkBB 3 [mkAsmInst 6 0x1004] (Some [])];
     mkFn 0 "__pseudo_call" []]
    {[0x1000 := 1%nat]} {[1%nat := 0x1000]}
    {[0x1000 := 2%nat; 0x1004 := 3%nat]} {[2%nat := 0x1000; 3%nat := 0x1004]}
    [] [] ∅ 0 7.

(** A writer that puts a JSON value on one line. *)
Fixpoint ex_write (j : Json) : string :=
  match j with
  | JString s => ("'" +:+ s +:+ "'")%string
  | JArray l => ("[" +:+ foldr (fun x acc => (ex_write x +:+ "," +:+ acc)%string) "]" l)%string
  | JObject ms =>
      ("{" +:+ foldr (fun kv acc => (kv.1 +:+ ":" +:+ ex_write kv.2 +:+ "," +:+ acc)%string)
                     "}" ms)%string
  end.


(** ** Example functions for the stack pass *)

(** Register 0 is the stack pointer; there is no debug information. *)
Definition ex_sp : Value := GlobalVariable 0 (IntegerTy 32).

Definition ex_config : Config :=
  mkConfig (fun v => bool_decide (v = ex_sp)) isGlobalVariable (fun _ => None).

(** A small tree builder in the manner of the spec: constants and
    registers are leaves, an addition expands into its two operands, a load
    and a conversion into their operand. The substitution map is not
    consulted. *)
Fixpoint ex_build (fuel : nat) (body : list (list Instruction)) (v : Value) : SymbolicTree :=
  match fuel with
  | O => SNode (Some v) []
  | S fuel' =>
      match v with
      | InstValue i _ =>
          match inst_op <$> find_inst body i with
          | Some (Add a b _) => SNode (Some v) [ex_build fuel' body a; ex_build fuel' body b]
          | Some (Load p _) => SNode (Some v) [ex_build fuel' body p]
          | Some (Convert x _) => SNode (Some v) [ex_build fuel' body x]
          | _ => SNode (Some v) []
          end
      | _ => SNode (Some v) []
      end
  end.

Definition ex_buildTree (rda : unit) (body : list (list Instruction)) (v : Value)
    (val2val : gmap nat Value) : SymbolicTree * bool :=
  (ex_build 32 body v, false).

(** A small simplifier: the stack pointer reads as 0, constants fold through
    additions, and a node with one operand passes its operand on. *)
Fixpoint ex_eval (c : Config) (t : SymbolicTree) : option Z :=
  match t with
  | SNode (Some (ConstantInt bits k)) [] => Some (getSExtValue bits k)
  | SNode (Some v) [] => if isStackPointerRegister c v then Some 0 else None
  | SNode _ [x] => ex_eval c x
  | SNode _ [x; y] =>
      match ex_eval c x, ex_eval c y with
      | Some a, Some b => Some (a + b)
      | _, _ => None
      end
  | _ => None
  end.

Definition ex_simplifyNode (c : Config) (t : SymbolicTree) : SymbolicTree :=
  match ex_eval c t with
  | Some k => SNode (Some (ConstantInt 32 (k mod 2 ^ 32))) []
  | None => t
  end.

Definition ex_no_anchor (i : Instruction) : bool := false.

(** [store i32 7, i32* (sp + 8)]:
    %1 = load sp; %2 = add %1, 8; %3 = inttoptr %2; store 7, %3. *)
Definition ex_store_fn : list (list Instruction) :=
  [[mkInst 1 (Load ex_sp (IntegerTy 32));
    mkInst 2 (Add (InstValue 1 (IntegerTy 32)) (ConstantInt 32 8) (IntegerTy 32));
    mkInst 3 (Convert (InstValue 2 (IntegerTy 32)) (PointerTy (IntegerTy 32)));
    mkInst 4 (Store (ConstantInt 32 7) (InstValue 3 (PointerTy (IntegerTy 32))))]].

Definition ex_store_pass : Pass := mkPass [mkSFn 0 ex_store_fn] ∅ ∅ 5 [].

(** [sp = sp - 4]: %1 = load sp; %2 = add %1, -4; store %2, sp. *)
Definition ex_push_fn : list (list Instruction) :=
  [[mkInst 1 (Load ex_sp (IntegerTy 32));
    mkInst 2 (Add (InstValue 1 (IntegerTy 32)) (ConstantInt 32 (2 ^ 32 - 4)) (IntegerTy 32));
    mkInst 3 (Store (InstValue 2 (IntegerTy 32)) ex_sp)]].

Definition ex_push_pass : Pass := mkPass [mkSFn 0 ex_push_fn] ∅ ∅ 4 [].

(** Whether a tree passes the check that [handleInstruction] makes before it
    simplifies: the substitution map was used, or a node of the tree is the
    stack-pointer register. *)
Definition has_stack_pointer (c : Config) (root : SymbolicTree) (used : bool) : bool :=
  used || existsb (fun n => from_option (isStackPointerRegister c) false (st_value n))
            (getPostOrder root).

(** The stores of a body that write to [ptr]. *)
Definition stores_to (ptr : Value) (body : list (list Instruction)) : list Instruction :=
  List.filter (fun x => match inst_op x with
                        | Store _ p => bool_decide (p = ptr)
                        | _ => false
                        end) (concat body).


(** * Invariants of the decoder *)

(** A change of block lists keeps the entry block of every function when
    it keeps the first block of every list. *)
Definition keeps_head (h : list BasicBlock -> list BasicBlock) : Prop :=
  forall B bs, exists B' bs', h (B :: bs) = B' :: bs' /\ bb_id B' = bb_id B.

(** Every pointer of the module lies below [n]. *)
Definition blocks_below (n : nat) (bs : list BasicBlock) : Prop :=
  Forall (fun B => (bb_id B < n)%nat) bs.

Definition ids_below (n : nat) (m : list Function) : Prop :=
  Forall (fun F => (fn_id F < n)%nat /\ blocks_below n (fn_blocks F)) m.

(** A decoder state is well formed when every pointer in its module was
    handed out by the allocator and every function of the address index is
    indexed back at the same address and has an entry block that the block
    index places at that address. *)
Record wf (d : Decoder) : Prop := mk_wf {
  wf_ids : ids_below (heap_next d) (module_ d);
  wf_index : forall a f, addr2fnc d !! a = Some f ->
    fnc2addr d !! f = Some a
    /\ exists b, front (module_ d) f = Some b /\ bb2addr d !! b = Some a
}.

(** [grows d d']: the step from [d] to [d'] allocates, keeps the entry block
    of every function and the indexed address of every existing block, and
    leaves the function index alone. *)
Record grows (d d' : Decoder) : Prop := mk_grows {
  gr_next : (heap_next d <= heap_next d')%nat;
  gr_ids : ids_below (heap_next d) (module_ d) -> ids_below (heap_next d') (module_ d');
  gr_front : forall g x, front (module_ d) g = Some x -> front (module_ d') g = Some x;
  gr_bb2addr : forall b, (b < heap_next d)%nat -> bb2addr d' !! b = bb2addr d !! b;
  gr_addr2fnc : addr2fnc d' = addr2fnc d;
  gr_fnc2addr : fnc2addr d' = fnc2addr d;
  gr_allowed : allowedRanges d' = allowedRanges d
}.

(** The start addresses of the functions of the module, in the order of the
    module; a function without an address is left out. *)
Definition fn_addresses (d : Decoder) : list Z :=
  omap (fun F => fnc2addr d !! fn_id F) (module_ d).

(** * Properties *)

(** ** The outcome monad *)

Lemma bind_Done {A B} (o : outcome A) (k : A -> outcome B) (y : B) :
  o ≫= k = Done y -> exists x, o = Done x /\ k x = Done y.
Proof. destruct o; simpl; intros H; try discriminate. eauto. Qed.

Lemma deref_Done {A} (p : option A) (x : A) : deref p = Done x -> p = Some x.
Proof. destruct p; simpl; congruence. Qed.

(** Splits a hypothesis [o ≫= k = Done y] into its two steps. *)
Ltac bind_inv H :=
  match type of H with
  | mbind ?k ?o = Done ?y =>
      let x := fresh "x" in
      let Hx := fresh "Hx" in
      let H' := fresh in
      destruct (bind_Done o k y H) as (x & Hx & H');
      clear H; rename H' into H; cbv beta in H
  end.

(** ** Jump targets of pseudo calls *)

(** The assertion of [getZExtValue] holds exactly when the unsigned value
    of the constant is below [2 ^ 64]. *)
Lemma getActiveBits_le_64 (bits : N) (val : Z) :
  getActiveBits bits val <= 64 <-> val mod 2 ^ Z.of_N bits < 2 ^ 64.
Proof.
  unfold getActiveBits.
  assert (Hu : 0 <= val mod 2 ^ Z.of_N bits < 2 ^ Z.of_N bits)
    by (apply Z.mod_pos_bound, Z.pow_pos_nonneg; lia).
  destruct (Z.eqb_spec (val mod 2 ^ Z.of_N bits) 0) as [E|E].
  - rewrite E. split; intros _; [reflexivity|lia].
  - rewrite (Z.log2_lt_pow2 (val mod 2 ^ Z.of_N bits) 64) by lia. lia.
Qed.

(** The zero-extended value is the unsigned reading of the constant's bits
    and fits a [uint64_t]. *)
Lemma getZExtValue_range (bits : N) (val z : Z) :
  getZExtValue bits val = Done z ->
  z = val mod 2 ^ Z.of_N bits /\ 0 <= z < 2 ^ Z.of_N bits /\ z < 2 ^ 64.
Proof.
  unfold getZExtValue. destruct (Z.leb_spec (getActiveBits bits val) 64) as [H|H];
    [|discriminate].
  intros [= <-]. apply getActiveBits_le_64 in H. split; [reflexivity|]. split; [|exact H].
  apply Z.mod_pos_bound, Z.pow_pos_nonneg; lia.
Qed.

Lemma getZExtValue_fits (bits : N) (val : Z) :
  val mod 2 ^ Z.of_N bits < 2 ^ 64 ->
  getZExtValue bits val = Done (val mod 2 ^ Z.of_N bits).
Proof.
  intros H. apply getActiveBits_le_64 in H. unfold getZExtValue.
  destruct (Z.leb_spec (getActiveBits bits val) 64); [reflexivity|lia].
Qed.

Lemma getZExtValue_too_wide (bits : N) (val : Z) :
  2 ^ 64 <= val mod 2 ^ Z.of_N bits -> getZExtValue bits val = AssertFail.
Proof.
  intros H. unfold getZExtValue.
  destruct (Z.leb_spec (getActiveBits bits val) 64) as [Hle|_]; [|reflexivity].
  apply getActiveBits_le_64 in Hle. lia.
Qed.

(** [getJumpTarget] returns an address or stops on the assertion. *)
Lemma getJumpTarget_cases (v : Value) :
  (exists a, getJumpTarget v = Done a) \/ getJumpTarget v = AssertFail.
Proof.
  destruct v as [bits val| | |]; simpl; eauto.
  unfold getZExtValue. destruct (getActiveBits bits val <=? 64); simpl; eauto.
Qed.

(** C6, as the code has it. For a value that is no constant integer
    [getJumpTarget] returns the undefined address. For a constant integer
    whose unsigned value is below [2 ^ 64], as that of every constant of up
    to 64 bits is, it returns that value as a defined address. For a
    constant with more than 64 active bits it does not return: the
    assertion of [getZExtValue] fails. So whenever [getJumpTarget] returns,
    the address is defined exactly when the value is a constant integer. *)
Theorem getJumpTarget_constant_int (v : Value) :
  (forall a, getJumpTarget v = Done a -> (isDefined a = true <-> isConstantInt v = true))
  /\ (isConstantInt v = false -> getJumpTarget v = Done getUndef)
  /\ (forall bits val, v = ConstantInt bits val ->
        (val mod 2 ^ Z.of_N bits < 2 ^ 64 ->
         getJumpTarget v = Done (Some (val mod 2 ^ Z.of_N bits)))
        /\ ((bits <= 64)%N ->
            getJumpTarget v = Done (Some (val mod 2 ^ Z.of_N bits)))
        /\ (2 ^ 64 <= val mod 2 ^ Z.of_N bits -> getJumpTarget v = AssertFail)).
Proof.
  split; [|split].
  - intros a. destruct v as [bits val| | |]; simpl; try (intros [= <-]; split; discriminate).
    intros H. bind_inv H. injection H as <-. split; reflexivity.
  - destruct v; simpl; [discriminate|reflexivity..].
  - intros bits val ->. simpl.
    assert (Hfit : val mod 2 ^ Z.of_N bits < 2 ^ 64 ->
                   getZExtValue bits val ≫= (fun a => Done (Some a))
                   = Done (Some (val mod 2 ^ Z.of_N bits))).
    { intros H. rewrite (getZExtValue_fits _ _ H). reflexivity. }
    split; [exact Hfit|]. split.
    + intros Hbits. apply Hfit.
      assert (Hu : 0 <= val mod 2 ^ Z.of_N bits < 2 ^ Z.of_N bits)
        by (apply Z.mod_pos_bound, Z.pow_pos_nonneg; lia).
      assert (Hpow : 2 ^ Z.of_N bits <= 2 ^ 64) by (apply Z.pow_le_mono_r; lia).
      lia.
    + intros H. rewrite (getZExtValue_too_wide _ _ H). reflexivity.
Qed.

Lemma getJumpTarget_constant_int_witness :
  getJumpTarget (ConstantInt 32 (2 ^ 32 + 0x1002)) = Done (Some 0x1002)
  /\ getJumpTarget (ConstantInt 128 0x1002) = Done (Some 0x1002)
  /\ getJumpTarget (ConstantInt 128 (2 ^ 64 + 0x1002)) = AssertFail
  /\ getJumpTarget (UndefValue (IntegerTy 32)) = Done getUndef.
Proof.
  destruct (getJumpTarget_constant_int (ConstantInt 32 (2 ^ 32 + 0x1002)))
    as (_ & _ & H32).
  destruct (getJumpTarget_constant_int (ConstantInt 128 0x1002)) as (_ & _ & H128).
  destruct (getJumpTarget_constant_int (ConstantInt 128 (2 ^ 64 + 0x1002)))
    as (_ & _ & Hwide).
  destruct (getJumpTarget_constant_int (UndefValue (IntegerTy 32))) as (_ & Hother & _).
  split; [|split; [|split]].
  - apply (proj1 (proj2 (H32 32%N (2 ^ 32 + 0x1002) eq_refl))). vm_compute. discriminate.
  - apply (proj1 (H128 128%N 0x1002 eq_refl)). vm_compute. reflexivity.
  - apply (proj2 (proj2 (Hwide 128%N (2 ^ 64 + 0x1002) eq_refl))). vm_compute. discriminate.
  - apply Hother. reflexivity.
Defined.

(** C6, as the spec has it, fails on the 128-bit constant [2 ^ 64]: it is a
    constant integer, yet [getJumpTarget] returns no address for it, defined
    or not. *)
Lemma wide_constant_has_no_jump_target :
  isConstantInt (ConstantInt 128 (2 ^ 64)) = true
  /\ getJumpTarget (ConstantInt 128 (2 ^ 64)) = AssertFail
  /\ ~ (exists a, getJumpTarget (ConstantInt 128 (2 ^ 64)) = Done a /\ isDefined a = true).
Proof.
  assert (H : getJumpTarget (ConstantInt 128 (2 ^ 64)) = AssertFail)
    by (vm_compute; reflexivity).
  split; [reflexivity|]. split; [exact H|].
  intros (a & Ha & _). rewrite H in Ha. discriminate.
Qed.

(** ** The end-address accessors on a null pointer *)

(** C5. On a null pointer [getFunctionEndAddress] and
    [getBasicBlockEndAddress] do not return the undefined address: the
    temporary [Address()] is dropped and the null pointer is dereferenced. *)
Theorem end_address_of_null_dereferences (d : Decoder) :
  getFunctionEndAddress d None = NullDeref
  /\ getBasicBlockEndAddress d None = NullDeref.
Proof. split; reflexivity. Qed.

(** The null pointer does reach [getFunctionEndAddress]: with no function at
    or below [a], [getFunctionContainingAddress] passes on what
    [getFunctionBeforeAddress] found. *)
Lemma getFunctionContainingAddress_no_function_before (d : Decoder) (a : Address) :
  getFunctionBeforeAddress d a = None ->
  getFunctionContainingAddress d a = NullDeref.
Proof. unfold getFunctionContainingAddress. intros ->. reflexivity. Qed.

(** ** The end of [Decoder::run] *)

(** C4. With a configuration and an image [Decoder::run] never returns to
    its caller, whatever the worklist and the module. *)
Theorem run_never_returns conv translateOne getRawSegmentData write init
    (n fuel : nat) (d : Decoder) :
  returns (run conv translateOne getRawSegmentData write init true true n fuel d) = false.
Proof.
  unfold run. simpl.
  destruct (decode _ _ _ _ _ _); try reflexivity. simpl.
  destruct (dumpControFlowToJson _ _); reflexivity.
Qed.

(** Once the worklist is drained and the dump written, the process exits
    with status 1. *)
Lemma run_exits conv translateOne getRawSegmentData write init
    (n fuel : nat) (d d1 : Decoder) (s : string) :
  decode conv translateOne getRawSegmentData n fuel (init d) = Done d1 ->
  dumpControFlowToJson write d1 = Done s ->
  run conv translateOne getRawSegmentData write init true true n fuel d = Exited 1.
Proof. unfold run. simpl. intros -> . simpl. intros ->. reflexivity. Qed.

(** ** Recovery of a call target outside the allowed ranges *)

(** A function indexed at the address: the pseudo call is patched to it. *)
Lemma recover_call_target_function (d : Decoder) (jt : JumpTarget) (a : Z) (f c : nat)
    (e : PseudoEntry) :
  jt_type jt = CONTROL_FLOW_CALL_TARGET ->
  jt_fromInst jt = Some c ->
  addr2fnc d !! a = Some f ->
  pseudoWorklist d !! c = Some e ->
  pe_targetFunction e = None ->
  exists d', recover d jt a = Done d'
    /\ pe_targetFunction <$> (pseudoWorklist d' !! c) = Some (Some f)
    /\ module_ d' = module_ d /\ addr2fnc d' = addr2fnc d.
Proof.
  intros Ht Hc Hf He Hn. unfold recover. rewrite Ht. simpl. rewrite Hf, Hc. simpl.
  unfold setTargetFunction. rewrite He, Hn. simpl.
  eexists. split; [reflexivity|]. simpl. rewrite lookup_insert_eq. auto.
Qed.

(** No function but an instruction at the address: the enclosing function is
    split there, the new function is named after the address and indexed
    with its entry block. The pseudo-call worklist is left as it was. *)
Lemma recover_call_target_split (d : Decoder) (jt : JumpTarget) (a : Z) (ai : InstLoc)
    (m : list Function) :
  jt_type jt = CONTROL_FLOW_CALL_TARGET ->
  addr2fnc d !! a = None ->
  AsmInstruction (module_ d) a = Some ai ->
  splitFunctionOn ai ("function_" +:+ toHexString a) (heap_next d) (S (heap_next d))
    (module_ d) = Done m ->
  exists d', recover d jt a = Done d'
    /\ module_ d' = m
    /\ addr2fnc d' !! a = Some (S (heap_next d))
    /\ fnc2addr d' !! S (heap_next d) = Some a
    /\ addr2bb d' !! a = Some (heap_next d)
    /\ bb2addr d' !! heap_next d = Some a
    /\ pseudoWorklist d' = pseudoWorklist d.
Proof.
  intros Ht Hf Hai Hs. unfold recover. rewrite Ht. simpl. rewrite Hf, Hai. simpl.
  rewrite Hs. simpl. eexists. split; [reflexivity|]. simpl.
  rewrite !lookup_insert_eq. repeat split.
Qed.

(** Neither a function nor an instruction at the address: fatal. *)
Lemma recover_call_target_fatal (d : Decoder) (jt : JumpTarget) (a : Z) :
  jt_type jt = CONTROL_FLOW_CALL_TARGET ->
  addr2fnc d !! a = None ->
  AsmInstruction (module_ d) a = None ->
  recover d jt a = AssertFail.
Proof. intros Ht Hf Hai. unfold recover. rewrite Ht. simpl. rewrite Hf, Hai. reflexivity. Qed.

(** C2. The call at 0x1004 back to 0x1002: when its target is popped the
    bytes at 0x1002 are consumed and no function starts there, so the
    function is split into a new function [function_1002], indexed at
    0x1002 with its entry block. The pseudo call (pointer 5) is never
    patched: once the worklist is drained its target is still unset. *)
Theorem call_target_split_leaves_call_unpatched (conv : end_convention) :
  exists d,
    decode conv ex_callback ex_image 10 10 (ex_start conv) = Done d
    /\ jumpTargets d = []
    /\ addr2fnc d !! 0x1002 = Some 7%nat
    /\ fnc2addr d !! 7%nat = Some 0x1002
    /\ addr2bb d !! 0x1002 = Some 6%nat
    /\ bb2addr d !! 6%nat = Some 0x1002
    /\ front (module_ d) 7 = Some 6%nat
    /\ fn_name <$> getFn (module_ d) 7 = Some "function_1002"
    /\ pseudoWorklist d !! 5%nat = Some (mkPseudo PseudoCall None None None).
Proof.
  destruct conv; eexists; (split; [vm_compute; reflexivity|]);
    repeat split; vm_compute; reflexivity.
Qed.

(** ** Lookups in a module that is being changed *)

Lemma getFn_map (h : Function -> Function) (m : list Function) (f : nat) :
  (forall F, fn_id (h F) = fn_id F) ->
  getFn (List.map h m) f = h <$> getFn m f.
Proof.
  intros Hid. unfold getFn. induction m as [|F m IH]; simpl; [reflexivity|].
  rewrite Hid. destruct (Nat.eqb (fn_id F) f); [reflexivity|exact IH].
Qed.

Lemma getFn_Some (m : list Function) (f : nat) (F : Function) :
  getFn m f = Some F -> fn_id F = f /\ In F m.
Proof.
  unfold getFn. intros H. apply List.find_some in H as [Hin Heq].
  apply Nat.eqb_eq in Heq. auto.
Qed.

Lemma getFn_insert_fn_other (before : option nat) (F : Function) (m : list Function) (g : nat) :
  g <> fn_id F ->
  getFn (insert_fn before F m) g = getFn m g.
Proof.
  intros Hne. assert (HF : Nat.eqb (fn_id F) g = false) by (apply Nat.eqb_neq; congruence).
  destruct before as [b|]; simpl; [|unfold getFn; simpl; rewrite HF; reflexivity].
  unfold getFn. induction m as [|G m IH]; simpl; [rewrite HF; reflexivity|].
  destruct (Nat.eqb (fn_id G) b); simpl.
  - destruct (Nat.eqb (fn_id G) g); [reflexivity|]. rewrite HF. reflexivity.
  - destruct (Nat.eqb (fn_id G) g); [reflexivity|]. exact IH.
Qed.

Lemma getFn_insert_fn_new (before : option nat) (F : Function) (m : list Function) :
  Forall (fun G => fn_id G <> fn_id F) m ->
  getFn (insert_fn before F m) (fn_id F) = Some F.
Proof.
  intros Hall. destruct before as [b|]; simpl;
    [|unfold getFn; simpl; rewrite Nat.eqb_refl; reflexivity].
  unfold getFn. induction Hall as [|G m HG Hall IH]; simpl.
  - rewrite Nat.eqb_refl. reflexivity.
  - assert (HGF : Nat.eqb (fn_id G) (fn_id F) = false) by (apply Nat.eqb_neq; exact HG).
    destruct (Nat.eqb (fn_id G) b); simpl; rewrite HGF; [|exact IH].
    rewrite Nat.eqb_refl. reflexivity.
Qed.

Lemma front_map_blocks (h : Function -> list BasicBlock -> list BasicBlock)
    (m : list Function) (f x : nat) :
  (forall F, keeps_head (h F)) ->
  front m f = Some x ->
  front (List.map (fun F => map_blocks (h F) F) m) f = Some x.
Proof.
  intros Hh. unfold front.
  rewrite (getFn_map (fun F => map_blocks (h F) F)) by reflexivity.
  destruct (getFn m f) as [F|]; simpl; [|discriminate].
  destruct (fn_blocks F) as [|B bs]; simpl; [discriminate|].
  destruct (Hh F B bs) as (B' & bs' & -> & Hid). simpl. congruence.
Qed.

Lemma keeps_head_id : keeps_head (fun bs => bs).
Proof. intros B bs. eauto. Qed.

Lemma front_update_fn (f0 : nat) (h : list BasicBlock -> list BasicBlock)
    (m : list Function) (f x : nat) :
  keeps_head h ->
  front m f = Some x ->
  front (update_fn f0 h m) f = Some x.
Proof.
  intros Hh Hf.
  assert (Heq : update_fn f0 h m
    = List.map (fun F => map_blocks (if Nat.eqb (fn_id F) f0 then h else fun bs => bs) F) m).
  { unfold update_fn. apply List.map_ext. intros F.
    destruct (Nat.eqb (fn_id F) f0); [reflexivity|]. destruct F; reflexivity. }
  rewrite Heq. apply (front_map_blocks (fun F => if Nat.eqb (fn_id F) f0 then h else fun bs => bs)).
  - intros F. destruct (Nat.eqb (fn_id F) f0); [exact Hh|exact keeps_head_id].
  - exact Hf.
Qed.

Lemma front_map_all (h : list BasicBlock -> list BasicBlock) (m : list Function) (f x : nat) :
  keeps_head h ->
  front m f = Some x ->
  front (List.map (map_blocks h) m) f = Some x.
Proof. intros Hh. apply (front_map_blocks (fun _ => h)). intros _. exact Hh. Qed.

Lemma front_insert_fn (before : option nat) (F : Function) (m : list Function) (g : nat) :
  g <> fn_id F ->
  front (insert_fn before F m) g = front m g.
Proof. intros Hne. unfold front. rewrite getFn_insert_fn_other by exact Hne. reflexivity. Qed.

Lemma front_insert_fn_after (before : nat) (F : Function) (m : list Function) (g : nat) :
  g <> fn_id F ->
  front (insert_fn_after before F m) g = front m g.
Proof. apply (front_insert_fn (Some before)). Qed.

Lemma getFn_insert_fn_after_new (before : nat) (F : Function) (m : list Function) :
  Forall (fun G => fn_id G <> fn_id F) m ->
  getFn (insert_fn_after before F m) (fn_id F) = Some F.
Proof. apply (getFn_insert_fn_new (Some before)). Qed.

Lemma keeps_head_insert_bb_after (ia : nat) (nb : BasicBlock) : keeps_head (insert_bb_after ia nb).
Proof. intros B bs. simpl. destruct (Nat.eqb (bb_id B) ia); eauto. Qed.

Lemma keeps_head_append (nb : BasicBlock) : keeps_head (fun bs => bs ++ [nb]).
Proof. intros B bs. simpl. eauto. Qed.

Lemma keeps_head_insert_inst (b pos : nat) (x : AsmInst) : keeps_head (insert_inst b pos x).
Proof. intros B bs. simpl. destruct (Nat.eqb (bb_id B) b); eauto. Qed.

Lemma keeps_head_split_bb (b pos nb : nat) : keeps_head (split_bb b pos nb).
Proof. intros B bs. simpl. destruct (Nat.eqb (bb_id B) b); eauto. Qed.

Lemma keeps_head_cut_at (b pos : nat) : keeps_head (cut_at b pos).
Proof. intros B bs. simpl. destruct (Nat.eqb (bb_id B) b); eauto. Qed.

(** ** Pointers in use lie below the allocator's next pointer *)

Lemma blocks_below_mono (n n' : nat) (bs : list BasicBlock) :
  (n <= n')%nat -> blocks_below n bs -> blocks_below n' bs.
Proof. intros Hle. apply List.Forall_impl. intros B HB. lia. Qed.

Lemma ids_below_mono (n n' : nat) (m : list Function) :
  (n <= n')%nat -> ids_below n m -> ids_below n' m.
Proof.
  intros Hle. apply List.Forall_impl. intros F [HF HB]. split; [lia|].
  eapply blocks_below_mono; eauto.
Qed.

Lemma ids_below_map_blocks (n : nat) (h : Function -> list BasicBlock -> list BasicBlock)
    (m : list Function) :
  (forall F bs, blocks_below n bs -> blocks_below n (h F bs)) ->
  ids_below n m ->
  ids_below n (List.map (fun F => map_blocks (h F) F) m).
Proof.
  intros Hh Hm. unfold ids_below. rewrite Forall_map.
  eapply Forall_impl; [exact Hm|]. intros F [HF HB]. simpl. split; [exact HF|].
  apply Hh. exact HB.
Qed.

Lemma ids_below_update_fn (n f0 : nat) (h : list BasicBlock -> list BasicBlock)
    (m : list Function) :
  (forall bs, blocks_below n bs -> blocks_below n (h bs)) ->
  ids_below n m ->
  ids_below n (update_fn f0 h m).
Proof.
  intros Hh Hm. unfold ids_below, update_fn. rewrite Forall_map.
  eapply Forall_impl; [exact Hm|]. intros F [HF HB].
  destruct (Nat.eqb (fn_id F) f0); simpl; auto.
Qed.

Lemma ids_below_insert_fn (n : nat) (before : option nat) (F : Function) (m : list Function) :
  (fn_id F < n)%nat -> blocks_below n (fn_blocks F) ->
  ids_below n m ->
  ids_below n (insert_fn before F m).
Proof.
  intros HF HB Hm. destruct before as [b|]; simpl; [|constructor; auto].
  induction Hm as [|G m HG Hm IH]; simpl.
  - constructor; [split; assumption|constructor].
  - destruct (Nat.eqb (fn_id G) b).
    + constructor; [exact HG|]. constructor; [split; assumption|exact Hm].
    + constructor; [exact HG|exact IH].
Qed.

Lemma blocks_below_insert_bb_after (n ia : nat) (nb : BasicBlock) (bs : list BasicBlock) :
  (bb_id nb < n)%nat -> blocks_below n bs -> blocks_below n (insert_bb_after ia nb bs).
Proof.
  intros Hnb Hbs. induction Hbs as [|B bs HB Hbs IH]; simpl; [constructor|].
  destruct (Nat.eqb (bb_id B) ia).
  - constructor; [exact HB|]. constructor; [exact Hnb|exact Hbs].
  - constructor; [exact HB|exact IH].
Qed.

Lemma blocks_below_append (n : nat) (nb : BasicBlock) (bs : list BasicBlock) :
  (bb_id nb < n)%nat -> blocks_below n bs -> blocks_below n (bs ++ [nb]).
Proof.
  intros Hnb Hbs. unfold blocks_below. rewrite Forall_app. split; [exact Hbs|].
  constructor; [exact Hnb|constructor].
Qed.

Lemma blocks_below_insert_inst (n b pos : nat) (x : AsmInst) (bs : list BasicBlock) :
  blocks_below n bs -> blocks_below n (insert_inst b pos x bs).
Proof.
  intros Hbs. unfold blocks_below, insert_inst. rewrite Forall_map.
  eapply Forall_impl; [exact Hbs|]. intros B HB. destruct (Nat.eqb (bb_id B) b); exact HB.
Qed.

Lemma blocks_below_split_bb (n b pos nb : nat) (bs : list BasicBlock) :
  (nb < n)%nat -> blocks_below n bs -> blocks_below n (split_bb b pos nb bs).
Proof.
  intros Hnb Hbs. induction Hbs as [|B bs HB Hbs IH]; simpl; [constructor|].
  destruct (Nat.eqb (bb_id B) b).
  - constructor; [exact HB|]. constructor; [exact Hnb|exact Hbs].
  - constructor; [exact HB|exact IH].
Qed.

Lemma blocks_below_cut_at (n b pos : nat) (bs : list BasicBlock) :
  blocks_below n bs -> blocks_below n (cut_at b pos bs).
Proof.
  intros Hbs. induction Hbs as [|B bs HB Hbs IH]; simpl; [constructor|].
  destruct (Nat.eqb (bb_id B) b).
  - constructor; [exact HB|constructor].
  - constructor; [exact HB|exact IH].
Qed.

Lemma blocks_below_suffix_at (n b pos nb : nat) (bs : list BasicBlock) :
  (nb < n)%nat -> blocks_below n bs -> blocks_below n (suffix_at b pos nb bs).
Proof.
  intros Hnb Hbs. induction Hbs as [|B bs HB Hbs IH]; simpl; [constructor|].
  destruct (Nat.eqb (bb_id B) b); [|exact IH].
  constructor; [exact Hnb|exact Hbs].
Qed.

Lemma suffix_at_head (b pos nb : nat) (bs : list BasicBlock) :
  existsb (fun B => Nat.eqb (bb_id B) b) bs = true ->
  bb_id <$> head (suffix_at b pos nb bs) = Some nb.
Proof.
  induction bs as [|B bs IH]; simpl; [discriminate|].
  destruct (Nat.eqb (bb_id B) b); simpl; [reflexivity|exact IH].
Qed.

Lemma front_below (n : nat) (m : list Function) (f x : nat) :
  ids_below n m -> front m f = Some x -> (x < n)%nat.
Proof.
  intros Hm. unfold front. destruct (getFn m f) as [F|] eqn:HF; simpl; [|discriminate].
  apply getFn_Some in HF as [_ Hin].
  unfold ids_below in Hm. rewrite List.Forall_forall in Hm. destruct (Hm F Hin) as [_ HB].
  destruct (fn_blocks F) as [|B bs]; simpl; [discriminate|].
  intros [= <-]. inversion HB; assumption.
Qed.

(** ** The index invariant *)

Lemma grows_refl (d : Decoder) : grows d d.
Proof. constructor; auto. Qed.

Lemma grows_trans (d1 d2 d3 : Decoder) : grows d1 d2 -> grows d2 d3 -> grows d1 d3.
Proof.
  intros [N1 I1 F1 B1 A1 C1 R1] [N2 I2 F2 B2 A2 C2 R2]. constructor.
  - lia.
  - auto.
  - auto.
  - intros b Hb. rewrite B2 by lia. apply B1. exact Hb.
  - congruence.
  - congruence.
  - congruence.
Qed.

Lemma wf_grows (d d' : Decoder) : wf d -> grows d d' -> wf d'.
Proof.
  intros [Hids Hidx] [N I F B A C R]. constructor; [auto|].
  intros a f Hf. rewrite A in Hf. destruct (Hidx a f Hf) as (Hfa & b & Hb & Hba).
  split; [rewrite C; exact Hfa|].
  exists b. split; [auto|]. rewrite B; [exact Hba|].
  eapply front_below; eauto.
Qed.

Lemma grows_alloc (d : Decoder) : grows d (alloc d).2.
Proof.
  constructor; simpl; auto. intros H. eapply ids_below_mono; [|exact H]. lia.
Qed.

Lemma grows_set_pseudoWorklist (w : gmap nat PseudoEntry) (d : Decoder) :
  grows d (set_pseudoWorklist w d).
Proof. constructor; simpl; auto. Qed.

Lemma grows_set_jumpTargets (q : list JumpTarget) (d : Decoder) :
  grows d (set_jumpTargets q d).
Proof. constructor; simpl; auto. Qed.

Lemma wf_set_allowedRanges (rs : list AddressRange) (d : Decoder) :
  wf d -> wf (set_allowedRanges rs d).
Proof. intros [Hids Hidx]. constructor; simpl; auto. Qed.

(** *** [createBasicBlock] *)

Lemma createBasicBlock_grows (d d' : Decoder) (a : Z) (f b : nat) (ia : option nat) :
  createBasicBlock d a f ia = Done (b, d') ->
  grows d d' /\ b = heap_next d /\ bb2addr d' !! b = Some a.
Proof.
  unfold createBasicBlock. simpl. intros H. bind_inv H. injection H as <- <-.
  assert (Hm : (forall g y, front (module_ d) g = Some y -> front x g = Some y)
               /\ (ids_below (heap_next d) (module_ d) -> ids_below (S (heap_next d)) x)).
  { assert (Hnew : (bb_id (mkBB (heap_next d) [] (Some [])) < S (heap_next d))%nat)
      by (simpl; lia).
    assert (Happ : (forall g y, front (module_ d) g = Some y ->
                      front (update_fn f (fun bs => bs ++ [mkBB (heap_next d) [] (Some [])])
                               (module_ d)) g = Some y)
                   /\ (ids_below (heap_next d) (module_ d) ->
                       ids_below (S (heap_next d))
                         (update_fn f (fun bs => bs ++ [mkBB (heap_next d) [] (Some [])])
                            (module_ d)))).
    { split.
      - intros g y. apply front_update_fn, keeps_head_append.
      - intros Hids. apply ids_below_update_fn.
        + intros bs. apply blocks_below_append. exact Hnew.
        + eapply ids_below_mono; [|exact Hids]. lia. }
    destruct ia as [ia|]; [|injection Hx as <-; exact Happ].
    destruct (getNextNode (module_ d) ia) as [nx|]; [|injection Hx as <-; exact Happ].
    destruct (bool_decide _); [|discriminate]. injection Hx as <-. split.
    - intros g y. apply front_update_fn, keeps_head_insert_bb_after.
    - intros Hids. apply ids_below_update_fn.
      + intros bs. apply blocks_below_insert_bb_after. exact Hnew.
      + eapply ids_below_mono; [|exact Hids]. lia. }
  destruct Hm as [Hfront Hids]. split; [|split].
  - constructor; simpl; auto.
    intros b Hb. apply lookup_insert_ne. lia.
  - reflexivity.
  - simpl. apply lookup_insert_eq.
Qed.

(** In a function that has no block yet, the new block is the entry block. *)
Lemma createBasicBlock_front (d d' : Decoder) (a : Z) (f b : nat) (F : Function) :
  getFn (module_ d) f = Some F -> fn_blocks F = [] ->
  createBasicBlock d a f None = Done (b, d') ->
  front (module_ d') f = Some b.
Proof.
  intros HF Hnil. unfold createBasicBlock. simpl. intros [= <- <-]. simpl.
  unfold front, update_fn.
  rewrite (getFn_map (fun F0 => if Nat.eqb (fn_id F0) f then map_blocks _ F0 else F0)).
  - rewrite HF. simpl. apply getFn_Some in HF as [-> _]. rewrite Nat.eqb_refl. simpl.
    rewrite Hnil. reflexivity.
  - intros F0. destruct (Nat.eqb (fn_id F0) f); reflexivity.
Qed.

#[local] Opaque createBasicBlock.

(** *** [createFunction] *)

Lemma front_defined_below (n : nat) (m : list Function) (g x : nat) :
  ids_below n m -> front m g = Some x -> (g < n)%nat.
Proof.
  intros Hm. unfold front. destruct (getFn m g) as [F|] eqn:HF; simpl; [|discriminate].
  intros _. apply getFn_Some in HF as [<- Hin].
  unfold ids_below in Hm. rewrite List.Forall_forall in Hm. apply (Hm F Hin).
Qed.

Lemma insert_fn_grows (d : Decoder) (before : option nat) (n : string) :
  ids_below (heap_next d) (module_ d) ->
  grows d (set_module (insert_fn before (mkFn (heap_next d) n []) (module_ d)) (alloc d).2).
Proof.
  intros Hids. constructor; simpl; auto.
  - intros _. apply ids_below_insert_fn; simpl; [lia|constructor|].
    eapply ids_below_mono; [|exact Hids]. lia.
  - intros g x Hg. rewrite front_insert_fn; [exact Hg|]. simpl.
    pose proof (front_defined_below _ _ _ _ Hids Hg). lia.
Qed.

Lemma getFn_fresh (d : Decoder) (before : option nat) (n : string) :
  ids_below (heap_next d) (module_ d) ->
  getFn (insert_fn before (mkFn (heap_next d) n []) (module_ d)) (heap_next d)
  = Some (mkFn (heap_next d) n []).
Proof.
  intros Hids. apply (getFn_insert_fn_new before (mkFn (heap_next d) n [])).
  eapply List.Forall_impl; [|exact Hids]. simpl. intros G [HG _]. lia.
Qed.

(** A function of the index is a function of the module. *)
Lemma indexed_below (d : Decoder) (a : Z) (f : nat) :
  wf d -> addr2fnc d !! a = Some f -> (f < heap_next d)%nat.
Proof.
  intros Hwf Hf. destruct (wf_index _ Hwf a f Hf) as (_ & b & Hb & _).
  eapply front_defined_below; [apply (wf_ids _ Hwf)|exact Hb].
Qed.

Lemma index_fnc_wf (d d0 : Decoder) (a : Z) (f b : nat) :
  wf d0 -> grows d0 d ->
  (heap_next d0 <= f)%nat ->
  front (module_ d) f = Some b -> bb2addr d !! b = Some a ->
  wf (index_fnc a f d).
Proof.
  intros Hwf Hgr Hfresh Hfront Hb. pose proof (wf_grows _ _ Hwf Hgr) as [Hids Hidx].
  constructor; simpl; [exact Hids|].
  intros a' f'. destruct (decide (a = a')) as [<-|Hne].
  - rewrite lookup_insert_eq. intros [= <-]. rewrite lookup_insert_eq. eauto.
  - rewrite lookup_insert_ne by exact Hne. intros Hf.
    assert (Hlt : (f' < heap_next d0)%nat).
    { apply (indexed_below d0 a'); [exact Hwf|].
      rewrite <- (gr_addr2fnc _ _ Hgr). exact Hf. }
    rewrite lookup_insert_ne by lia. apply Hidx, Hf.
Qed.

Lemma createFunction_wf (d d' : Decoder) (a : Z) (name : string) (f : nat) :
  wf d -> createFunction d a name = Done (f, d') -> wf d'.
Proof.
  intros Hwf. unfold createFunction. simpl. intros H. bind_inv H.
  destruct (bool_decide (module_ d = [])); [discriminate|]. injection Hx as <-.
  bind_inv H. destruct x as [b d2].
  destruct (bool_decide (is_Some (addr2fnc d2 !! a))); [discriminate|].
  injection H as <- <-.
  pose proof (wf_ids _ Hwf) as Hids.
  pose proof (insert_fn_grows d (getFunctionBeforeAddress d (Some a))
                (if bool_decide (name = "") then ("function_" +:+ toHexString a)%string else name)
                Hids) as Hg1.
  destruct (createBasicBlock_grows _ _ _ _ _ _ Hx) as (Hg2 & Hb & Hba).
  eapply index_fnc_wf; [exact Hwf|eapply grows_trans; eassumption|lia| |exact Hba].
  refine (createBasicBlock_front _ _ _ _ _ (mkFn (heap_next d) _ []) _ eq_refl Hx).
  simpl. apply getFn_fresh. exact Hids.
Qed.

Lemma createFunction_next (d d' : Decoder) (a : Z) (name : string) (f : nat) :
  createFunction d a name = Done (f, d') ->
  allowedRanges d' = allowedRanges d /\ pseudoWorklist d' = pseudoWorklist d
  /\ jumpTargets d' = jumpTargets d.
Proof.
  intros H. unfold createFunction in H. simpl in H. bind_inv H.
  destruct (bool_decide (module_ d = [])); [discriminate|]. injection Hx as <-.
  bind_inv H. destruct x as [b d2]. apply createBasicBlock_grows in Hx as Hg.
  destruct (bool_decide _) in H; [discriminate|]. injection H as <- <-.
  Transparent createBasicBlock. unfold createBasicBlock in Hx. simpl in Hx.
  Opaque createBasicBlock.
  injection Hx as <- <-. simpl. auto.
Qed.

#[local] Opaque createFunction.

(** *** The decode loop *)

Lemma getJumpTargetsFromInstruction_grows (d d' : Decoder) (call : nat) (addr : Z)
    (tr : TranslationResultOne) (bbEnd : bool) :
  getJumpTargetsFromInstruction d call addr tr = Done (bbEnd, d') -> grows d d'.
Proof.
  unfold getJumpTargetsFromInstruction. intros H.
  destruct (tr_branchCall tr) as [bc|]; [|injection H as <- <-; apply grows_refl].
  destruct (bc_kind bc); do 2 bind_inv H; injection H as <- <-;
    (eapply grows_trans; [apply grows_set_jumpTargets|apply grows_set_pseudoWorklist]).
Qed.

Lemma insert_inst_grows (d : Decoder) (bb pos : nat) (x : AsmInst) :
  grows d (set_module (insert_inst_module bb pos x (module_ (alloc d).2)) (alloc d).2).
Proof.
  constructor; simpl; auto.
  - intros Hids. apply (ids_below_map_blocks _ (fun _ => insert_inst bb pos x)).
    + intros _ bs. apply blocks_below_insert_inst.
    + eapply ids_below_mono; [|exact Hids]. lia.
  - intros g y. apply front_map_all, keeps_head_insert_inst.
Qed.

Lemma translate_loop_grows translateOne (fuel : nat) :
  forall (bb pos : nat) (addr avail : Z) (d d' : Decoder) (addr' : Z),
    translate_loop translateOne fuel bb pos addr avail d = Done (addr', d') ->
    grows d d'.
Proof.
  induction fuel as [|fuel IH]; intros bb pos addr avail d d' addr'; simpl; [discriminate|].
  destruct (tr_failed _ || negb (tr_llvmInsn _)).
  - intros [= _ <-]. apply grows_refl.
  - intros H. bind_inv H. destruct x as [bbEnd d3].
    apply getJumpTargetsFromInstruction_grows in Hx.
    pose proof (insert_inst_grows d bb pos (mkAsmInst (heap_next d) addr)) as Hg.
    simpl in Hg. pose proof (grows_trans _ _ _ Hg Hx) as Hg'.
    destruct bbEnd.
    + injection H as _ <-. exact Hg'.
    + apply IH in H. eapply grows_trans; eassumption.
Qed.

(** *** Recovery *)

Lemma index_both_wf (d0 d : Decoder) (a : Z) (f b : nat) :
  wf d0 -> grows d0 d ->
  front (module_ d) f = Some b -> (heap_next d0 <= b)%nat -> (heap_next d0 <= f)%nat ->
  wf (index_bb a b (index_fnc a f d)).
Proof.
  intros Hwf Hgr Hfront Hb Hfresh. pose proof (wf_grows _ _ Hwf Hgr) as [Hids Hidx].
  constructor; simpl; [exact Hids|].
  intros a' f'. destruct (decide (a = a')) as [<-|Hne].
  - rewrite lookup_insert_eq. intros [= <-]. rewrite lookup_insert_eq.
    split; [reflexivity|]. exists b. split; [exact Hfront|].
    apply lookup_insert_eq.
  - rewrite lookup_insert_ne by exact Hne. intros Hf.
    assert (Hf0 : addr2fnc d0 !! a' = Some f').
    { rewrite <- (gr_addr2fnc _ _ Hgr). exact Hf. }
    pose proof (indexed_below d0 a' f' Hwf Hf0) as Hflt.
    destruct (wf_index _ Hwf a' f' Hf0) as (Hfa & b0 & Hb0 & Hba).
    split; [rewrite lookup_insert_ne by lia; rewrite (gr_fnc2addr _ _ Hgr); exact Hfa|].
    exists b0. split; [apply (gr_front _ _ Hgr); exact Hb0|].
    pose proof (front_below _ _ _ _ (wf_ids _ Hwf) Hb0) as Hlt.
    rewrite lookup_insert_ne by lia.
    rewrite (gr_bb2addr _ _ Hgr) by exact Hlt. exact Hba.
Qed.

Lemma splitFunctionOn_grows (d : Decoder) (ai : InstLoc) (name : string) (m : list Function) :
  ids_below (heap_next d) (module_ d) ->
  splitFunctionOn ai name (heap_next d) (S (heap_next d)) (module_ d) = Done m ->
  grows d (set_module m (alloc (alloc d).2).2)
  /\ front m (S (heap_next d)) = Some (heap_next d).
Proof.
  intros Hids. unfold splitFunctionOn. intros H. bind_inv H. rename x into G.
  apply deref_Done in Hx. injection H as <-.
  apply List.find_some in Hx as [HGin HGb].
  assert (HG : (fn_id G < heap_next d)%nat /\ blocks_below (heap_next d) (fn_blocks G)).
  { unfold ids_below in Hids. rewrite List.Forall_forall in Hids. apply Hids, HGin. }
  assert (Hcut : ids_below (heap_next d)
                   (update_fn (fn_id G) (cut_at (loc_bb ai) (loc_pos ai)) (module_ d))).
  { apply ids_below_update_fn; [|exact Hids]. intros bs. apply blocks_below_cut_at. }
  split.
  - constructor; simpl; auto.
    + intros _. apply (ids_below_insert_fn _ (Some (fn_id G))); simpl.
      * lia.
      * apply blocks_below_suffix_at; [lia|].
        eapply blocks_below_mono; [|apply HG]. lia.
      * eapply ids_below_mono; [|exact Hcut]. lia.
    + intros g y Hg.
      rewrite front_insert_fn_after.
      * apply front_update_fn; [apply keeps_head_cut_at|exact Hg].
      * simpl. pose proof (front_defined_below _ _ _ _ Hids Hg). lia.
  - unfold front.
    rewrite (getFn_insert_fn_after_new (fn_id G)
               (mkFn (S (heap_next d)) name
                  (suffix_at (loc_bb ai) (loc_pos ai) (heap_next d) (fn_blocks G)))).
    + simpl. apply suffix_at_head. exact HGb.
    + eapply List.Forall_impl; [|exact Hcut]. simpl. intros F [HF _]. lia.
Qed.

Lemma makeStart_grows (d : Decoder) (ai : InstLoc) (a : Z) :
  grows d (index_bb a (heap_next d)
             (set_module (makeStart ai (heap_next d) (module_ d)) (alloc d).2)).
Proof.
  constructor; simpl; auto.
  - intros Hids. apply (ids_below_map_blocks _ (fun _ => split_bb (loc_bb ai) (loc_pos ai) (heap_next d))).
    + intros _ bs. apply blocks_below_split_bb. lia.
    + eapply ids_below_mono; [|exact Hids]. lia.
  - intros g y. apply front_map_all, keeps_head_split_bb.
  - intros b Hb. apply lookup_insert_ne. lia.
Qed.

Lemma recover_wf (d d' : Decoder) (jt : JumpTarget) (a : Z) :
  wf d -> recover d jt a = Done d' ->
  wf d' /\ allowedRanges d' = allowedRanges d.
Proof.
  intros Hwf. unfold recover.
  assert (Hgrows : forall d1, grows d d1 -> wf d1 /\ allowedRanges d1 = allowedRanges d).
  { intros d1 Hg. split; [eapply wf_grows; eassumption|apply (gr_allowed _ _ Hg)]. }
  destruct (jt_type jt).
  - intros [= <-]. auto.
  - discriminate.
  - intros H. bind_inv H. destruct (getBasicBlock d (Some a)); [|discriminate].
    bind_inv H. destruct (Nat.eqb _ _); [|discriminate].
    bind_inv H. bind_inv H. injection H as <-.
    apply Hgrows, grows_set_pseudoWorklist.
  - intros H. bind_inv H. destruct (getBasicBlock d (Some a)).
    + bind_inv H. destruct (Nat.eqb _ _); [|discriminate].
      bind_inv H. bind_inv H. injection H as <-.
      apply Hgrows, grows_set_pseudoWorklist.
    + destruct (AsmInstruction (module_ d) a) as [ai|]; [|discriminate].
      destruct (bool_decide _); [|discriminate].
      simpl in H. bind_inv H. bind_inv H. injection H as <-.
      apply Hgrows. eapply grows_trans; [apply (makeStart_grows d ai a)|].
      apply grows_set_pseudoWorklist.
  - destruct (getFunction d (Some a)) as [f|] eqn:Hf.
    + intros H. bind_inv H. bind_inv H. injection H as <-.
      apply Hgrows, grows_set_pseudoWorklist.
    + destruct (AsmInstruction (module_ d) a) as [ai|]; [|discriminate].
      simpl. intros H. bind_inv H. injection H as <-.
      destruct (splitFunctionOn_grows d ai _ _ (wf_ids _ Hwf) Hx) as [Hg Hfront].
      split; [|simpl; reflexivity].
      eapply index_both_wf; [exact Hwf|exact Hg|exact Hfront|lia|lia].
  - intros [= <-]. auto.
Qed.

(** *** The builder *)

Lemma wf_set_pseudoWorklist (w : gmap nat PseudoEntry) (d : Decoder) :
  wf d -> wf (set_pseudoWorklist w d).
Proof. intros H. eapply wf_grows; [exact H|apply grows_set_pseudoWorklist]. Qed.

Lemma create_and_patch_wf (d d' : Decoder) (a : Z) (n : string) (i : option nat) (p : Position) :
  ('(f, d1) ← createFunction d a n;
   c ← cast_CallInst i;
   w ← setTargetFunction c f (pseudoWorklist d1);
   p ← at_front d1 f; Done (p, set_pseudoWorklist w d1)) = Done (p, d') ->
  (wf d -> wf d') /\ allowedRanges d' = allowedRanges d.
Proof.
  intros H. bind_inv H. destruct x as [f d1]. do 3 bind_inv H. injection H as _ <-.
  split.
  - intros Hwf. apply wf_set_pseudoWorklist. eapply createFunction_wf; eassumption.
  - simpl. apply (createFunction_next _ _ _ _ _ Hx).
Qed.

Lemma create_block_and_patch_wf (d d1 : Decoder) (a : Z) (f b : nat) (ia : option nat)
    (w : gmap nat PseudoEntry) :
  createBasicBlock d a f ia = Done (b, d1) ->
  (wf d -> wf (set_pseudoWorklist w d1))
  /\ allowedRanges (set_pseudoWorklist w d1) = allowedRanges d.
Proof.
  intros H. apply createBasicBlock_grows in H as (Hg & _ & _). split.
  - intros Hwf. apply wf_set_pseudoWorklist. eapply wf_grows; eassumption.
  - simpl. apply (gr_allowed _ _ Hg).
Qed.

Lemma getIrBuilder_wf (d d' : Decoder) (jt : JumpTarget) (a : Z) (p : Position) :
  getIrBuilder d jt a = Done (p, d') ->
  (wf d -> wf d') /\ allowedRanges d' = allowedRanges d.
Proof.
  unfold getIrBuilder.
  destruct (bool_decide (addr2fnc d = ∅) && bool_decide (jt_type jt = ENTRY_POINT)).
  { intros H. bind_inv H. destruct x as [f d1]. bind_inv H. injection H as _ <-.
    split; [intros Hwf; eapply createFunction_wf; eassumption
           |apply (createFunction_next _ _ _ _ _ Hx)]. }
  destruct (jt_type jt); try discriminate.
  - intros H. do 2 bind_inv H. destruct (_ && _); [discriminate|].
    injection H as _ <-. auto.
  - intros H. do 3 bind_inv H. destruct x1 as [bb d1]. do 2 bind_inv H.
    injection H as _ <-. eapply create_block_and_patch_wf; eassumption.
  - intros H. bind_inv H.
    destruct (getFunctionBeforeAddress d (Some a)) as [targetFnc|].
    + destruct (Nat.eqb targetFnc x).
      * destruct (getBasicBlockBeforeAddress d (Some a)) as [targetBb|]; [|discriminate].
        bind_inv H. destruct x0 as [newBb d1]. do 2 bind_inv H.
        injection H as _ <-. eapply create_block_and_patch_wf; eassumption.
      * destruct (bool_decide _); [discriminate|]. bind_inv H.
        destruct x0; [discriminate|].
        eapply create_and_patch_wf; eassumption.
    + eapply create_and_patch_wf; eassumption.
  - destruct (getFunction d (Some a)); [discriminate|].
    intros H. bind_inv H. destruct x; [discriminate|].
    eapply create_and_patch_wf; eassumption.
Qed.

(** *** One jump target, and the worklist *)

Lemma decodeJumpTarget_wf conv translateOne getRawSegmentData (fuel : nat)
    (d d' : Decoder) (jt : JumpTarget) :
  wf d ->
  decodeJumpTarget conv translateOne getRawSegmentData fuel d jt = Done d' ->
  wf d'.
Proof.
  intros Hwf. unfold decodeJumpTarget.
  destruct (jt_address jt) as [start|]; [|intros [= <-]; exact Hwf].
  destruct (getRange conv (allowedRanges d) start) as [range|].
  - destruct (getRawSegmentData start) as [avail|]; [|intros [= <-]; exact Hwf].
    intros H. bind_inv H. destruct x as [[bb pos] d1].
    bind_inv H. destruct x as [addr d2]. injection H as <-.
    apply wf_set_allowedRanges.
    apply getIrBuilder_wf in Hx as [Hwf1 _].
    apply translate_loop_grows in Hx0. eapply wf_grows; [apply Hwf1, Hwf|exact Hx0].
  - intros H. apply recover_wf in H as [H _]; assumption.
Qed.

Lemma wf_set_jumpTargets (q : list JumpTarget) (d : Decoder) :
  wf d -> wf (set_jumpTargets q d).
Proof. intros H. eapply wf_grows; [exact H|apply grows_set_jumpTargets]. Qed.

Lemma decode_wf conv translateOne getRawSegmentData (n fuel : nat) :
  forall d d' : Decoder,
    wf d ->
    decode conv translateOne getRawSegmentData n fuel d = Done d' ->
    wf d'.
Proof.
  induction fuel as [|fuel IH]; intros d d' Hwf; simpl.
  - destruct (jumpTargets d); [intros [= <-]; exact Hwf|discriminate].
  - destruct (jumpTargets d) as [|jt rest]; [intros [= <-]; exact Hwf|].
    intros H. bind_inv H. apply decodeJumpTarget_wf in Hx; [|apply wf_set_jumpTargets, Hwf].
    eapply IH; eassumption.
Qed.

Lemma decode_prefix_wf conv translateOne getRawSegmentData (n k : nat) :
  forall d d' : Decoder,
    wf d ->
    decode_prefix conv translateOne getRawSegmentData n k d = Done d' ->
    wf d'.
Proof.
  induction k as [|k IH]; intros d d' Hwf; simpl; [intros [= <-]; exact Hwf|].
  destruct (jumpTargets d) as [|jt rest]; [intros [= <-]; exact Hwf|].
  intros H. bind_inv H. apply decodeJumpTarget_wf in Hx; [|apply wf_set_jumpTargets, Hwf].
  eapply IH; eassumption.
Qed.

(** A run of [decode] that ends is one of these prefixes. *)
Lemma decode_is_prefix conv translateOne getRawSegmentData (n fuel : nat) :
  forall d d' : Decoder,
    decode conv translateOne getRawSegmentData n fuel d = Done d' ->
    decode_prefix conv translateOne getRawSegmentData n fuel d = Done d'.
Proof.
  induction fuel as [|fuel IH]; intros d d'; simpl.
  - destruct (jumpTargets d); [auto|discriminate].
  - destruct (jumpTargets d) as [|jt rest]; [auto|].
    intros H. bind_inv H. rewrite Hx. simpl. apply IH. exact H.
Qed.

Lemma front_Some (m : list Function) (f b : nat) :
  front m f = Some b ->
  exists F B bs, getFn m f = Some F /\ fn_blocks F = B :: bs /\ bb_id B = b.
Proof.
  unfold front. destruct (getFn m f) as [F|]; simpl; [|discriminate].
  destruct (fn_blocks F) as [|B bs] eqn:HB; simpl; [discriminate|].
  intros [= <-]. exists F, B, bs. auto.
Qed.

(** C7. Decoding starts with an empty function index, in a module whose
    objects the allocator knows. After any number [k] of rounds of the
    worklist loop, a function [f] that the index holds at address [a] has
    [a] for its address, has at least one basic block, and its first block
    is indexed at [a] as well. *)
Theorem indexed_function_has_entry_block conv translateOne getRawSegmentData
    (n k : nat) (d0 d : Decoder) (a : Z) (f : nat) :
  addr2fnc d0 = ∅ ->
  ids_below (heap_next d0) (module_ d0) ->
  decode_prefix conv translateOne getRawSegmentData n k d0 = Done d ->
  addr2fnc d !! a = Some f ->
  getFunctionAddress d (Some f) = Some a
  /\ exists F B bs,
       getFn (module_ d) f = Some F
       /\ fn_blocks F = B :: bs
       /\ getBasicBlockAddress d (Some (bb_id B)) = Some a.
Proof.
  intros Hempty Hids Hrun Hf.
  assert (Hwf0 : wf d0).
  { constructor; [exact Hids|]. intros a' f'. rewrite Hempty, lookup_empty. discriminate. }
  pose proof (decode_prefix_wf _ _ _ _ _ _ _ Hwf0 Hrun) as Hwf.
  destruct (wf_index _ Hwf a f Hf) as (Hfa & b & Hfront & Hb).
  split; [exact Hfa|].
  destruct (front_Some _ _ _ Hfront) as (F & B & bs & HF & HB & <-).
  exists F, B, bs. auto.
Qed.

Lemma indexed_function_has_entry_block_witness :
  addr2fnc (ex_start Inclusive) = ∅
  /\ ids_below (heap_next (ex_start Inclusive)) (module_ (ex_start Inclusive))
  /\ (exists d,
        decode_prefix Inclusive ex_callback ex_image 10 2 (ex_start Inclusive) = Done d
        /\ addr2fnc d !! 0x1002 = Some 7%nat
        /\ getFunctionAddress d (Some 7%nat) = Some 0x1002
        /\ exists F B bs,
             getFn (module_ d) 7 = Some F
             /\ fn_blocks F = B :: bs
             /\ getBasicBlockAddress d (Some (bb_id B)) = Some 0x1002).
Proof.
  assert (H1 : addr2fnc (ex_start Inclusive) = ∅) by reflexivity.
  assert (H2 : ids_below (heap_next (ex_start Inclusive)) (module_ (ex_start Inclusive))).
  { repeat constructor. }
  split; [exact H1|]. split; [exact H2|].
  eexists. split; [vm_compute; reflexivity|]. split; [vm_compute; reflexivity|].
  eapply (indexed_function_has_entry_block Inclusive ex_callback ex_image 10 2
            (ex_start Inclusive) _ 0x1002 7 H1 H2);
    vm_compute; reflexivity.
Defined.

(** ** The range taken out of the allowed ranges *)

Lemma range_of_limit_start (conv : end_convention) (s l : Z) :
  getStart (range_of_limit conv s l) = s.
Proof. destruct conv; reflexivity. Qed.

Lemma range_of_limit_limit (conv : end_convention) (s l : Z) :
  range_limit conv (range_of_limit conv s l) = l.
Proof. destruct conv; simpl; lia. Qed.

Lemma contains_range_of_limit (conv : end_convention) (s l x : Z) :
  contains conv (range_of_limit conv s l) x = (s <=? x) && (x <? l).
Proof. unfold contains. rewrite range_of_limit_start, range_of_limit_limit. reflexivity. Qed.

Lemma containsAddress_existsb (conv : end_convention) (rs : list AddressRange) (x : Z) :
  containsAddress conv rs x = existsb (fun r => contains conv r x) rs.
Proof.
  unfold containsAddress, getRange. induction rs as [|r rs IH]; simpl; [reflexivity|].
  destruct (contains conv r x); simpl; [reflexivity|exact IH].
Qed.

Lemma contains_subtract (conv : end_convention) (r y : AddressRange) (x : Z) :
  getStart r < range_limit conv r ->
  existsb (fun z => contains conv z x) (subtract conv r y)
  = contains conv y x && negb (contains conv r x).
Proof.
  intros Hr. unfold subtract. rewrite existsb_app.
  assert (H1 : existsb (fun z => contains conv z x)
                 (if getStart y <? Z.min (range_limit conv y) (getStart r)
                  then [range_of_limit conv (getStart y) (Z.min (range_limit conv y) (getStart r))]
                  else [])
               = (getStart y <=? x) && (x <? Z.min (range_limit conv y) (getStart r))).
  { destruct (Z.ltb_spec (getStart y) (Z.min (range_limit conv y) (getStart r))); simpl.
    - rewrite contains_range_of_limit, orb_false_r. reflexivity.
    - symmetry. apply andb_false_iff. rewrite Z.leb_gt, Z.ltb_ge. lia. }
  assert (H2 : existsb (fun z => contains conv z x)
                 (if Z.max (getStart y) (range_limit conv r) <? range_limit conv y
                  then [range_of_limit conv (Z.max (getStart y) (range_limit conv r))
                          (range_limit conv y)]
                  else [])
               = (Z.max (getStart y) (range_limit conv r) <=? x) && (x <? range_limit conv y)).
  { destruct (Z.ltb_spec (Z.max (getStart y) (range_limit conv r)) (range_limit conv y)); simpl.
    - rewrite contains_range_of_limit, orb_false_r. reflexivity.
    - symmetry. apply andb_false_iff. rewrite Z.leb_gt, Z.ltb_ge. lia. }
  rewrite H1, H2. unfold contains.
  destruct (Z.leb_spec (getStart y) x), (Z.ltb_spec x (range_limit conv y)),
           (Z.leb_spec (getStart r) x), (Z.ltb_spec x (range_limit conv r)),
           (Z.ltb_spec x (Z.min (range_limit conv y) (getStart r))),
           (Z.leb_spec (Z.max (getStart y) (range_limit conv r)) x);
    simpl; try reflexivity; lia.
Qed.

(** After [remove], an address is in the container exactly when it was there
    before and the removed range does not cover it. *)
Lemma remove_spec (conv : end_convention) (r : AddressRange) (rs : list AddressRange) (x : Z) :
  containsAddress conv (remove conv r rs) x
  = containsAddress conv rs x && negb (contains conv r x).
Proof.
  rewrite !containsAddress_existsb. unfold remove.
  destruct (Z.leb_spec (range_limit conv r) (getStart r)) as [Hempty|Hr].
  - assert (Hc : contains conv r x = false).
    { unfold contains. apply andb_false_iff. rewrite Z.leb_gt, Z.ltb_ge. lia. }
    rewrite Hc, andb_true_r. reflexivity.
  - induction rs as [|y rs IH]; simpl; [reflexivity|].
    rewrite existsb_app, IH, contains_subtract by exact Hr.
    destruct (contains conv y x), (contains conv r x), (existsb _ rs); reflexivity.
Qed.

(** The addresses that [decRange start addr] covers, under each reading of
    the end of an [AddressRange]. *)
Lemma contains_decRange (conv : end_convention) (start addr x : Z) :
  contains conv (decRange start addr) x
  = match conv with
    | Exclusive => (start <=? x) && (x <? addr - 1)
    | Inclusive => (start <=? x) && (x <? Z.max addr (start + 1))
    end.
Proof.
  unfold contains, decRange.
  destruct conv; simpl; destruct (Z.ltb_spec start addr); simpl;
    destruct (Z.leb_spec start x); simpl; try reflexivity.
  - destruct (Z.ltb_spec x start), (Z.ltb_spec x (addr - 1)); try reflexivity; lia.
  - destruct (Z.ltb_spec x (addr - 1 + 1)), (Z.ltb_spec x (Z.max addr (start + 1)));
      try reflexivity; lia.
  - destruct (Z.ltb_spec x (start + 1)), (Z.ltb_spec x (Z.max addr (start + 1)));
      try reflexivity; lia.
Qed.

(** C3, as the code has it. A jump target decoded from [start], with the
    cursor at [addr] on exit, takes [AddressRange(start, addr - 1)] out of
    the allowed ranges when the cursor moved and [AddressRange(start, start)]
    when it did not: an address is allowed afterwards exactly when it was
    allowed before and that range does not cover it. With the end of a range
    included the range covers [start, addr), and the one address [start]
    when nothing was lifted; read half-open it covers [start, addr - 1). *)
Theorem decodeJumpTarget_removes_decRange conv translateOne getRawSegmentData (fuel : nat)
    (d d1 d2 : Decoder) (jt : JumpTarget) (start avail addr : Z) (range : AddressRange)
    (bb pos : nat) :
  jt_address jt = Some start ->
  getRange conv (allowedRanges d) start = Some range ->
  getRawSegmentData start = Some avail ->
  getIrBuilder d jt start = Done ((bb, pos), d1) ->
  translate_loop translateOne fuel bb pos start
    (if getSize conv range <? avail then getSize conv range else avail) d1 = Done (addr, d2) ->
  exists d',
    decodeJumpTarget conv translateOne getRawSegmentData fuel d jt = Done d'
    /\ allowedRanges d'
       = remove conv (mkRange start (if start <? addr then addr - 1 else start))
           (allowedRanges d)
    /\ (forall x,
          containsAddress conv (allowedRanges d') x
          = containsAddress conv (allowedRanges d) x
            && negb (contains conv
                       (mkRange start (if start <? addr then addr - 1 else start)) x))
    /\ (forall x,
          contains conv (mkRange start (if start <? addr then addr - 1 else start)) x
          = match conv with
            | Exclusive => (start <=? x) && (x <? addr - 1)
            | Inclusive => (start <=? x) && (x <? Z.max addr (start + 1))
            end).
Proof.
  intros Ha Hr Hb Hirb Hloop. unfold decodeJumpTarget. rewrite Ha, Hr, Hb, Hirb. simpl.
  rewrite Hloop. simpl. eexists. split; [reflexivity|]. simpl.
  apply getIrBuilder_wf in Hirb as [_ Hal1].
  apply translate_loop_grows in Hloop. apply gr_allowed in Hloop.
  rewrite Hloop, Hal1. split; [reflexivity|]. split.
  - intros x. apply remove_spec.
  - intros x. apply (contains_decRange conv start addr x).
Qed.

Lemma decodeJumpTarget_removes_decRange_witness :
  exists d',
    decodeJumpTarget Inclusive ex_callback ex_image 10 (ex_popped Inclusive) ex_entry = Done d'
    /\ allowedRanges d'
       = remove Inclusive (mkRange 0x1000 (if 0x1000 <? 0x1009 then 0x1009 - 1 else 0x1000))
           (allowedRanges (ex_popped Inclusive))
    /\ (forall x,
          containsAddress Inclusive (allowedRanges d') x
          = containsAddress Inclusive (allowedRanges (ex_popped Inclusive)) x
            && negb (contains Inclusive
                       (mkRange 0x1000 (if 0x1000 <? 0x1009 then 0x1009 - 1 else 0x1000)) x))
    /\ (forall x,
          contains Inclusive
            (mkRange 0x1000 (if 0x1000 <? 0x1009 then 0x1009 - 1 else 0x1000)) x
          = (0x1000 <=? x) && (x <? Z.max 0x1009 (0x1000 + 1))).
Proof.
  pose (d1 := (from_Done ((0, 0)%nat, ex_popped Inclusive)
                 (getIrBuilder (ex_popped Inclusive) ex_entry 0x1000)).2).
  pose (d2 := (from_Done (0, d1) (translate_loop ex_callback 10 2 0 0x1000 0x2000 d1)).2).
  apply (decodeJumpTarget_removes_decRange Inclusive ex_callback ex_image 10
           (ex_popped Inclusive) d1 d2 ex_entry 0x1000 0x2000 0x1009
           (mkRange 0x1000 0x2fff) 2 0);
    vm_compute; reflexivity.
Defined.

(** With a translator that consumes at least one byte and no more than it
    is given, the decode loop ends within one round per byte. *)
Lemma translate_loop_enough_fuel translateOne :
  (forall a n, tr_failed (translateOne a n) = false ->
               0 < tr_size (translateOne a n) <= n) ->
  forall (fuel bb pos : nat) (addr avail : Z) (d : Decoder),
    (Z.to_nat avail < fuel)%nat ->
    translate_loop translateOne fuel bb pos addr avail d <> Timeout.
Proof.
  intros Htr. induction fuel as [|fuel IH]; intros bb pos addr avail d Hfuel; [lia|].
  simpl. destruct (tr_failed (translateOne addr avail)) eqn:Hfail; simpl; [discriminate|].
  destruct (negb (tr_llvmInsn (translateOne addr avail))); [discriminate|].
  specialize (Htr addr avail Hfail).
  unfold getJumpTargetsFromInstruction.
  destruct (tr_branchCall (translateOne addr avail)) as [bc|]; simpl.
  - unfold getArgOperand.
    destruct (bc_kind bc); simpl;
      match goal with |- context [bc_args bc !! ?i] => destruct (bc_args bc !! i) as [v|] end;
      simpl; try discriminate;
      destruct (getJumpTarget_cases v) as [[t ->]| ->]; simpl; discriminate.
  - apply IH. lia.
Qed.

(** C3, as the spec has it, fails under either reading of the end of an
    [AddressRange]. Read half-open, the run from 0x1000 that stops with the
    cursor at 0x1009 leaves 0x1008, a byte of the call it lifted, allowed.
    Read with the end included, the run that cannot lift anything stops with
    the cursor at 0x1000 and still takes 0x1000 out. *)
Lemma removed_range_is_not_start_to_cursor :
  (exists d1 d2 d',
     getIrBuilder (ex_popped Exclusive) ex_entry 0x1000 = Done ((2, 0)%nat, d1)
     /\ translate_loop ex_callback 10 2 0 0x1000 0x2000 d1 = Done (0x1009, d2)
     /\ decodeJumpTarget Exclusive ex_callback ex_image 10 (ex_popped Exclusive) ex_entry
        = Done d'
     /\ ~ removes_start_to_cursor Exclusive
            (allowedRanges (ex_popped Exclusive)) (allowedRanges d') 0x1000 0x1009)
  /\ (exists d1 d2 d',
        getIrBuilder (ex_popped Inclusive) ex_entry 0x1000 = Done ((2, 0)%nat, d1)
        /\ translate_loop ex_undecodable 10 2 0 0x1000 0x2000 d1 = Done (0x1000, d2)
        /\ decodeJumpTarget Inclusive ex_undecodable ex_image 10 (ex_popped Inclusive) ex_entry
           = Done d'
        /\ ~ removes_start_to_cursor Inclusive
               (allowedRanges (ex_popped Inclusive)) (allowedRanges d') 0x1000 0x1000).
Proof.
  split.
  - pose (d1 := (from_Done ((0, 0)%nat, ex_popped Exclusive)
                   (getIrBuilder (ex_popped Exclusive) ex_entry 0x1000)).2).
    pose (d2 := (from_Done (0, d1) (translate_loop ex_callback 10 2 0 0x1000 0x2000 d1)).2).
    exists d1, d2,
      (from_Done d2 (decodeJumpTarget Exclusive ex_callback ex_image 10
                       (ex_popped Exclusive) ex_entry)).
    split; [vm_compute; reflexivity|]. split; [vm_compute; reflexivity|].
    split; [vm_compute; reflexivity|].
    intros H. specialize (H 0x1008). vm_compute in H. discriminate.
  - pose (d1 := (from_Done ((0, 0)%nat, ex_popped Inclusive)
                   (getIrBuilder (ex_popped Inclusive) ex_entry 0x1000)).2).
    pose (d2 := (from_Done (0, d1) (translate_loop ex_undecodable 10 2 0 0x1000 0x2000 d1)).2).
    exists d1, d2,
      (from_Done d2 (decodeJumpTarget Inclusive ex_undecodable ex_image 10
                       (ex_popped Inclusive) ex_entry)).
    split; [vm_compute; reflexivity|]. split; [vm_compute; reflexivity|].
    split; [vm_compute; reflexivity|].
    intros H. specialize (H 0x1000). vm_compute in H. discriminate.
Qed.

(** The byte window is cut to the size of the whole allowed range, not to
    what is left of it behind the jump target: the run from 0x1004 goes on
    past the end of its range and lifts 0x1008 a second time. *)
Lemma an_address_is_lifted_twice :
  exists d,
    decode Inclusive ex_overrun ex_image 10 10 (ex_start Inclusive) = Done d
    /\ count_occ Z.eq_dec (lifted (module_ d)) 0x1008 = 2%nat.
Proof. eexists. split; vm_compute; reflexivity. Qed.

(** ** The control-flow dump depends on the module only *)

Lemma last_map {A B} (f : A -> B) (l : list A) : last (List.map f l) = f <$> last l.
Proof.
  induction l as [|x l IH]; [reflexivity|]. destruct l as [|y l]; [reflexivity|].
  exact IH.
Qed.

Section DumpPure.
Variable rho : nat -> nat.
Variables d1 d2 : Decoder.
Hypothesis Hsame : same_module rho d1 d2.

Lemma eqb_rho (x y : nat) : Nat.eqb (rho x) (rho y) = Nat.eqb x y.
Proof.
  destruct Hsame as (Hinj & _ & _).
  destruct (Nat.eqb_spec x y) as [->|Hne]; [apply Nat.eqb_refl|].
  apply Nat.eqb_neq. intros H. apply Hne, Hinj, H.
Qed.

Lemma existsb_block_corr (s : nat) (bs1 bs2 : list BasicBlock) :
  Forall2 (bb_corr rho) bs1 bs2 ->
  existsb (fun B => Nat.eqb (bb_id B) (rho s)) bs2
  = existsb (fun B => Nat.eqb (bb_id B) s) bs1.
Proof.
  induction 1 as [|B1 B2 bs1 bs2 (Hid & _ & _) _ IH]; simpl; [reflexivity|].
  rewrite Hid, eqb_rho, IH. reflexivity.
Qed.

Lemma block_address_corr (B1 B2 : BasicBlock) :
  bb_corr rho B1 B2 ->
  getBasicBlockAddress d2 (Some (bb_id B2)) = getBasicBlockAddress d1 (Some (bb_id B1)).
Proof.
  intros (Hid & _ & _). destruct Hsame as (_ & _ & Hbb). simpl. rewrite Hid. apply Hbb.
Qed.

Lemma blockEnd_corr (B1 B2 : BasicBlock) :
  bb_corr rho B1 B2 -> blockEnd d2 B2 = blockEnd d1 B1.
Proof.
  intros HB. pose proof (block_address_corr _ _ HB) as Ha.
  destruct HB as (Hid & Hins & Hterm). unfold blockEnd, getInstructionAddress_back.
  rewrite <- !last_map, Hins.
  assert (He : bb_empty B2 = bb_empty B1).
  { unfold bb_empty. rewrite Hterm.
    destruct (bb_insns B1), (bb_insns B2), (bb_term B1); simpl in *;
      try reflexivity; discriminate. }
  rewrite He, Ha. reflexivity.
Qed.

Lemma first_addressed_corr (c1 c2 : list BasicBlock) :
  Forall2 (bb_corr rho) c1 c2 -> first_addressed d2 c2 = first_addressed d1 c1.
Proof.
  induction 1 as [|B1 B2 c1 c2 HB _ IH]; simpl; [reflexivity|].
  pose proof (block_address_corr _ _ HB) as Ha. simpl in Ha. rewrite Ha.
  destruct (bb2addr d1 !! bb_id B1); [reflexivity|exact IH].
Qed.

Lemma back_from_corr (s : nat) (bs1 bs2 : list BasicBlock) :
  Forall2 (bb_corr rho) bs1 bs2 ->
  forall seen1 seen2, Forall2 (bb_corr rho) seen1 seen2 ->
    match back_from s seen1 bs1, back_from (rho s) seen2 bs2 with
    | Some c1, Some c2 => Forall2 (bb_corr rho) c1 c2
    | None, None => True
    | _, _ => False
    end.
Proof.
  induction 1 as [|B1 B2 bs1 bs2 HB _ IH]; intros seen1 seen2 Hseen; simpl; [exact I|].
  destruct HB as (Hid & Hrest). rewrite Hid, eqb_rho.
  assert (Hc : Forall2 (bb_corr rho) (B1 :: seen1) (B2 :: seen2)).
  { constructor; [split; assumption|exact Hseen]. }
  destruct (Nat.eqb (bb_id B1) s); [exact Hc|]. apply IH, Hc.
Qed.

Lemma find_block_corr (s : nat) (m1 m2 : list Function) :
  Forall2 (fn_corr rho d1 d2) m1 m2 ->
  match List.find (has_block s) m1, List.find (has_block (rho s)) m2 with
  | Some F1, Some F2 => fn_corr rho d1 d2 F1 F2
  | None, None => True
  | _, _ => False
  end.
Proof.
  induction 1 as [|F1 F2 m1 m2 HF _ IH]; simpl; [exact I|].
  assert (Hh : has_block (rho s) F2 = has_block s F1)
    by (apply existsb_block_corr, HF).
  rewrite Hh. destruct (has_block s F1); [exact HF|exact IH].
Qed.

Lemma succ_address_corr (s : nat) : succ_address d2 (rho s) = succ_address d1 s.
Proof.
  unfold succ_address. destruct Hsame as (_ & Hm & _).
  pose proof (find_block_corr s _ _ Hm) as Hfind.
  destruct (List.find (has_block s) (module_ d1)) as [F1|],
           (List.find (has_block (rho s)) (module_ d2)) as [F2|];
    try contradiction; [|reflexivity].
  simpl. destruct Hfind as [_ Hbs].
  pose proof (back_from_corr s _ _ Hbs [] [] (List.Forall2_nil _)) as Hback.
  destruct (back_from s [] (fn_blocks F1)) as [c1|],
           (back_from (rho s) [] (fn_blocks F2)) as [c2|];
    try contradiction; [|reflexivity].
  simpl. apply first_addressed_corr, Hback.
Qed.

Lemma dump_succs_corr (ss : list nat) :
  dump_succs d2 (List.map rho ss) = dump_succs d1 ss.
Proof.
  induction ss as [|s ss IH]; simpl; [reflexivity|].
  rewrite succ_address_corr, IH. reflexivity.
Qed.

Lemma successors_corr (B1 B2 : BasicBlock) :
  bb_corr rho B1 B2 -> successors B2 = List.map rho (successors B1).
Proof.
  intros (_ & _ & Hterm). unfold successors. rewrite Hterm.
  destruct (bb_term B1); reflexivity.
Qed.

Lemma dump_bbs_corr (bs1 bs2 : list BasicBlock) :
  Forall2 (bb_corr rho) bs1 bs2 -> dump_bbs d2 bs2 = dump_bbs d1 bs1.
Proof.
  induction 1 as [|B1 B2 bs1 bs2 HB _ IH]; simpl; [reflexivity|].
  pose proof (block_address_corr _ _ HB) as Ha. simpl in Ha.
  rewrite Ha, (blockEnd_corr _ _ HB), (successors_corr _ _ HB), dump_succs_corr, IH.
  reflexivity.
Qed.

Lemma functionEnd_corr (F1 F2 : Function) :
  fn_corr rho d1 d2 F1 F2 -> functionEnd d2 F2 = functionEnd d1 F1.
Proof.
  intros [Ha Hbs]. unfold functionEnd. simpl. rewrite Ha.
  assert (Hlast : match last (fn_blocks F1), last (fn_blocks F2) with
                  | Some B1, Some B2 => bb_corr rho B1 B2
                  | None, None => True
                  | _, _ => False
                  end).
  { induction Hbs as [|B1 B2 bs1 bs2 HB Hbs IH]; simpl; [exact I|].
    destruct Hbs; [exact HB|exact IH]. }
  destruct (last (fn_blocks F1)) as [B1|], (last (fn_blocks F2)) as [B2|];
    try contradiction; [|reflexivity].
  destruct Hlast as (Hid & Hins & Hterm). unfold getInstructionAddress_back.
  rewrite <- !last_map, Hins.
  assert (He : bb_empty B2 = bb_empty B1).
  { unfold bb_empty. rewrite Hterm.
    destruct (bb_insns B1), (bb_insns B2), (bb_term B1); simpl in *;
      try reflexivity; discriminate. }
  rewrite He. reflexivity.
Qed.

Lemma dump_fncs_corr (m1 m2 : list Function) :
  Forall2 (fn_corr rho d1 d2) m1 m2 -> dump_fncs d2 m2 = dump_fncs d1 m1.
Proof.
  induction 1 as [|F1 F2 m1 m2 HF _ IH]; simpl; [reflexivity|].
  rewrite (functionEnd_corr _ _ HF), IH.
  destruct HF as [Ha Hbs]. rewrite Ha, (dump_bbs_corr _ _ Hbs). reflexivity.
Qed.
End DumpPure.

(** C9. Two decoders that hold the same module (the same functions and
    blocks in the same order, with the same indexed addresses, lifted
    addresses and successor edges, whatever the pointers of the objects)
    dump byte-identical control-flow files. *)
Theorem dump_is_a_function_of_the_module (write : Json -> string) (rho : nat -> nat)
    (d1 d2 : Decoder) :
  same_module rho d1 d2 ->
  dumpControFlowToJson write d2 = dumpControFlowToJson write d1.
Proof.
  intros Hsame. unfold dumpControFlowToJson.
  rewrite (dump_fncs_corr rho d1 d2 Hsame (module_ d1) (module_ d2)); [reflexivity|].
  apply Hsame.
Qed.

Lemma dump_is_a_function_of_the_module_witness :
  same_module (fun n => (n + 10)%nat) ex_dump1 ex_dump2
  /\ dumpControFlowToJson ex_write ex_dump2 = dumpControFlowToJson ex_write ex_dump1.
Proof.
  assert (H : same_module (fun n => (n + 10)%nat) ex_dump1 ex_dump2).
  { split; [intros x y; lia|]. split.
    - repeat constructor.
    - intros b. simpl.
      destruct (decide (b = 2%nat)) as [->|H2]; [reflexivity|].
      destruct (decide (b = 3%nat)) as [->|H3]; [reflexivity|].
      rewrite !lookup_insert_ne by lia. rewrite !lookup_singleton_ne by lia.
      reflexivity. }
  split; [exact H|]. apply (dump_is_a_function_of_the_module ex_write _ _ _ H).
Defined.

(** What the dump of the example looks like. *)
Example dump_of_example :
  dumpControFlowToJson ex_write ex_dump1
  = Done ("[{address:'0x1000',address_end:'0x1004',bbs:[" +:+
          "{address:'0x1000',address_end:'0x1000',succs:['0x1004',],}," +:+
          "{address:'0x1004',address_end:'0x1004',succs:[],},]," +:+
          "code_refs:[],},]")%string.
Proof. vm_compute. reflexivity. Qed.

(** ** The stack pass without a configuration *)

(** C10. Without a configuration [StackAnalysis::run] returns false at
    once: the reaching-definitions analysis is not built, no function is
    visited and the module is as it was. *)
Theorem stack_run_without_config (RDA : Type)
    (RDA_runOnModule : list SFunction -> Config -> RDA)
    (buildTree : RDA -> list (list Instruction) -> Value -> gmap nat Value -> SymbolicTree * bool)
    (simplifyNode : Config -> SymbolicTree -> SymbolicTree)
    (isLlvmToAsmInstruction : Instruction -> bool)
    (dbgf : option DebugFormat) (p : Pass) :
  let r := stack_run RDA RDA_runOnModule buildTree simplifyNode isLlvmToAsmInstruction
             None dbgf p in
  r.1 = false /\ p_module r.2 = p_module p /\ p_log r.2 = p_log p /\ r.2 = p.
Proof. simpl. auto. Qed.

(** With a configuration the analysis is built and the function visited. *)
Example stack_run_with_config :
  p_log (stack_run unit (fun _ _ => tt) ex_buildTree ex_simplifyNode ex_no_anchor
           (Some ex_config) None ex_store_pass).2
  = [EvReachingDefinitions; EvFunction 0].
Proof. vm_compute. reflexivity. Qed.

(** ** The replacement of a store to a scalar slot *)

(** The scalar branch of the third loop puts two stores in front of the
    store it replaces and enters that store twice in the set to erase. *)
Lemma phaseD_step_scalar_store (body : list (list Instruction)) (toErase : list nat)
    (next : nat) (ri : ReplaceItem) (v : Value) :
  inst_op <$> find_inst body (ri_inst ri) = Some (Store v (ri_from ri)) ->
  isAggregateType (al_type (ri_to ri)) = false ->
  typeOf v = al_type (ri_to ri) ->
  phaseD_step (body, toErase, next) ri
  = (insert_before (ri_inst ri) [mkInst (S next) (Store v (alloca_value (ri_to ri)))]
       (insert_before (ri_inst ri) [mkInst next (Store v (alloca_value (ri_to ri)))] body),
     list_union (list_union toErase [ri_inst ri]) [ri_inst ri],
     S (S next)).
Proof.
  intros Hfind Hagg Hty. unfold phaseD_step. rewrite Hfind.
  rewrite bool_decide_eq_true_2 by reflexivity. rewrite Hagg.
  unfold convertValueToType. rewrite bool_decide_eq_true_2 by exact Hty. reflexivity.
Qed.

(** C1. [store i32 7, i32* (sp + 8)]: the pass interns the slot of offset
    8 and rewrites the store. The function ends with two stores of 7 to
    the slot, pointers 6 and 7, where one replacement is due; the original
    store, pointer 4, is erased. *)
Theorem scalar_store_is_replaced_twice :
  let r := runOnFunction unit ex_buildTree ex_simplifyNode ex_no_anchor ex_config None
             tt 0 ex_store_pass in
  let slot := InstValue 5 (PointerTy (IntegerTy 32)) in
  r.1 = true
  /\ p_stackVars r.2 !! (0%nat, 8) = Some (mkAlloca 5 (IntegerTy 32) "stack_var_8")
  /\ stores_to slot (get_body r.2 0)
     = [mkInst 6 (Store (ConstantInt 32 7) slot); mkInst 7 (Store (ConstantInt 32 7) slot)]
  /\ find_inst (get_body r.2 0) 4 = None.
Proof. repeat split; vm_compute; reflexivity. Qed.

(** ** What the first loop records *)

Section PhaseA.
Variable RDA : Type.
Variable buildTree :
  RDA -> list (list Instruction) -> Value -> gmap nat Value -> SymbolicTree * bool.
Variable simplifyNode : Config -> SymbolicTree -> SymbolicTree.
Variable isLlvmToAsmInstruction : Instruction -> bool.
Variable config : Config.
Variable dbgf : option DebugFormat.
Variable rda : RDA.
Variable fnc : nat.

Let handle := handleInstruction RDA buildTree simplifyNode config dbgf rda fnc.
Let stepA :=
  phaseA_step RDA buildTree simplifyNode isLlvmToAsmInstruction config dbgf rda fnc.

(** [handleInstruction] touches the substitution map at its own instruction
    only. *)
Lemma handleInstruction_other (inst : Instruction) (val : Value) (type : Ty)
    (st : Pass * list ReplaceItem * gmap nat Value) (j : nat) :
  inst_id inst <> j ->
  (handle inst val type st).2.2 !! j = st.2 !! j.
Proof.
  intros Hne. destruct st as [[p ris] m]. unfold handle, handleInstruction.
  destruct (buildTree rda (get_body p fnc) val m) as [root used].
  destruct (negb used && _); [reflexivity|].
  destruct (st_value (simplifyNode config root)) as [[bits k| | |]|]; try reflexivity.
  destruct (getStackVariable _ _ _ _ _) as [a p1]. simpl.
  destruct (is_store_of inst val); [|reflexivity].
  apply lookup_insert_ne. exact Hne.
Qed.

Lemma phaseA_step_other (i : Instruction) (st : Pass * list ReplaceItem * gmap nat Value)
    (j : nat) :
  inst_id i <> j -> (stepA st i).2 !! j = st.2 !! j.
Proof.
  intros Hne. unfold stepA, phaseA_step. destruct (inst_op i); try reflexivity.
  destruct (isLlvmToAsmInstruction i); [reflexivity|].
  apply handleInstruction_other. exact Hne.
Qed.

Lemma phaseA_fold_other (l : list Instruction) (j : nat) :
  Forall (fun i => inst_id i <> j) l ->
  forall st, (foldl stepA st l).2 !! j = st.2 !! j.
Proof.
  induction 1 as [|i l Hi _ IH]; intros st; simpl; [reflexivity|].
  rewrite IH. apply phaseA_step_other. exact Hi.
Qed.

(** A store whose tree passes the check and simplifies to a constant is
    entered in the map; one whose tree fails the check leaves the map as it
    is. *)
Lemma handleInstruction_store (s : Instruction) (v ptr : Value)
    (p : Pass) (ris : list ReplaceItem) (m : gmap nat Value)
    (root : SymbolicTree) (used : bool) :
  inst_op s = Store v ptr ->
  buildTree rda (get_body p fnc) v m = (root, used) ->
  (has_stack_pointer config root used = true ->
   forall bits k, st_value (simplifyNode config root) = Some (ConstantInt bits k) ->
     (handle s v (typeOf v) (p, ris, m)).2.2 !! inst_id s = Some (ConstantInt bits k))
  /\ (has_stack_pointer config root used = false ->
      (handle s v (typeOf v) (p, ris, m)).2.2 = m).
Proof.
  intros Hop Hbuild. unfold handle, handleInstruction, has_stack_pointer. rewrite Hbuild.
  split.
  - intros Hguard bits k Hk.
    assert (Hn : negb used
                 && negb (existsb (fun n => from_option (isStackPointerRegister config) false
                                               (st_value n)) (getPostOrder root)) = false).
    { rewrite <- negb_orb, Hguard. reflexivity. }
    rewrite Hn, Hk.
    destruct (getStackVariable _ _ _ _ _) as [a p1]. simpl.
    unfold is_store_of. rewrite Hop, bool_decide_eq_true_2 by reflexivity.
    apply lookup_insert_eq.
  - intros Hguard.
    assert (Hn : negb used
                 && negb (existsb (fun n => from_option (isStackPointerRegister config) false
                                               (st_value n)) (getPostOrder root)) = true).
    { rewrite <- negb_orb, Hguard. reflexivity. }
    rewrite Hn. reflexivity.
Qed.
End PhaseA.

(** C8, as the code has it. In the first loop, a store [s] that is not an
    anchor is recorded with the constant its value operand simplifies to
    when the tree built over that operand holds the stack-pointer register
    or was built with the help of the substitution map. A store whose tree
    has neither is left before the tree is simplified and is not recorded.
    Here [p'], [ris'] and [m'] are the pass, the replace list and the map
    when the loop reaches [s]. *)
Theorem phaseA_records_stack_constants (RDA : Type)
    (buildTree : RDA -> list (list Instruction) -> Value -> gmap nat Value -> SymbolicTree * bool)
    (simplifyNode : Config -> SymbolicTree -> SymbolicTree)
    (isLlvmToAsmInstruction : Instruction -> bool)
    (config : Config) (dbgf : option DebugFormat) (rda : RDA) (fnc : nat) (p : Pass)
    (pre post : list Instruction) (s : Instruction) (v ptr : Value)
    (p' : Pass) (ris' : list ReplaceItem) (m' : gmap nat Value)
    (root : SymbolicTree) (used : bool) :
  concat (get_body p fnc) = pre ++ s :: post ->
  NoDup (List.map inst_id (pre ++ s :: post)) ->
  inst_op s = Store v ptr ->
  isLlvmToAsmInstruction s = false ->
  foldl (phaseA_step RDA buildTree simplifyNode isLlvmToAsmInstruction config dbgf rda fnc)
    (p, [], ∅) pre = (p', ris', m') ->
  buildTree rda (get_body p' fnc) v m' = (root, used) ->
  let val2val :=
    (phaseA RDA buildTree simplifyNode isLlvmToAsmInstruction config dbgf rda fnc p).2 in
  (has_stack_pointer config root used = true ->
   forall bits k, st_value (simplifyNode config root) = Some (ConstantInt bits k) ->
     val2val !! inst_id s = Some (ConstantInt bits k))
  /\ (has_stack_pointer config root used = false -> val2val !! inst_id s = None).
Proof.
  intros Hbody Hnodup Hop Hanchor Hpre Hbuild val2val. subst val2val.
  unfold phaseA. rewrite Hbody, foldl_app. simpl. rewrite Hpre.
  rewrite map_app in Hnodup. simpl in Hnodup.
  apply NoDup_app in Hnodup as (_ & Hpre_s & Hs_post).
  apply NoDup_cons in Hs_post as [Hs_post _].
  assert (Hpost : Forall (fun i => inst_id i <> inst_id s) post).
  { apply List.Forall_forall. intros i Hi Heq. apply Hs_post.
    rewrite <- Heq. apply list_elem_of_In, in_map, Hi. }
  assert (Hprefix : Forall (fun i => inst_id i <> inst_id s) pre).
  { apply List.Forall_forall. intros i Hi Heq. apply (Hpre_s (inst_id i)).
    - apply list_elem_of_In, in_map, Hi.
    - rewrite Heq. left. }
  rewrite phaseA_fold_other by exact Hpost.
  assert (Hstep :
    phaseA_step RDA buildTree simplifyNode isLlvmToAsmInstruction config dbgf rda fnc
      (p', ris', m') s
    = (handleInstruction RDA buildTree simplifyNode config dbgf rda fnc s v (typeOf v)
         (p', ris', m')).2).
  { unfold phaseA_step. rewrite Hop, Hanchor. reflexivity. }
  rewrite Hstep.
  destruct (handleInstruction_store RDA buildTree simplifyNode config dbgf rda fnc
              s v ptr p' ris' m' root used Hop Hbuild) as [Hyes Hno].
  split; [exact Hyes|].
  intros Hguard. rewrite (Hno Hguard).
  pose proof (phaseA_fold_other RDA buildTree simplifyNode isLlvmToAsmInstruction
                config dbgf rda fnc pre (inst_id s) Hprefix (p, [], ∅)) as Hm.
  rewrite Hpre in Hm. simpl in Hm. rewrite Hm. apply lookup_empty.
Qed.

Lemma phaseA_records_stack_constants_witness :
  has_stack_pointer ex_config (ex_build 32 ex_push_fn (InstValue 2 (IntegerTy 32))) false = true
  /\ (phaseA unit ex_buildTree ex_simplifyNode ex_no_anchor ex_config None tt 0 ex_push_pass).2
       !! 3%nat = Some (ConstantInt 32 4294967292).
Proof.
  assert (Hsp : has_stack_pointer ex_config
                  (ex_build 32 ex_push_fn (InstValue 2 (IntegerTy 32))) false = true)
    by (vm_compute; reflexivity).
  split; [exact Hsp|].
  refine (proj1 (phaseA_records_stack_constants unit ex_buildTree ex_simplifyNode ex_no_anchor
                   ex_config None tt 0 ex_push_pass
                   [mkInst 1 (Load ex_sp (IntegerTy 32));
                    mkInst 2 (Add (InstValue 1 (IntegerTy 32)) (ConstantInt 32 (2 ^ 32 - 4))
                                (IntegerTy 32))]
                   []
                   (mkInst 3 (Store (InstValue 2 (IntegerTy 32)) ex_sp))
                   (InstValue 2 (IntegerTy 32)) ex_sp
                   ex_push_pass [] ∅
                   (ex_build 32 ex_push_fn (InstValue 2 (IntegerTy 32))) false
                   _ _ _ _ _ _) Hsp 32%N 4294967292 _);
    try (vm_compute; reflexivity).
  apply (bool_decide_unpack _). vm_compute. exact I.
Defined.

(** C8, as the spec has it, fails on [store i32 7, i32* (sp + 8)]: the store
    is no anchor and the tree over its value operand, the constant 7,
    simplifies to that constant, yet the first loop records nothing for the
    store: no node of the tree is the stack pointer. *)
Lemma constant_store_is_not_recorded :
  let s := mkInst 4 (Store (ConstantInt 32 7) (InstValue 3 (PointerTy (IntegerTy 32)))) in
  In s (concat (get_body ex_store_pass 0))
  /\ ex_no_anchor s = false
  /\ st_value (ex_simplifyNode ex_config
                 (ex_buildTree tt (get_body ex_store_pass 0) (ConstantInt 32 7) ∅).1)
     = Some (ConstantInt 32 7)
  /\ (phaseA unit ex_buildTree ex_simplifyNode ex_no_anchor ex_config None tt 0
        ex_store_pass).2 !! inst_id s = None.
Proof.
  simpl. split; [auto 10|]. split; [reflexivity|].
  split; vm_compute; reflexivity.
Qed.

(** * Further properties of the decoder *)

(** ** The entry before an address *)

Lemma entry_before_fold {V} (a : Z) (l : list (Z * V)) :
  match foldr (fun kv best =>
                 if kv.1 <=? a
                 then match best with
                      | Some b => if b.1 <? kv.1 then Some kv else best
                      | None => Some kv
                      end
                 else best) None l with
  | Some kv => kv ∈ l /\ kv.1 <= a /\ forall kv', kv' ∈ l -> kv'.1 <= a -> kv'.1 <= kv.1
  | None => forall kv', kv' ∈ l -> a < kv'.1
  end.
Proof.
  induction l as [|x l IH]; simpl.
  - intros kv' H. inversion H.
  - destruct (foldr _ None l) as [b|].
    + destruct IH as (Hin & Hle & Hmax).
      destruct (Z.leb_spec x.1 a) as [Hx|Hx].
      * destruct (Z.ltb_spec b.1 x.1) as [Hb|Hb].
        -- split; [left|]. split; [exact Hx|].
           intros kv' [->|H]%elem_of_cons Hk; [lia|]. specialize (Hmax kv' H Hk). lia.
        -- split; [right; exact Hin|]. split; [exact Hle|].
           intros kv' [->|H]%elem_of_cons Hk; [lia|]. apply Hmax; assumption.
      * split; [right; exact Hin|]. split; [exact Hle|].
        intros kv' [->|H]%elem_of_cons Hk; [lia|]. apply Hmax; assumption.
    + destruct (Z.leb_spec x.1 a) as [Hx|Hx].
      * split; [left|]. split; [exact Hx|].
        intros kv' [->|H]%elem_of_cons Hk; [lia|]. specialize (IH kv' H). lia.
      * intros kv' [->|H]%elem_of_cons; [lia|]. apply IH, H.
Qed.

Lemma entry_before_Some {V} (m : gmap Z V) (a k : Z) (v : V) :
  entry_before m a = Some (k, v)
  <-> m !! k = Some v /\ k <= a /\ forall k' v', m !! k' = Some v' -> k' <= a -> k' <= k.
Proof.
  unfold entry_before. pose proof (entry_before_fold a (map_to_list m)) as H.
  split.
  - intros Heq. rewrite Heq in H. destruct H as (Hin & Hle & Hmax).
    apply elem_of_map_to_list in Hin. split; [exact Hin|]. split; [exact Hle|].
    intros k' v' Hk' Hle'. apply (Hmax (k', v')); [|exact Hle'].
    apply elem_of_map_to_list. exact Hk'.
  - intros (Hk & Hle & Hmax).
    destruct (foldr _ None (map_to_list m)) as [[k0 v0]|].
    + destruct H as (Hin & Hle0 & Hmax0). apply elem_of_map_to_list in Hin.
      assert (k0 = k).
      { specialize (Hmax k0 v0 Hin Hle0).
        specialize (Hmax0 (k, v) (proj2 (elem_of_map_to_list m k v) Hk) Hle).
        simpl in *. lia. }
      subst k0. congruence.
    + specialize (H (k, v) (proj2 (elem_of_map_to_list m k v) Hk)). simpl in H. lia.
Qed.

Lemma entry_before_None {V} (m : gmap Z V) (a : Z) :
  entry_before m a = None <-> forall k v, m !! k = Some v -> a < k.
Proof.
  unfold entry_before. pose proof (entry_before_fold a (map_to_list m)) as H.
  split.
  - intros Heq. rewrite Heq in H. intros k v Hk.
    apply (H (k, v)), elem_of_map_to_list, Hk.
  - intros Hall. destruct (foldr _ None (map_to_list m)) as [[k0 v0]|]; [|reflexivity].
    destruct H as (Hin & Hle0 & _). apply elem_of_map_to_list in Hin.
    specialize (Hall k0 v0 Hin). simpl in Hle0. lia.
Qed.

(** X1. [getFunctionBeforeAddress] and [getBasicBlockBeforeAddress] return
    the function (block) indexed at the greatest address that is not above
    [a], and null exactly when every indexed address is above [a]. *)
Theorem before_address_is_greatest_below (d : Decoder) (a : Z) :
  (forall f,
     getFunctionBeforeAddress d (Some a) = Some f
     <-> exists k, addr2fnc d !! k = Some f /\ k <= a
                   /\ forall k' f', addr2fnc d !! k' = Some f' -> k' <= a -> k' <= k)
  /\ (getFunctionBeforeAddress d (Some a) = None
      <-> forall k f, addr2fnc d !! k = Some f -> a < k)
  /\ (forall b,
        getBasicBlockBeforeAddress d (Some a) = Some b
        <-> exists k, addr2bb d !! k = Some b /\ k <= a
                      /\ forall k' b', addr2bb d !! k' = Some b' -> k' <= a -> k' <= k)
  /\ (getBasicBlockBeforeAddress d (Some a) = None
      <-> forall k b, addr2bb d !! k = Some b -> a < k).
Proof.
  assert (Hgen : forall (m : gmap Z nat),
    (forall x, snd <$> entry_before m a = Some x
       <-> exists k, m !! k = Some x /\ k <= a
                     /\ forall k' x', m !! k' = Some x' -> k' <= a -> k' <= k)
    /\ (snd <$> entry_before m a = None <-> forall k x, m !! k = Some x -> a < k)).
  { intros m. split.
    - intros x. split.
      + destruct (entry_before m a) as [[k v]|] eqn:He; simpl; [|discriminate].
        intros [= <-]. exists k. apply entry_before_Some, He.
      + intros (k & Hk). apply entry_before_Some in Hk. rewrite Hk. reflexivity.
    - rewrite <- entry_before_None.
      destruct (entry_before m a); simpl; split; congruence. }
  unfold getFunctionBeforeAddress, getBasicBlockBeforeAddress. simpl.
  destruct (Hgen (addr2fnc d)) as [H1 H2]. destruct (Hgen (addr2bb d)) as [H3 H4].
  auto.
Qed.

(** ** Creating functions and blocks *)

#[local] Transparent createBasicBlock createFunction.

(** X2. [createFunction] returns exactly when the module holds a function
    already and no function is indexed at the address; otherwise one of its
    assertions fails. *)
Theorem createFunction_returns_iff (d : Decoder) (a : Z) (name : string) :
  returns (createFunction d a name) = true
  <-> module_ d <> [] /\ addr2fnc d !! a = None.
Proof.
  unfold createFunction, createBasicBlock. simpl.
  destruct (bool_decide_reflect (module_ d = [])) as [Hm|Hm]; simpl.
  - split; [discriminate|]. intros [H _]. contradiction.
  - destruct (bool_decide_reflect (is_Some (addr2fnc d !! a))) as [Hs|Hs]; simpl.
    + split; [discriminate|]. intros [_ H]. rewrite H in Hs. destruct Hs; discriminate.
    + split; [|reflexivity]. intros _. split; [exact Hm|].
      destruct (addr2fnc d !! a) eqn:E; [|reflexivity]. exfalso. apply Hs. eauto.
Qed.



(** X4. After [createBasicBlock d a f insertAfter] the block it returns is
    what both block indices hold for [a], even when another block was
    indexed at [a] before: that block keeps [a] as its address. Blocks
    indexed at other addresses, the addresses of the other blocks and the
    function indices are as before. *)
Theorem createBasicBlock_round_trip (d d' : Decoder) (a : Z) (f b : nat)
    (insertAfter : option nat) :
  createBasicBlock d a f insertAfter = Done (b, d') ->
  getBasicBlock d' (Some a) = Some b
  /\ getBasicBlockAddress d' (Some b) = Some a
  /\ (forall a', a' <> a -> getBasicBlock d' (Some a') = getBasicBlock d (Some a'))
  /\ (forall b', b' <> b ->
        getBasicBlockAddress d' (Some b') = getBasicBlockAddress d (Some b'))
  /\ addr2fnc d' = addr2fnc d /\ fnc2addr d' = fnc2addr d.
Proof.
  unfold createBasicBlock. simpl. intros H. bind_inv H. injection H as <- <-. simpl.
  rewrite !lookup_insert_eq. split; [reflexivity|]. split; [reflexivity|].
  split; [|split; [|split; reflexivity]].
  - intros a' Hne. apply lookup_insert_ne. congruence.
  - intros b' Hne. apply lookup_insert_ne. congruence.
Qed.

Lemma createBasicBlock_round_trip_witness :
  exists d0 b d',
    createBasicBlock d0 0x1000 1 None = Done (b, d')
    /\ getBasicBlock d0 (Some 0x1000) = Some 2%nat
    /\ getBasicBlock d' (Some 0x1000) = Some b
    /\ getBasicBlockAddress d' (Some b) = Some 0x1000
    /\ getBasicBlockAddress d' (Some 2%nat) = Some 0x1000
    /\ b <> 2%nat.
Proof.
  pose (d0 := (from_Done (0%nat, ex_popped Inclusive)
                 (createFunction (ex_popped Inclusive) 0x1000 "main")).2).
  pose (r := from_Done (0%nat, d0) (createBasicBlock d0 0x1000 1 None)).
  assert (Hrun : createBasicBlock d0 0x1000 1 None = Done (r.1, r.2))
    by (vm_compute; reflexivity).
  destruct (createBasicBlock_round_trip d0 r.2 0x1000 1 r.1 None Hrun)
    as (H1 & H2 & _ & H4 & _).
  assert (Hne : 2%nat <> r.1) by (vm_compute; discriminate).
  exists d0, r.1, r.2. split; [exact Hrun|]. split; [vm_compute; reflexivity|].
  split; [exact H1|]. split; [exact H2|]. split; [|congruence].
  rewrite (H4 2%nat Hne). vm_compute. reflexivity.
Defined.

(** ** The function that contains an address *)

(** X5. [getFunctionContainingAddress] returns a function exactly when it is
    the function before the address and the address lies strictly below the
    function's end address, the address of its last instruction. The end
    address itself is therefore never inside the function. The same holds
    of [getBasicBlockContainingAddress]. *)
Theorem containing_address_is_strict (d : Decoder) (a : Z) :
  (forall f,
     getFunctionContainingAddress d (Some a) = Done (Some f)
     <-> getFunctionBeforeAddress d (Some a) = Some f
         /\ exists F e, getFn (module_ d) f = Some F /\ functionEnd d F = Some e /\ a < e)
  /\ (forall f F, getFn (module_ d) f = Some F -> functionEnd d F = Some a ->
        getFunctionContainingAddress d (Some a) <> Done (Some f))
  /\ (forall b,
        getBasicBlockContainingAddress d (Some a) = Done (Some b)
        <-> getBasicBlockBeforeAddress d (Some a) = Some b
            /\ exists B e, getBB (module_ d) b = Some B /\ blockEnd d B = Some e /\ a < e)
  /\ (forall b B, getBB (module_ d) b = Some B -> blockEnd d B = Some a ->
        getBasicBlockContainingAddress d (Some a) <> Done (Some b)).
Proof.
  assert (HF : forall f,
     getFunctionContainingAddress d (Some a) = Done (Some f)
     <-> getFunctionBeforeAddress d (Some a) = Some f
         /\ exists F e, getFn (module_ d) f = Some F /\ functionEnd d F = Some e /\ a < e).
  { intros f. unfold getFunctionContainingAddress, getFunctionEndAddress.
    destruct (getFunctionBeforeAddress d (Some a)) as [g|]; simpl.
    - destruct (getFn (module_ d) g) as [G|] eqn:HG; simpl.
      + destruct (functionEnd d G) as [e|] eqn:He; simpl.
        * destruct (Z.ltb_spec a e) as [Hlt|Hge]; simpl.
          -- split.
             ++ intros [= <-]. split; [reflexivity|]. exists G, e. auto.
             ++ intros [[= <-] _]. reflexivity.
          -- split; [discriminate|]. intros [[= <-] (F & e' & HF & He' & Hlt)].
             rewrite HG in HF. injection HF as <-. rewrite He in He'. injection He' as <-. lia.
        * split; [discriminate|]. intros [[= <-] (F & e' & HF & He' & _)].
          rewrite HG in HF. injection HF as <-. congruence.
      + split; [discriminate|]. intros [[= <-] (F & e' & HF & _)]. congruence.
    - split; [discriminate|]. intros [H _]. discriminate. }
  assert (HB : forall b,
     getBasicBlockContainingAddress d (Some a) = Done (Some b)
     <-> getBasicBlockBeforeAddress d (Some a) = Some b
         /\ exists B e, getBB (module_ d) b = Some B /\ blockEnd d B = Some e /\ a < e).
  { intros b. unfold getBasicBlockContainingAddress, getBasicBlockEndAddress.
    destruct (getBasicBlockBeforeAddress d (Some a)) as [g|]; simpl.
    - destruct (getBB (module_ d) g) as [G|] eqn:HG; simpl.
      + destruct (blockEnd d G) as [e|] eqn:He; simpl.
        * destruct (Z.ltb_spec a e) as [Hlt|Hge]; simpl.
          -- split.
             ++ intros [= <-]. split; [reflexivity|]. exists G, e. auto.
             ++ intros [[= <-] _]. reflexivity.
          -- split; [discriminate|]. intros [[= <-] (F & e' & HF' & He' & Hlt)].
             rewrite HG in HF'. injection HF' as <-. rewrite He in He'. injection He' as <-.
             lia.
        * split; [discriminate|]. intros [[= <-] (F & e' & HF' & He' & _)].
          rewrite HG in HF'. injection HF' as <-. congruence.
      + split; [discriminate|]. intros [[= <-] (F & e' & HF' & _)]. congruence.
    - split; [discriminate|]. intros [H _]. discriminate. }
  split; [exact HF|]. split; [|split; [exact HB|]].
  - intros f F HFn He Hc. apply HF in Hc as [_ (F' & e & HF' & He' & Hlt)].
    rewrite HFn in HF'. injection HF' as <-. rewrite He in He'. injection He' as <-. lia.
  - intros b B HBn He Hc. apply HB in Hc as [_ (B' & e & HB' & He' & Hlt)].
    rewrite HBn in HB'. injection HB' as <-. rewrite He in He'. injection He' as <-. lia.
Qed.


(** ** The order of the functions in the module *)

Lemma omap_update_fn {B} (phi : nat -> option B) (f0 : nat)
    (h : list BasicBlock -> list BasicBlock) (m : list Function) :
  omap (fun F => phi (fn_id F)) (update_fn f0 h m) = omap (fun F => phi (fn_id F)) m.
Proof.
  unfold update_fn. induction m as [|F m IH]; simpl; [reflexivity|].
  unfold omap in IH. rewrite IH. destruct (Nat.eqb (fn_id F) f0); reflexivity.
Qed.

Lemma omap_old_functions (d : Decoder) (a : Z) (m : list Function) :
  Forall (fun F => (fn_id F < heap_next d)%nat) m ->
  omap (fun F => <[heap_next d := a]> (fnc2addr d) !! fn_id F) m
  = omap (fun F => fnc2addr d !! fn_id F) m.
Proof.
  induction 1 as [|F m HF _ IH]; simpl; [reflexivity|].
  unfold omap in IH. rewrite IH, lookup_insert_ne by lia. reflexivity.
Qed.

Lemma insert_fn_after_split (gid : nat) (F G : Function) (m : list Function) :
  getFn m gid = Some G ->
  exists m1 m2, m = m1 ++ G :: m2 /\ insert_fn_after gid F m = m1 ++ G :: F :: m2.
Proof.
  unfold getFn. induction m as [|H m IH]; simpl; [discriminate|].
  destruct (Nat.eqb (fn_id H) gid).
  - intros [= ->]. exists [], m. auto.
  - intros Hfind. destruct (IH Hfind) as (m1 & m2 & -> & ->). exists (H :: m1), m2. auto.
Qed.

(** X20. [createFunction] keeps the functions of the module in the order
    of their addresses: when the functions that have an address stand in the
    module in strictly ascending order of address, they still do once the new
    function is linked in behind the function before its address, or at the
    front. The addresses of the module are then the old ones and the new
    one. The two function indices agree with each other and every indexed
    function is in the module. *)
Theorem createFunction_keeps_address_order (d d' : Decoder) (a : Z) (name : string)
    (f : nat) :
  ids_below (heap_next d) (module_ d) ->
  (forall g a', fnc2addr d !! g = Some a' -> addr2fnc d !! a' = Some g) ->
  (forall a' g, addr2fnc d !! a' = Some g ->
     fnc2addr d !! g = Some a' /\ is_Some (getFn (module_ d) g)) ->
  StronglySorted Z.lt (fn_addresses d) ->
  createFunction d a name = Done (f, d') ->
  StronglySorted Z.lt (fn_addresses d')
  /\ (forall x, x ∈ fn_addresses d' <-> x = a \/ x ∈ fn_addresses d).
Proof.
  intros Hids Hback Hfwd Hsorted. unfold createFunction, createBasicBlock. simpl.
  destruct (bool_decide (module_ d = [])); simpl; [discriminate|].
  destruct (bool_decide_reflect (is_Some (addr2fnc d !! a))) as [Hs|Hs]; simpl; [discriminate|].
  intros [= <- <-]. unfold fn_addresses in *. simpl.
  assert (Hnone : addr2fnc d !! a = None).
  { destruct (addr2fnc d !! a) eqn:E; [|reflexivity]. exfalso. apply Hs. eauto. }
  assert (Hold : Forall (fun F => (fn_id F < heap_next d)%nat) (module_ d)).
  { eapply List.Forall_impl; [|exact Hids]. simpl. intros G [HG _]. exact HG. }
  assert (Hkey : forall x, x ∈ omap (fun F => fnc2addr d !! fn_id F) (module_ d) ->
                   exists g, addr2fnc d !! x = Some g).
  { intros x Hx. apply list_elem_of_omap in Hx as (F & _ & HF). eauto. }
  rewrite (omap_update_fn (fun g => <[heap_next d := a]> (fnc2addr d) !! g)).
  destruct (entry_before (addr2fnc d) a) as [[k gid]|] eqn:Hbefore; simpl.
  - apply entry_before_Some in Hbefore as (Hk & Hle & Hmax).
    assert (Hlt : k < a).
    { destruct (Z.eq_dec k a) as [->|]; [congruence|lia]. }
    destruct (Hfwd k gid Hk) as [Hgk [G HG]].
    destruct (insert_fn_after_split gid (mkFn (heap_next d) (if bool_decide (name = "")
                 then ("function_" +:+ toHexString a)%string else name) []) G _ HG)
      as (m1 & m2 & Hm & ->).
    rewrite Hm in Hold, Hsorted, Hkey |- *.
    apply Forall_app in Hold as [Hold1 Hold2].
    apply Forall_cons in Hold2 as [HoldG Hold2].
    apply getFn_Some in HG as [HGid _].
    rewrite !omap_app in *. simpl in *.
    rewrite lookup_insert_ne by lia.
    rewrite lookup_insert_eq, !omap_old_functions by assumption.
    rewrite HGid, Hgk in *.
    set (l1 := omap (fun F => fnc2addr d !! fn_id F) m1) in *.
    set (l2 := omap (fun F => fnc2addr d !! fn_id F) m2) in *.
    apply StronglySorted_app in Hsorted as (Hcross & Hs1 & Hs2).
    apply StronglySorted_cons in Hs2 as [Hk2 Hs2].
    assert (Ha2 : Forall (Z.lt a) l2).
    { apply Forall_forall. intros x Hx.
      destruct (Hkey x) as [g Hg]; [apply elem_of_app; right; right; exact Hx|].
      rewrite Forall_forall in Hk2. specialize (Hk2 x Hx).
      destruct (Z.le_gt_cases x a) as [Hxa|Hxa]; [|lia].
      specialize (Hmax x g Hg Hxa). lia. }
    split.
    + apply StronglySorted_app. split; [|split; [exact Hs1|]].
      * intros x1 x2 H1 H2. apply elem_of_cons in H2 as [->|H2].
        -- apply Hcross; [exact H1|left].
        -- apply elem_of_cons in H2 as [->|H2].
           ++ specialize (Hcross x1 k H1 ltac:(left)). lia.
           ++ apply Hcross; [exact H1|right; exact H2].
      * apply StronglySorted_cons. split.
        -- constructor; [exact Hlt|exact Hk2].
        -- apply StronglySorted_cons. auto.
    + intros x. rewrite !elem_of_app, !elem_of_cons. tauto.
  - pose proof (proj1 (entry_before_None (addr2fnc d) a) Hbefore) as Hall.
    rewrite lookup_insert_eq, omap_old_functions by assumption.
    split.
    + apply StronglySorted_cons. split; [|exact Hsorted].
      apply Forall_forall. intros x Hx. destruct (Hkey x Hx) as [g Hg].
      apply (Hall x g Hg).
    + intros x. rewrite elem_of_cons. tauto.
Qed.

Lemma createFunction_keeps_address_order_witness :
  exists d0 f d',
    fn_addresses d0 = [0x2000]
    /\ createFunction d0 0x1000 "main" = Done (f, d')
    /\ fn_addresses d' = [0x1000; 0x2000]
    /\ StronglySorted Z.lt (fn_addresses d').
Proof.
  pose (d0 := (from_Done (0%nat, ex_popped Inclusive)
                 (createFunction (ex_popped Inclusive) 0x2000 "start")).2).
  pose (r := from_Done (0%nat, d0) (createFunction d0 0x1000 "main")).
  assert (Hrun : createFunction d0 0x1000 "main" = Done (r.1, r.2))
    by (vm_compute; reflexivity).
  assert (E1 : fnc2addr d0 = {[1%nat := 0x2000]}) by (vm_compute; reflexivity).
  assert (E2 : addr2fnc d0 = {[0x2000 := 1%nat]}) by (vm_compute; reflexivity).
  assert (E3 : getFn (module_ d0) 1 = Some (mkFn 1 "start" [mkBB 2 [] (Some [])]))
    by (vm_compute; reflexivity).
  assert (E4 : fn_addresses d0 = [0x2000]) by (vm_compute; reflexivity).
  assert (Hids : ids_below (heap_next d0) (module_ d0)).
  { change (ids_below 3 [mkFn 1 "start" [mkBB 2 [] (Some [])]; mkFn 0 "__pseudo_call" []]).
    repeat constructor. }
  exists d0, r.1, r.2. split; [exact E4|]. split; [exact Hrun|].
  split; [vm_compute; reflexivity|].
  apply (createFunction_keeps_address_order d0 r.2 0x1000 "main" r.1).
  - exact Hids.
  - intros g a'. rewrite E1, E2. intros H.
    apply lookup_singleton_Some in H as [<- <-]. apply lookup_singleton_eq.
  - intros a' g. rewrite E1, E2. intros H.
    apply lookup_singleton_Some in H as [<- <-].
    split; [apply lookup_singleton_eq|]. rewrite E3. eauto.
  - rewrite E4. repeat constructor.
  - exact Hrun.
Defined.

(** ** The jump targets an instruction leaves *)

Lemma getArgOperand_Done (bc : BranchCall) (i : nat) (v : Value) :
  getArgOperand bc i = Done v -> bc_args bc !! i = Some v.
Proof. unfold getArgOperand. destruct (bc_args bc !! i); congruence. Qed.

Lemma jt_insert_elem (j x : JumpTarget) (q : list JumpTarget) :
  x ∈ jt_insert j q <-> x = j \/ x ∈ q.
Proof.
  induction q as [|k rest IH]; simpl.
  - rewrite list_elem_of_singleton. split; [auto|]. intros [H|H]; [exact H|]. inversion H.
  - destruct (jt_before j k).
    + rewrite elem_of_cons. reflexivity.
    + rewrite !elem_of_cons, IH. tauto.
Qed.

Lemma jt_push_elem (j x : JumpTarget) (q : list JumpTarget) :
  x ∈ jt_push j q -> x = j \/ x ∈ q.
Proof.
  unfold jt_push. destruct (existsb (jt_same j) q); [auto|]. apply jt_insert_elem.
Qed.

Lemma jt_push_keeps (j x : JumpTarget) (q : list JumpTarget) :
  x ∈ q -> x ∈ jt_push j q.
Proof.
  unfold jt_push. destruct (existsb (jt_same j) q); [auto|].
  intros H. apply jt_insert_elem. auto.
Qed.

Lemma jt_push_queued (j : JumpTarget) (q : list JumpTarget) :
  exists x, x ∈ jt_push j q /\ jt_address x = jt_address j
            /\ jt_type x = jt_type j /\ jt_fromInst x = jt_fromInst j.
Proof.
  unfold jt_push. destruct (existsb (jt_same j) q) eqn:E.
  - apply existsb_exists in E as (x & Hin & Hsame). exists x.
    unfold jt_same in Hsame. apply andb_prop in Hsame as [Hsame H3].
    apply andb_prop in Hsame as [H1 H2].
    apply bool_decide_eq_true in H1, H2, H3.
    split; [apply list_elem_of_In, Hin|]. auto.
  - exists j. split; [apply jt_insert_elem; auto|]. auto.
Qed.

Lemma push_if_defined_elem (t : Address) (k : eType) (m from : nat)
    (q : list JumpTarget) (x : JumpTarget) :
  x ∈ push_if_defined t k m from q ->
  x ∈ q \/ (x = mkJT t k m (Some from) "" /\ isDefined t = true).
Proof.
  unfold push_if_defined. destruct (isDefined t); [|auto].
  intros H. apply jt_push_elem in H as [H|H]; auto.
Qed.

Lemma push_if_defined_keeps (t : Address) (k : eType) (m from : nat)
    (q : list JumpTarget) (x : JumpTarget) :
  x ∈ q -> x ∈ push_if_defined t k m from q.
Proof. unfold push_if_defined. destruct (isDefined t); [apply jt_push_keeps|auto]. Qed.

(** X6. What [getJumpTargetsFromInstruction] does for the instruction lifted
    at [addr] with pseudo call [call]. It ends the basic block exactly when
    the translator handed back a pseudo call, and then registers that call in
    the pseudo worklist under its kind; without one the decoder is left as
    it is. Nothing leaves the queue. A jump target that enters it comes from
    [call], carries the current mode and is either the fall-through at
    [addr + size], queued as CALL_AFTER for a call and as BR_FALSE for a
    conditional branch only, or the target operand (operand 1 of a
    conditional branch, operand 0 otherwise) when that is a constant: its
    address is then the zero-extended value that [getZExtValue] returned.
    The fall-through of a call and of a conditional branch is queued always;
    a return and an unconditional branch queue none. *)
Theorem jump_targets_of_instruction (d d' : Decoder) (call : nat) (addr : Z)
    (tr : TranslationResultOne) (bbEnd : bool) :
  getJumpTargetsFromInstruction d call addr tr = Done (bbEnd, d') ->
  (bbEnd = true <-> is_Some (tr_branchCall tr))
  /\ (tr_branchCall tr = None -> d' = d)
  /\ (forall bc, tr_branchCall tr = Some bc ->
        pseudoWorklist d' = addPseudo (bc_kind bc) call (pseudoWorklist d))
  /\ (forall jt, jt ∈ jumpTargets d -> jt ∈ jumpTargets d')
  /\ (forall jt, jt ∈ jumpTargets d' ->
        jt ∈ jumpTargets d
        \/ (jt_fromInst jt = Some call /\ jt_mode jt = currentMode d
            /\ exists bc, tr_branchCall tr = Some bc
               /\ match bc_kind bc, jt_type jt with
                  | PseudoCall, CONTROL_FLOW_CALL_AFTER
                  | PseudoCondBr, CONTROL_FLOW_BR_FALSE =>
                      jt_address jt = Some (addr + tr_size tr)
                  | PseudoCall, CONTROL_FLOW_CALL_TARGET
                  | PseudoReturn, CONTROL_FLOW_RETURN_TARGET
                  | PseudoBr, CONTROL_FLOW_BR_TRUE =>
                      exists bits v, bc_args bc !! 0%nat = Some (ConstantInt bits v)
                                     /\ getZExtValue bits v = Done (v mod 2 ^ Z.of_N bits)
                                     /\ jt_address jt = Some (v mod 2 ^ Z.of_N bits)
                  | PseudoCondBr, CONTROL_FLOW_BR_TRUE =>
                      exists bits v, bc_args bc !! 1%nat = Some (ConstantInt bits v)
                                     /\ getZExtValue bits v = Done (v mod 2 ^ Z.of_N bits)
                                     /\ jt_address jt = Some (v mod 2 ^ Z.of_N bits)
                  | _, _ => False
                  end))
  /\ (forall bc, tr_branchCall tr = Some bc ->
        bc_kind bc = PseudoCall \/ bc_kind bc = PseudoCondBr ->
        exists jt, jt ∈ jumpTargets d'
          /\ jt_address jt = Some (addr + tr_size tr)
          /\ jt_type jt = match bc_kind bc with
                          | PseudoCall => CONTROL_FLOW_CALL_AFTER
                          | _ => CONTROL_FLOW_BR_FALSE
                          end
          /\ jt_fromInst jt = Some call).
Proof.
  unfold getJumpTargetsFromInstruction.
  destruct (tr_branchCall tr) as [bc|] eqn:Hbc.
  2:{ intros [= <- <-]. split; [split; [discriminate|intros [? ?]; discriminate]|].
      split; [reflexivity|]. split; [discriminate|]. split; [auto|].
      split; [auto|discriminate]. }
  assert (Hconst : forall v t, getJumpTarget v = Done t -> isDefined t = true ->
            exists bits k, v = ConstantInt bits k
                           /\ getZExtValue bits k = Done (k mod 2 ^ Z.of_N bits)
                           /\ t = Some (k mod 2 ^ Z.of_N bits)).
  { intros [bits k| | |] t; simpl; try (intros [= <-]; discriminate).
    intros H _. bind_inv H. injection H as <-.
    destruct (getZExtValue_range _ _ _ Hx) as (-> & _). eauto. }
  intros H.
  destruct (bc_kind bc) eqn:Hk; bind_inv H; rename x into v; apply getArgOperand_Done in Hx;
    bind_inv H; rename x into t; injection H as <- <-; simpl;
    (split; [split; [eauto|reflexivity]|]);
    (split; [discriminate|]);
    (split; [intros bc' [= <-]; rewrite Hk; reflexivity|]).
  - (* call *)
    split; [intros jt Hjt; apply jt_push_keeps, push_if_defined_keeps, Hjt|]. split.
    + intros jt Hjt. apply jt_push_elem in Hjt as [->|Hjt].
      * right. simpl. split; [reflexivity|]. split; [reflexivity|].
        exists bc. split; [reflexivity|]. rewrite Hk. reflexivity.
      * apply push_if_defined_elem in Hjt as [Hjt|[-> Hdef]]; [auto|].
        right. simpl. split; [reflexivity|]. split; [reflexivity|].
        exists bc. split; [reflexivity|]. rewrite Hk.
        destruct (Hconst v t Hx0 Hdef) as (bits & k & -> & Hz & ->). eauto.
    + intros bc' [= <-] _.
      destruct (jt_push_queued
                  (mkJT (Some (addr + tr_size tr)) CONTROL_FLOW_CALL_AFTER (currentMode d)
                     (Some call) "")
                  (push_if_defined t CONTROL_FLOW_CALL_TARGET (currentMode d)
                     call (jumpTargets d))) as (x & Hin & H1 & H2 & H3).
      exists x. rewrite Hk. simpl. auto.
  - (* return *)
    split; [intros jt Hjt; apply push_if_defined_keeps, Hjt|]. split.
    + intros jt Hjt.
      apply push_if_defined_elem in Hjt as [Hjt|[-> Hdef]]; [auto|].
      right. simpl. split; [reflexivity|]. split; [reflexivity|].
      exists bc. split; [reflexivity|]. rewrite Hk.
      destruct (Hconst v t Hx0 Hdef) as (bits & k & -> & Hz & ->). eauto.
    + intros bc' [= <-] [H|H]; congruence.
  - (* unconditional branch *)
    split; [intros jt Hjt; apply push_if_defined_keeps, Hjt|]. split.
    + intros jt Hjt.
      apply push_if_defined_elem in Hjt as [Hjt|[-> Hdef]]; [auto|].
      right. simpl. split; [reflexivity|]. split; [reflexivity|].
      exists bc. split; [reflexivity|]. rewrite Hk.
      destruct (Hconst v t Hx0 Hdef) as (bits & k & -> & Hz & ->). eauto.
    + intros bc' [= <-] [H|H]; congruence.
  - (* conditional branch *)
    split; [intros jt Hjt; apply jt_push_keeps, push_if_defined_keeps, Hjt|]. split.
    + intros jt Hjt. apply jt_push_elem in Hjt as [->|Hjt].
      * right. simpl. split; [reflexivity|]. split; [reflexivity|].
        exists bc. split; [reflexivity|]. rewrite Hk. reflexivity.
      * apply push_if_defined_elem in Hjt as [Hjt|[-> Hdef]]; [auto|].
        right. simpl. split; [reflexivity|]. split; [reflexivity|].
        exists bc. split; [reflexivity|]. rewrite Hk.
        destruct (Hconst v t Hx0 Hdef) as (bits & k & -> & Hz & ->). eauto.
    + intros bc' [= <-] _.
      destruct (jt_push_queued
                  (mkJT (Some (addr + tr_size tr)) CONTROL_FLOW_BR_FALSE (currentMode d)
                     (Some call) "")
                  (push_if_defined t CONTROL_FLOW_BR_TRUE (currentMode d)
                     call (jumpTargets d))) as (x & Hin & H1 & H2 & H3).
      exists x. rewrite Hk. simpl. auto.
Qed.


Lemma jump_targets_of_instruction_witness :
  exists d',
    getJumpTargetsFromInstruction (ex_popped Inclusive) 5 0x1004 (ex_call 0x1002)
    = Done (true, d')
    /\ pseudoWorklist d' = addPseudo PseudoCall 5 (pseudoWorklist (ex_popped Inclusive))
    /\ exists jt, jt ∈ jumpTargets d'
         /\ jt_address jt = Some (0x1004 + 5)
         /\ jt_type jt = CONTROL_FLOW_CALL_AFTER
         /\ jt_fromInst jt = Some 5%nat.
Proof.
  pose (r := from_Done (false, ex_popped Inclusive)
               (getJumpTargetsFromInstruction (ex_popped Inclusive) 5 0x1004 (ex_call 0x1002))).
  assert (Hrun : getJumpTargetsFromInstruction (ex_popped Inclusive) 5 0x1004 (ex_call 0x1002)
                 = Done (true, r.2)) by (vm_compute; reflexivity).
  destruct (jump_targets_of_instruction (ex_popped Inclusive) r.2 5 0x1004 (ex_call 0x1002)
              true Hrun) as (_ & _ & Hw & _ & _ & Hnext).
  exists r.2. split; [exact Hrun|]. split.
  - exact (Hw (mkBranchCall PseudoCall [ConstantInt 32 0x1002]) eq_refl).
  - exact (Hnext (mkBranchCall PseudoCall [ConstantInt 32 0x1002]) eq_refl (or_introl eq_refl)).
Defined.


(** ** One run of the decode loop *)

Lemma getJumpTargetsFromInstruction_effect (d d' : Decoder) (call : nat) (addr : Z)
    (tr : TranslationResultOne) (bbEnd : bool) :
  getJumpTargetsFromInstruction d call addr tr = Done (bbEnd, d') ->
  (bbEnd = false /\ d' = d)
  \/ (bbEnd = true
      /\ exists k q,
           d' = set_pseudoWorklist (addPseudo k call (pseudoWorklist d)) (set_jumpTargets q d)
           /\ (forall jt, jt ∈ jumpTargets d -> jt ∈ q)
           /\ (forall jt, jt ∈ q -> jt ∈ jumpTargets d \/ jt_fromInst jt = Some call)).
Proof.
  unfold getJumpTargetsFromInstruction.
  destruct (tr_branchCall tr) as [bc|]; [|intros [= <- <-]; auto].
  assert (Hp : forall t k m q jt, jt ∈ push_if_defined t k m call q ->
                 jt ∈ q \/ jt_fromInst jt = Some call).
  { intros t k m q jt H. apply push_if_defined_elem in H as [H|[-> _]]; auto. }
  intros H. right.
  destruct (bc_kind bc) eqn:Hk; do 2 bind_inv H; injection H as <- <-;
    (split; [reflexivity|]); eexists _, _; (split; [reflexivity|]); split.
  - intros jt Hjt. apply jt_push_keeps, push_if_defined_keeps, Hjt.
  - intros jt Hjt. apply jt_push_elem in Hjt as [->|Hjt]; [auto|]. eapply Hp, Hjt.
  - intros jt Hjt. apply push_if_defined_keeps, Hjt.
  - intros jt Hjt. eapply Hp, Hjt.
  - intros jt Hjt. apply push_if_defined_keeps, Hjt.
  - intros jt Hjt. eapply Hp, Hjt.
  - intros jt Hjt. apply jt_push_keeps, push_if_defined_keeps, Hjt.
  - intros jt Hjt. apply jt_push_elem in Hjt as [->|Hjt]; [auto|]. eapply Hp, Hjt.
Qed.

(** X7. One run of the do-while loop of [decodeJumpTarget] leaves the four
    address indices and the allowed ranges as they are. It stops at the
    first instruction that comes with a pseudo call: either it registers no
    pseudo call and queues no jump target at all, or it registers exactly
    one, that of the instruction it lifted last, and every jump target it
    queues comes from that call. Nothing leaves the queue. *)
Theorem translate_loop_stops_at_control_flow translateOne (fuel bb pos : nat)
    (addr avail : Z) (d d' : Decoder) (addr' : Z) :
  translate_loop translateOne fuel bb pos addr avail d = Done (addr', d') ->
  (addr2fnc d' = addr2fnc d /\ fnc2addr d' = fnc2addr d
   /\ addr2bb d' = addr2bb d /\ bb2addr d' = bb2addr d
   /\ allowedRanges d' = allowedRanges d)
  /\ (heap_next d <= heap_next d')%nat
  /\ ((pseudoWorklist d' = pseudoWorklist d /\ jumpTargets d' = jumpTargets d)
      \/ (exists k c,
            (heap_next d <= c)%nat /\ heap_next d' = S c
            /\ pseudoWorklist d' = addPseudo k c (pseudoWorklist d)
            /\ (forall jt, jt ∈ jumpTargets d -> jt ∈ jumpTargets d')
            /\ (forall jt, jt ∈ jumpTargets d' ->
                  jt ∈ jumpTargets d \/ jt_fromInst jt = Some c))).
Proof.
  revert bb pos addr avail d d' addr'.
  induction fuel as [|fuel IH]; intros bb pos addr avail d d' addr'; simpl; [discriminate|].
  destruct (tr_failed _ || negb (tr_llvmInsn _)).
  { intros [= _ <-]. repeat split; auto. }
  intros H. bind_inv H. destruct x as [bbEnd d3].
  apply getJumpTargetsFromInstruction_effect in Hx
    as [[-> ->]|(-> & k & q & -> & Hkeep & Hnew)].
  - apply IH in H as ((H1 & H2 & H3 & H4 & H5) & Hn & Hq). simpl in *.
    split; [auto|]. split; [lia|].
    destruct Hq as [[Hw Hj]|(k & c & Hc & Hn' & Hw & Hkeep & Hnew)]; [left; auto|].
    right. exists k, c. split; [lia|]. auto.
  - injection H as _ <-. simpl. split; [auto|]. split; [lia|].
    right. exists k, (heap_next d). split; [lia|]. auto.
Qed.

Lemma translate_loop_stops_at_control_flow_witness :
  exists d1 d2,
    translate_loop ex_callback 10 2 0 0x1000 0x2000 d1 = Done (0x1009, d2)
    /\ (addr2fnc d2 = addr2fnc d1 /\ fnc2addr d2 = fnc2addr d1
        /\ addr2bb d2 = addr2bb d1 /\ bb2addr d2 = bb2addr d1
        /\ allowedRanges d2 = allowedRanges d1)
    /\ (heap_next d1 <= heap_next d2)%nat
    /\ ((pseudoWorklist d2 = pseudoWorklist d1 /\ jumpTargets d2 = jumpTargets d1)
        \/ (exists k c,
              (heap_next d1 <= c)%nat /\ heap_next d2 = S c
              /\ pseudoWorklist d2 = addPseudo k c (pseudoWorklist d1)
              /\ (forall jt, jt ∈ jumpTargets d1 -> jt ∈ jumpTargets d2)
              /\ (forall jt, jt ∈ jumpTargets d2 ->
                    jt ∈ jumpTargets d1 \/ jt_fromInst jt = Some c))).
Proof.
  pose (d1 := (from_Done ((0, 0)%nat, ex_popped Inclusive)
                 (getIrBuilder (ex_popped Inclusive) ex_entry 0x1000)).2).
  pose (d2 := (from_Done (0, d1) (translate_loop ex_callback 10 2 0 0x1000 0x2000 d1)).2).
  assert (Hrun : translate_loop ex_callback 10 2 0 0x1000 0x2000 d1 = Done (0x1009, d2))
    by (vm_compute; reflexivity).
  exists d1, d2. split; [exact Hrun|].
  exact (translate_loop_stops_at_control_flow ex_callback 10 2 0 0x1000 0x2000 d1 d2 0x1009 Hrun).
Defined.


Lemma getJumpTarget_returns (v : Value) :
  (forall bits k, v = ConstantInt bits k -> k mod 2 ^ Z.of_N bits < 2 ^ 64) ->
  exists t, getJumpTarget v = Done t.
Proof.
  destruct v as [bits k| | |]; simpl; eauto.
  intros H. rewrite (getZExtValue_fits bits k (H bits k eq_refl)). simpl. eauto.
Qed.

(** X8. With a translator that consumes at least one byte and no more than
    it is given, and whose pseudo calls carry the operand that is read
    (operand 1 of a conditional branch, operand 0 otherwise), that operand
    being no constant of more than 64 active bits, the decode loop returns
    within one round per byte of its window, and the cursor it returns lies
    inside the window: the loop never goes past the bytes it was handed. *)
Theorem translate_loop_returns_within_window translateOne :
  (forall a n, tr_failed (translateOne a n) = false ->
               0 < tr_size (translateOne a n) <= n) ->
  (forall a n bc, tr_branchCall (translateOne a n) = Some bc ->
     exists v,
       bc_args bc !! match bc_kind bc with PseudoCondBr => 1%nat | _ => 0%nat end = Some v
       /\ forall bits k, v = ConstantInt bits k -> k mod 2 ^ Z.of_N bits < 2 ^ 64) ->
  forall (fuel bb pos : nat) (addr avail : Z) (d : Decoder),
    (Z.to_nat avail < fuel)%nat ->
    exists addr' d',
      translate_loop translateOne fuel bb pos addr avail d = Done (addr', d')
      /\ addr <= addr' <= addr + Z.max 0 avail.
Proof.
  intros Htr Hops. induction fuel as [|fuel IH]; intros bb pos addr avail d Hfuel; [lia|].
  simpl. destruct (tr_failed (translateOne addr avail)) eqn:Hfail; simpl.
  { exists addr, d. split; [reflexivity|lia]. }
  destruct (negb (tr_llvmInsn (translateOne addr avail))).
  { exists addr, d. split; [reflexivity|lia]. }
  specialize (Htr addr avail Hfail). specialize (Hops addr avail).
  unfold getJumpTargetsFromInstruction.
  destruct (tr_branchCall (translateOne addr avail)) as [bc|]; simpl.
  - destruct (Hops bc eq_refl) as (v & Hv & Hfit).
    destruct (getJumpTarget_returns v Hfit) as [t Ht]. unfold getArgOperand.
    destruct (bc_kind bc); rewrite Hv; cbn [mbind obind outcome_bind]; rewrite Ht; simpl;
      eexists _, _; (split; [reflexivity|lia]).
  - destruct (IH bb (S pos) (addr + tr_size (translateOne addr avail))
                (avail - tr_size (translateOne addr avail))
                (set_module
                   (insert_inst_module bb pos (mkAsmInst (heap_next d) addr) (module_ d))
                   (alloc d).2)) as (addr' & d' & Hrun & Hb); [lia|].
    exists addr', d'. split; [exact Hrun|lia].
Qed.

Lemma translate_loop_returns_within_window_witness :
  exists addr' d',
    translate_loop ex_bounded 9 2 0 0x1000 8 (ex_popped Inclusive) = Done (addr', d')
    /\ 0x1000 <= addr' <= 0x1000 + Z.max 0 8.
Proof.
  apply (translate_loop_returns_within_window ex_bounded).
  - intros a n. unfold ex_bounded.
    destruct (Z.ltb_spec n 2); simpl; [discriminate|].
    destruct (a =? 0x1004); simpl; lia.
  - intros a n bc. unfold ex_bounded.
    destruct (n <? 2); simpl; [discriminate|].
    destruct (a =? 0x1004); simpl; [|discriminate].
    intros [= <-]. simpl. eexists. split; [reflexivity|]. discriminate.
  - simpl. lia.
Defined.

(** The bound on the operand is needed: on a branch whose target operand is
    the 128-bit constant [2 ^ 64] the loop stops on the assertion of
    [getZExtValue]. *)
Lemma wide_operand_stops_the_loop :
  translate_loop ex_wide 9 2 0 0x1000 8 (ex_popped Inclusive) = AssertFail.
Proof. vm_compute. reflexivity. Qed.

(** ** The worklist loop as a whole *)

Lemma createFunction_index (d d' : Decoder) (a : Z) (name : string) (f : nat) :
  createFunction d a name = Done (f, d') ->
  addr2fnc d' = <[a := f]> (addr2fnc d) /\ addr2fnc d !! a = None.
Proof.
  unfold createFunction, createBasicBlock. simpl.
  destruct (bool_decide (module_ d = [])); simpl; [discriminate|].
  destruct (bool_decide_reflect (is_Some (addr2fnc d !! a))) as [Hs|Hs]; simpl; [discriminate|].
  intros [= <- <-]. simpl. split; [reflexivity|].
  destruct (addr2fnc d !! a) eqn:E; [|reflexivity]. exfalso. apply Hs. eauto.
Qed.

Lemma createFunction_keeps_index (d d' : Decoder) (a : Z) (name : string) (f : nat) :
  createFunction d a name = Done (f, d') -> addr2fnc d ⊆ addr2fnc d'.
Proof.
  intros H. apply createFunction_index in H as [-> Hnone]. apply insert_subseteq, Hnone.
Qed.

Lemma create_and_patch_index (d d' : Decoder) (a : Z) (n : string) (i : option nat)
    (p : Position) :
  ('(f, d1) ← createFunction d a n;
   c ← cast_CallInst i;
   w ← setTargetFunction c f (pseudoWorklist d1);
   p ← at_front d1 f; Done (p, set_pseudoWorklist w d1)) = Done (p, d') ->
  addr2fnc d ⊆ addr2fnc d'.
Proof.
  intros H. bind_inv H. destruct x as [f d1]. do 3 bind_inv H. injection H as _ <-.
  simpl. eapply createFunction_keeps_index, Hx.
Qed.

Lemma getIrBuilder_index (d d' : Decoder) (jt : JumpTarget) (a : Z) (p : Position) :
  getIrBuilder d jt a = Done (p, d') -> addr2fnc d ⊆ addr2fnc d'.
Proof.
  unfold getIrBuilder.
  assert (Hbb : forall f ia b d1 w, createBasicBlock d a f ia = Done (b, d1) ->
                  addr2fnc d ⊆ addr2fnc (set_pseudoWorklist w d1)).
  { intros f ia b d1 w H. apply createBasicBlock_grows in H as (Hg & _ & _).
    simpl. rewrite (gr_addr2fnc _ _ Hg). reflexivity. }
  destruct (bool_decide (addr2fnc d = ∅) && bool_decide (jt_type jt = ENTRY_POINT)).
  { intros H. bind_inv H. destruct x as [f d1]. bind_inv H. injection H as _ <-.
    eapply createFunction_keeps_index, Hx. }
  destruct (jt_type jt); try discriminate.
  - intros H. do 2 bind_inv H. destruct (_ && _); [discriminate|].
    injection H as _ <-. reflexivity.
  - intros H. do 3 bind_inv H. destruct x1 as [bb d1]. do 2 bind_inv H.
    injection H as _ <-. eapply Hbb, Hx1.
  - intros H. bind_inv H.
    destruct (getFunctionBeforeAddress d (Some a)) as [targetFnc|].
    + destruct (Nat.eqb targetFnc x).
      * destruct (getBasicBlockBeforeAddress d (Some a)) as [targetBb|]; [|discriminate].
        bind_inv H. destruct x0 as [newBb d1]. do 2 bind_inv H.
        injection H as _ <-. eapply Hbb, Hx0.
      * destruct (bool_decide _); [discriminate|]. bind_inv H.
        destruct x0; [discriminate|].
        eapply create_and_patch_index; eassumption.
    + eapply create_and_patch_index; eassumption.
  - destruct (getFunction d (Some a)); [discriminate|].
    intros H. bind_inv H. destruct x; [discriminate|].
    eapply create_and_patch_index; eassumption.
Qed.

Lemma recover_index (d d' : Decoder) (jt : JumpTarget) (a : Z) :
  recover d jt a = Done d' ->
  addr2fnc d ⊆ addr2fnc d' /\ allowedRanges d' = allowedRanges d.
Proof.
  unfold recover.
  assert (Hgrows : forall d1, grows d d1 ->
            addr2fnc d ⊆ addr2fnc d1 /\ allowedRanges d1 = allowedRanges d).
  { intros d1 Hg. rewrite (gr_addr2fnc _ _ Hg), (gr_allowed _ _ Hg). auto. }
  destruct (jt_type jt).
  - intros [= <-]. auto.
  - discriminate.
  - intros H. bind_inv H. destruct (getBasicBlock d (Some a)); [|discriminate].
    bind_inv H. destruct (Nat.eqb _ _); [|discriminate].
    bind_inv H. bind_inv H. injection H as <-.
    apply Hgrows, grows_set_pseudoWorklist.
  - intros H. bind_inv H. destruct (getBasicBlock d (Some a)).
    + bind_inv H. destruct (Nat.eqb _ _); [|discriminate].
      bind_inv H. bind_inv H. injection H as <-.
      apply Hgrows, grows_set_pseudoWorklist.
    + destruct (AsmInstruction (module_ d) a) as [ai|]; [|discriminate].
      destruct (bool_decide _); [|discriminate].
      simpl in H. bind_inv H. bind_inv H. injection H as <-.
      apply Hgrows. eapply grows_trans; [apply (makeStart_grows d ai a)|].
      apply grows_set_pseudoWorklist.
  - destruct (getFunction d (Some a)) as [f|] eqn:Hf.
    + intros H. bind_inv H. bind_inv H. injection H as <-.
      apply Hgrows, grows_set_pseudoWorklist.
    + destruct (AsmInstruction (module_ d) a) as [ai|]; [|discriminate].
      simpl. intros H. bind_inv H. injection H as <-. simpl.
      split; [|reflexivity]. apply insert_subseteq, Hf.
  - intros [= <-]. auto.
Qed.

Lemma decodeJumpTarget_index conv translateOne getRawSegmentData (fuel : nat)
    (d d' : Decoder) (jt : JumpTarget) :
  decodeJumpTarget conv translateOne getRawSegmentData fuel d jt = Done d' ->
  addr2fnc d ⊆ addr2fnc d'
  /\ (forall x, containsAddress conv (allowedRanges d') x = true ->
                containsAddress conv (allowedRanges d) x = true).
Proof.
  unfold decodeJumpTarget.
  destruct (jt_address jt) as [start|]; [|intros [= <-]; auto].
  destruct (getRange conv (allowedRanges d) start) as [range|].
  - destruct (getRawSegmentData start) as [avail|]; [|intros [= <-]; auto].
    intros H. bind_inv H. destruct x as [[bb pos] d1].
    bind_inv H. destruct x as [addr d2]. injection H as <-. simpl.
    pose proof (getIrBuilder_index _ _ _ _ _ Hx) as Hsub.
    apply getIrBuilder_wf in Hx as [_ Hal].
    apply translate_loop_grows in Hx0.
    rewrite (gr_addr2fnc _ _ Hx0), (gr_allowed _ _ Hx0), Hal. split; [exact Hsub|].
    intros x. rewrite remove_spec. intros Hc. apply andb_prop in Hc as [Hc _]. exact Hc.
  - intros H. apply recover_index in H as [Hsub ->]. auto.
Qed.

Lemma decode_prefix_index conv translateOne getRawSegmentData (n k : nat) :
  forall d d' : Decoder,
    decode_prefix conv translateOne getRawSegmentData n k d = Done d' ->
    addr2fnc d ⊆ addr2fnc d'
    /\ (forall x, containsAddress conv (allowedRanges d') x = true ->
                  containsAddress conv (allowedRanges d) x = true).
Proof.
  induction k as [|k IH]; intros d d'; simpl; [intros [= <-]; auto|].
  destruct (jumpTargets d) as [|jt rest]; [intros [= <-]; auto|].
  intros H. bind_inv H. apply decodeJumpTarget_index in Hx as [Hs1 Ha1].
  apply IH in H as [Hs2 Ha2]. simpl in *. split; [etransitivity; eassumption|auto].
Qed.

Lemma decode_drains conv translateOne getRawSegmentData (n fuel : nat) :
  forall d d' : Decoder,
    decode conv translateOne getRawSegmentData n fuel d = Done d' -> jumpTargets d' = [].
Proof.
  induction fuel as [|fuel IH]; intros d d'; simpl.
  - destruct (jumpTargets d) eqn:E; [intros [= <-]; exact E|discriminate].
  - destruct (jumpTargets d) as [|jt rest] eqn:E; [intros [= <-]; exact E|].
    intros H. bind_inv H. eapply IH, H.
Qed.

(** X9. What a run of [decode] that returns leaves behind. The worklist is
    empty. A function that was indexed at an address is indexed there still:
    decoding adds functions to the address index and never drops or re-homes
    one. An address that is allowed afterwards was allowed before: decoding
    only takes addresses out of the allowed ranges. *)
Theorem decode_drains_and_only_grows conv translateOne getRawSegmentData (n fuel : nat)
    (d d' : Decoder) :
  decode conv translateOne getRawSegmentData n fuel d = Done d' ->
  jumpTargets d' = []
  /\ (forall a f, getFunction d (Some a) = Some f -> getFunction d' (Some a) = Some f)
  /\ (forall x, containsAddress conv (allowedRanges d') x = true ->
                containsAddress conv (allowedRanges d) x = true).
Proof.
  intros H. split; [eapply decode_drains, H|].
  apply decode_is_prefix, decode_prefix_index in H as [Hsub Hal]. split; [|exact Hal].
  intros a f. simpl. intros Hf. eapply lookup_weaken; eassumption.
Qed.

Lemma decode_drains_and_only_grows_witness :
  exists d',
    decode Inclusive ex_callback ex_image 10 10 (ex_start Inclusive) = Done d'
    /\ jumpTargets d' = []
    /\ (forall a f, getFunction (ex_start Inclusive) (Some a) = Some f ->
                    getFunction d' (Some a) = Some f)
    /\ (forall x, containsAddress Inclusive (allowedRanges d') x = true ->
                  containsAddress Inclusive (allowedRanges (ex_start Inclusive)) x = true).
Proof.
  pose (d' := from_Done (ex_start Inclusive)
                (decode Inclusive ex_callback ex_image 10 10 (ex_start Inclusive))).
  assert (Hrun : decode Inclusive ex_callback ex_image 10 10 (ex_start Inclusive) = Done d')
    by (vm_compute; reflexivity).
  exists d'. split; [exact Hrun|].
  exact (decode_drains_and_only_grows Inclusive ex_callback ex_image 10 10
           (ex_start Inclusive) d' Hrun).
Defined.


(** ** Where decoding of a jump target starts *)

Lemma createFunction_entry (d d' : Decoder) (a : Z) (name : string) (f : nat) :
  ids_below (heap_next d) (module_ d) ->
  createFunction d a name = Done (f, d') ->
  front (module_ d') f = Some (S (heap_next d))
  /\ addr2bb d' !! a = Some (S (heap_next d))
  /\ bb2addr d' !! S (heap_next d) = Some a.
Proof.
  intros Hids. unfold createFunction, createBasicBlock. simpl.
  destruct (bool_decide (module_ d = [])); simpl; [discriminate|].
  destruct (bool_decide (is_Some (addr2fnc d !! a))); simpl; [discriminate|].
  intros [= <- <-]. simpl. rewrite !lookup_insert_eq. split; [|auto].
  unfold front, update_fn.
  rewrite (getFn_map (fun F => if Nat.eqb (fn_id F) (heap_next d) then _ else F)).
  - rewrite getFn_fresh by exact Hids. simpl. rewrite Nat.eqb_refl. reflexivity.
  - intros F. destruct (Nat.eqb (fn_id F) (heap_next d)); reflexivity.
Qed.

Lemma createBasicBlock_entry (d d' : Decoder) (a : Z) (f b : nat) (ia : option nat) :
  createBasicBlock d a f ia = Done (b, d') ->
  b = heap_next d /\ addr2bb d' !! a = Some b /\ bb2addr d' !! b = Some a.
Proof.
  unfold createBasicBlock. simpl. intros H. bind_inv H. injection H as <- <-. simpl.
  rewrite !lookup_insert_eq. auto.
Qed.

(** X10. Where [getIrBuilder] puts the builder when it returns. It never
    returns for a return target, and for an entry point only while the
    function index is empty. For the address after a call it changes nothing
    and the builder stands right behind the calling instruction, in its
    block. For every other kind the builder stands at the start of a block
    that did not exist before and that both block indices now hold at the
    address of the jump target. *)
Theorem getIrBuilder_position (d d' : Decoder) (jt : JumpTarget) (a : Z) (bb pos : nat) :
  ids_below (heap_next d) (module_ d) ->
  getIrBuilder d jt a = Done ((bb, pos), d') ->
  jt_type jt <> CONTROL_FLOW_RETURN_TARGET
  /\ (jt_type jt = ENTRY_POINT -> addr2fnc d = ∅)
  /\ (jt_type jt = CONTROL_FLOW_CALL_AFTER ->
        d' = d
        /\ exists loc, jt_fromInst jt ≫= locateInst (module_ d) = Some loc
                       /\ bb = loc_bb loc /\ pos = S (loc_pos loc))
  /\ (jt_type jt <> CONTROL_FLOW_CALL_AFTER ->
        pos = O /\ (heap_next d <= bb)%nat
        /\ getBasicBlock d' (Some a) = Some bb
        /\ getBasicBlockAddress d' (Some bb) = Some a).
Proof.
  intros Hids.
  assert (Hcf : forall n f d1 p w,
            createFunction d a n = Done (f, d1) ->
            at_front d1 f = Done p ->
            (p, set_pseudoWorklist w d1) = ((bb, pos), d') ->
            pos = O /\ (heap_next d <= bb)%nat
            /\ getBasicBlock d' (Some a) = Some bb
            /\ getBasicBlockAddress d' (Some bb) = Some a).
  { intros n f d1 p w Hc Hp Heq.
    destruct (createFunction_entry _ _ _ _ _ Hids Hc) as (Hfront & H1 & H2).
    unfold at_front in Hp. rewrite Hfront in Hp. simpl in Hp.
    injection Hp as <-. injection Heq as <- <- <-. simpl.
    split; [reflexivity|]. split; [lia|]. auto. }
  assert (Hpatch : forall n i,
            ('(f, d1) ← createFunction d a n;
             c ← cast_CallInst i;
             w ← setTargetFunction c f (pseudoWorklist d1);
             p ← at_front d1 f; Done (p, set_pseudoWorklist w d1)) = Done ((bb, pos), d') ->
            pos = O /\ (heap_next d <= bb)%nat
            /\ getBasicBlock d' (Some a) = Some bb
            /\ getBasicBlockAddress d' (Some bb) = Some a).
  { intros n i H. bind_inv H. destruct x as [f d1]. do 3 bind_inv H.
    injection H as H H0. eapply (Hcf _ _ _ _ x0); [exact Hx|exact Hx2|].
    rewrite H, H0. reflexivity. }
  assert (Hbb : forall f ia b d1 w,
            createBasicBlock d a f ia = Done (b, d1) ->
            ((b, O), set_pseudoWorklist w d1) = ((bb, pos), d') ->
            pos = O /\ (heap_next d <= bb)%nat
            /\ getBasicBlock d' (Some a) = Some bb
            /\ getBasicBlockAddress d' (Some bb) = Some a).
  { intros f ia b d1 w Hc Heq. apply createBasicBlock_entry in Hc as (Hb & H1 & H2).
    injection Heq as <- <- <-. simpl. split; [reflexivity|]. split; [lia|]. auto. }
  unfold getIrBuilder.
  destruct (bool_decide_reflect (addr2fnc d = ∅)) as [He|He];
    destruct (jt_type jt) eqn:Ht; simpl; try discriminate;
    intros H;
    (split; [discriminate|]);
    (split; [first [intros _; exact He | discriminate]|]);
    (split; [first [discriminate | intros _]
            |first [intros Hne; congruence | intros _]]).
  all: try solve [eapply Hpatch; exact H].
  all: try solve [bind_inv H; destruct x as [f d1]; bind_inv H;
                  eapply (Hcf _ _ _ _ (pseudoWorklist d1)); [exact Hx|exact Hx0|];
                  injection H as <- <-; destruct d1; reflexivity].
  all: try solve [do 2 bind_inv H; destruct (_ && _); [discriminate|];
                  injection H as <- <- <-; split; [reflexivity|];
                  apply deref_Done in Hx; eauto].
  all: try solve [do 3 bind_inv H; destruct x1 as [b d1]; do 2 bind_inv H;
                  eapply Hbb; [exact Hx1|]; injection H as <- <- <-; reflexivity].
  all: try solve [bind_inv H;
                  destruct (snd <$> entry_before (addr2fnc d) a) as [targetFnc|];
                  [|eapply Hpatch; exact H];
                  destruct (Nat.eqb targetFnc x);
                  [destruct (snd <$> entry_before (addr2bb d) a) as [targetBb|];
                     [|discriminate];
                   bind_inv H; destruct x0 as [newBb d1]; do 2 bind_inv H;
                   eapply Hbb; [exact Hx0|]; injection H as <- <- <-; reflexivity
                  |destruct (bool_decide _); [discriminate|]; bind_inv H;
                   destruct x0; [discriminate|]; eapply Hpatch; exact H]].
  all: try solve [destruct (addr2fnc d !! a); [discriminate|];
                  bind_inv H; destruct x; [discriminate|]; eapply Hpatch; exact H].
Qed.


Lemma getIrBuilder_position_witness :
  exists d',
    getIrBuilder (ex_popped Inclusive) ex_entry 0x1000 = Done ((2, 0)%nat, d')
    /\ (jt_type ex_entry = ENTRY_POINT -> addr2fnc (ex_popped Inclusive) = ∅)
    /\ (jt_type ex_entry <> CONTROL_FLOW_CALL_AFTER ->
          0%nat = 0%nat /\ (heap_next (ex_popped Inclusive) <= 2)%nat
          /\ getBasicBlock d' (Some 0x1000) = Some 2%nat
          /\ getBasicBlockAddress d' (Some 2%nat) = Some 0x1000).
Proof.
  pose (d' := (from_Done ((0, 0)%nat, ex_popped Inclusive)
                 (getIrBuilder (ex_popped Inclusive) ex_entry 0x1000)).2).
  assert (Hrun : getIrBuilder (ex_popped Inclusive) ex_entry 0x1000 = Done ((2, 0)%nat, d'))
    by (vm_compute; reflexivity).
  assert (Hids : ids_below (heap_next (ex_popped Inclusive)) (module_ (ex_popped Inclusive)))
    by (repeat constructor).
  destruct (getIrBuilder_position (ex_popped Inclusive) d' ex_entry 0x1000 2 0 Hids Hrun)
    as (_ & H2 & _ & H4).
  exists d'. split; [exact Hrun|]. split; [exact H2|exact H4].
Defined.


(** ** Successors in the control-flow dump *)

Lemma back_from_first (s : nat) (B : BasicBlock) (post : list BasicBlock) :
  forall (pre seen : list BasicBlock),
    bb_id B = s ->
    Forall (fun P => bb_id P <> s) pre ->
    back_from s seen (pre ++ B :: post) = Some (B :: rev pre ++ seen).
Proof.
  induction pre as [|P pre IH]; intros seen HB Hpre; simpl.
  - rewrite HB, Nat.eqb_refl. reflexivity.
  - apply Forall_cons in Hpre as [HP Hpre].
    destruct (Nat.eqb_spec (bb_id P) s) as [E|_]; [contradiction|].
    rewrite (IH (P :: seen) HB Hpre). rewrite <- app_assoc. reflexivity.
Qed.

Lemma first_addressed_Done (d : Decoder) (chain : list BasicBlock) (a : Z) :
  first_addressed d chain = Done a
  <-> exists un A rest,
        chain = un ++ A :: rest
        /\ Forall (fun P => getBasicBlockAddress d (Some (bb_id P)) = None) un
        /\ getBasicBlockAddress d (Some (bb_id A)) = Some a.
Proof.
  induction chain as [|P chain IH]; cbn [first_addressed].
  - split; [discriminate|]. intros (un & A & rest & H & _). destruct un; discriminate.
  - destruct (getBasicBlockAddress d (Some (bb_id P))) as [x|] eqn:HP.
    + split.
      * intros [= ->]. exists [], P, chain. auto.
      * intros (un & A & rest & H & Hun & HA). destruct un as [|U un]; simpl in H.
        -- injection H as -> _. congruence.
        -- injection H as -> _. apply Forall_cons in Hun as [HU _]. congruence.
    + rewrite IH. split.
      * intros (un & A & rest & -> & Hun & HA). exists (P :: un), A, rest. auto.
      * intros (un & A & rest & H & Hun & HA). destruct un as [|U un]; simpl in H.
        -- injection H as -> _. congruence.
        -- injection H as -> ->. apply Forall_cons in Hun as [_ Hun].
           exists un, A, rest. auto.
Qed.

Lemma first_addressed_fails (d : Decoder) (chain : list BasicBlock) :
  first_addressed d chain = AssertFail
  <-> Forall (fun P => getBasicBlockAddress d (Some (bb_id P)) = None) chain.
Proof.
  induction chain as [|P chain IH]; cbn [first_addressed].
  - split; [constructor|reflexivity].
  - destruct (getBasicBlockAddress d (Some (bb_id P))) as [x|] eqn:HP.
    + split; [discriminate|]. intros H. apply Forall_cons in H as [H _]. congruence.
    + rewrite IH. split.
      * intros H. constructor; assumption.
      * intros H. apply Forall_cons in H as [_ H]. exact H.
Qed.

(** X11. The address the dump reports for a successor block. Let the
    successor be block [B] of function [F], with the blocks [pre] in front of
    it. A successor that has an address is reported under its own address.
    In general the dump reports address [a] exactly when [a] is the address
    of the last block among [pre] and [B] that has one: a block without an
    address, such as those inside the model of one instruction, is reported
    under the nearest addressed block in front of it. When neither [B] nor
    any block in front of it has an address, the walk leaves the function
    and the assertion fails. *)
Theorem successor_is_reported_under_nearest_address (d : Decoder) (F : Function)
    (pre post : list BasicBlock) (B : BasicBlock) :
  List.find (has_block (bb_id B)) (module_ d) = Some F ->
  fn_blocks F = pre ++ B :: post ->
  Forall (fun P => bb_id P <> bb_id B) pre ->
  (forall a, getBasicBlockAddress d (Some (bb_id B)) = Some a ->
             succ_address d (bb_id B) = Done a)
  /\ (forall a,
        succ_address d (bb_id B) = Done a
        <-> exists front A back,
              pre ++ [B] = front ++ A :: back
              /\ getBasicBlockAddress d (Some (bb_id A)) = Some a
              /\ Forall (fun P => getBasicBlockAddress d (Some (bb_id P)) = None) back)
  /\ (succ_address d (bb_id B) = AssertFail
      <-> Forall (fun P => getBasicBlockAddress d (Some (bb_id P)) = None) (pre ++ [B])).
Proof.
  intros HF Hblocks Hpre.
  assert (Hs : succ_address d (bb_id B) = first_addressed d (rev (pre ++ [B]))).
  { unfold succ_address. rewrite HF. simpl. rewrite Hblocks.
    rewrite (back_from_first (bb_id B) B post pre [] eq_refl Hpre). simpl.
    rewrite app_nil_r, rev_app_distr. reflexivity. }
  rewrite Hs. split; [|split].
  - intros a Ha. rewrite rev_app_distr. cbn [rev app first_addressed]. rewrite Ha. reflexivity.
  - intros a. rewrite first_addressed_Done. split.
    + intros (un & A & rest & Hrev & Hun & HA). exists (rev rest), A, (rev un).
      split; [|split; [exact HA|apply Forall_rev, Hun]].
      rewrite <- (rev_involutive (pre ++ [B])), Hrev, rev_app_distr. simpl.
      rewrite <- app_assoc. reflexivity.
    + intros (front & A & back & Heq & HA & Hback). exists (rev back), A, (rev front).
      split; [|split; [apply Forall_rev, Hback|exact HA]].
      rewrite Heq, rev_app_distr. simpl. rewrite <- app_assoc. reflexivity.
  - rewrite first_addressed_fails. split; intros H.
    + rewrite <- (rev_involutive (pre ++ [B])). apply Forall_rev, H.
    + apply Forall_rev, H.
Qed.

Lemma successor_is_reported_under_nearest_address_witness :
  getBasicBlockAddress ex_dump3 (Some 4%nat) = None
  /\ succ_address ex_dump3 4 = Done 0x1000.
Proof.
  split; [reflexivity|].
  destruct (successor_is_reported_under_nearest_address ex_dump3
              (mkFn 1 "main" [mkBB 2 [mkAsmInst 5 0x1000] (Some [4%nat]);
                              mkBB 4 [] (Some [3%nat]);
                              mkBB 3 [mkAsmInst 6 0x1004] (Some [])])
              [mkBB 2 [mkAsmInst 5 0x1000] (Some [4%nat])]
              [mkBB 3 [mkAsmInst 6 0x1004] (Some [])]
              (mkBB 4 [] (Some [3%nat])))
    as (_ & H & _).
  - reflexivity.
  - reflexivity.
  - repeat constructor. simpl. lia.
  - apply (H 0x1000).
    exists [], (mkBB 2 [mkAsmInst 5 0x1000] (Some [4%nat])), [mkBB 4 [] (Some [3%nat])].
    split; [reflexivity|]. split; [reflexivity|]. repeat constructor.
Defined.


(** ** When the control-flow dump returns *)

Lemma back_from_found (s : nat) (bs : list BasicBlock) :
  forall seen, existsb (fun B => Nat.eqb (bb_id B) s) bs = true ->
    exists B chain, back_from s seen bs = Some (B :: chain) /\ bb_id B = s.
Proof.
  induction bs as [|P bs IH]; intros seen; simpl; [discriminate|].
  destruct (Nat.eqb_spec (bb_id P) s) as [E|_]; simpl; [eauto|]. apply IH.
Qed.

Lemma succ_address_indexed (d : Decoder) (s : nat) (a : Z) :
  (exists G, In G (module_ d) /\ has_block s G = true) ->
  bb2addr d !! s = Some a ->
  succ_address d s = Done a.
Proof.
  intros (G & HG & Hs) Ha. unfold succ_address.
  destruct (List.find (has_block s) (module_ d)) as [F|] eqn:HF.
  - apply List.find_some in HF as [_ HF]. simpl.
    destruct (back_from_found s (fn_blocks F) [] HF) as (B & chain & -> & HB). simpl.
    rewrite HB, Ha. reflexivity.
  - exfalso. apply (List.find_none _ _ HF) in HG. congruence.
Qed.

(** X12. The dump returns, that is, none of its assertions fails, when
    every successor of every block is a block of the module that has an
    address: [assert(succ)] can fail only for a successor without an address
    of its own. *)
Theorem dump_returns_when_successors_are_indexed (write : Json -> string) (d : Decoder) :
  (forall F B s, In F (module_ d) -> In B (fn_blocks F) -> In s (successors B) ->
     (exists G, In G (module_ d) /\ has_block s G = true)
     /\ is_Some (getBasicBlockAddress d (Some s))) ->
  returns (dumpControFlowToJson write d) = true.
Proof.
  intros Hsucc.
  assert (Hs : forall ss,
            (forall s, In s ss -> (exists G, In G (module_ d) /\ has_block s G = true)
                                  /\ is_Some (getBasicBlockAddress d (Some s))) ->
            exists js, dump_succs d ss = Done js).
  { induction ss as [|s ss IH]; intros H; simpl; [eauto|].
    destruct (H s (or_introl eq_refl)) as [HG [a Ha]].
    rewrite (succ_address_indexed d s a HG Ha). simpl.
    destruct IH as [js ->]; [intros s' Hs'; apply H; right; exact Hs'|]. simpl. eauto. }
  assert (Hb : forall bs,
            (forall B s, In B bs -> In s (successors B) ->
               (exists G, In G (module_ d) /\ has_block s G = true)
               /\ is_Some (getBasicBlockAddress d (Some s))) ->
            exists js, dump_bbs d bs = Done js).
  { induction bs as [|B bs IH]; intros H; cbn [dump_bbs]; [eauto|].
    destruct IH as [js Hjs]; [intros B' s HB'; apply H; right; exact HB'|].
    destruct (getBasicBlockAddress d (Some (bb_id B))); [|eauto].
    destruct (blockEnd d B); [|eauto].
    destruct (Hs (successors B)) as [ss ->]; [intros s; apply H; left; reflexivity|].
    rewrite Hjs. simpl. eauto. }
  assert (Hf : forall fs,
            (forall F, In F fs -> In F (module_ d)) ->
            exists js, dump_fncs d fs = Done js).
  { induction fs as [|F fs IH]; intros H; cbn [dump_fncs]; [eauto|].
    destruct IH as [js Hjs]; [intros F' HF'; apply H; right; exact HF'|].
    destruct (getFunctionAddress d (Some (fn_id F))); [|eauto].
    destruct (functionEnd d F); [|eauto].
    destruct (Hb (fn_blocks F)) as [bs ->].
    { intros B s HB. apply (Hsucc F B s); [apply H; left; reflexivity|exact HB]. }
    rewrite Hjs. simpl. eauto. }
  unfold dumpControFlowToJson. destruct (Hf (module_ d)) as [js ->]; [auto|]. reflexivity.
Qed.

Lemma dump_returns_when_successors_are_indexed_witness :
  returns (dumpControFlowToJson ex_write ex_dump1) = true.
Proof.
  apply dump_returns_when_successors_are_indexed.
  intros F B s HF HB Hs. simpl in HF.
  destruct HF as [<-|[<-|[]]]; simpl in HB; [|destruct HB].
  destruct HB as [<-|[<-|[]]]; simpl in Hs; [|destruct Hs].
  destruct Hs as [<-|[]]. split.
  - eexists. split; [left; reflexivity|reflexivity].
  - eexists. reflexivity.
Defined.

(** * Further properties of the stack pass *)

Lemma set_body_ids (f : nat) (body : list (list Instruction)) (p : Pass) :
  List.map sf_id (p_module (set_body f body p)) = List.map sf_id (p_module p).
Proof.
  simpl. rewrite List.map_map. apply List.map_ext. intros F.
  destruct (Nat.eqb_spec (sf_id F) f); simpl; auto.
Qed.

Lemma getStackVariable_frame (p : Pass) (f : nat) (offset : Z) (t : Ty) (name : string) :
  let r := getStackVariable p f offset t name in
  p_log r.2 = p_log p
  /\ List.map sf_id (p_module r.2) = List.map sf_id (p_module p)
  /\ p_stackVars r.2 !! (f, offset) = Some r.1.
Proof.
  unfold getStackVariable. destruct (p_stackVars p !! (f, offset)) eqn:E; simpl; [auto|].
  split; [reflexivity|]. split; [|apply lookup_insert_eq].
  apply (set_body_ids f _ (bump p)).
Qed.

Section StackFacts.
Variable RDA : Type.
Variable buildTree :
  RDA -> list (list Instruction) -> Value -> gmap nat Value -> SymbolicTree * bool.
Variable simplifyNode : Config -> SymbolicTree -> SymbolicTree.
Variable isLlvmToAsmInstruction : Instruction -> bool.
Variable config : Config.
Variable dbgf : option DebugFormat.
Variable rda : RDA.
Variable fnc : nat.

Let handle := handleInstruction RDA buildTree simplifyNode config dbgf rda fnc.
Let stepA :=
  phaseA_step RDA buildTree simplifyNode isLlvmToAsmInstruction config dbgf rda fnc.
Let stepB :=
  phaseB_step RDA buildTree simplifyNode isLlvmToAsmInstruction config dbgf rda fnc.

Lemma handleInstruction_cases (inst : Instruction) (val : Value) (type : Ty)
    (p : Pass) (items : list ReplaceItem) (m : gmap nat Value) :
  let r := handle inst val type (p, items, m) in
  r = (false, (p, items, m))
  \/ (r.1 = true
      /\ exists a bits k,
           st_value (simplifyNode config (buildTree rda (get_body p fnc) val m).1)
           = Some (ConstantInt bits k)
           /\ r.2.1.2 = items ++ [mkReplace (inst_id inst) val a]
           /\ p_stackVars r.2.1.1 !! (fnc, getSExtValue bits k) = Some a
           /\ r.2.2 = (if is_store_of inst val
                       then <[inst_id inst := ConstantInt bits k]> m else m)).
Proof.
  unfold handle, handleInstruction.
  destruct (buildTree rda (get_body p fnc) val m) as [root used]. simpl.
  destruct (negb used && _); [left; reflexivity|].
  destruct (st_value (simplifyNode config root)) as [[bits k| | |]|];
    try (left; reflexivity).
  pose proof (getStackVariable_frame p fnc (getSExtValue bits k)
                (from_option dv_type type
                   (if getDebugStackVariable config dbgf (get_body p fnc) fnc root is None
                    then getDebugStackVariable config dbgf (get_body p fnc) fnc
                           (simplifyNode config root)
                    else getDebugStackVariable config dbgf (get_body p fnc) fnc root))
                (from_option dv_name ""
                   (if getDebugStackVariable config dbgf (get_body p fnc) fnc root is None
                    then getDebugStackVariable config dbgf (get_body p fnc) fnc
                           (simplifyNode config root)
                    else getDebugStackVariable config dbgf (get_body p fnc) fnc root)))
    as (_ & _ & Hslot).
  destruct (getStackVariable _ _ _ _ _) as [a p1]. simpl in Hslot.
  right. simpl. split; [reflexivity|]. exists a, bits, k.
  split; [reflexivity|]. split; [reflexivity|]. split; [|reflexivity].
  destruct (if getDebugStackVariable config dbgf (get_body p fnc) fnc root is None
            then _ else _); exact Hslot.
Qed.

Lemma handleInstruction_frame (inst : Instruction) (val : Value) (type : Ty)
    (st : Pass * list ReplaceItem * gmap nat Value) :
  p_log (handle inst val type st).2.1.1 = p_log st.1.1
  /\ List.map sf_id (p_module (handle inst val type st).2.1.1)
     = List.map sf_id (p_module st.1.1).
Proof.
  destruct st as [[p items] m]. unfold handle, handleInstruction.
  destruct (buildTree rda (get_body p fnc) val m) as [root used]. simpl.
  destruct (negb used && _); [auto|].
  destruct (st_value (simplifyNode config root)) as [[bits k| | |]|]; auto.
  match goal with |- context [getStackVariable ?p ?f ?o ?t ?n] =>
    pose proof (getStackVariable_frame p f o t n) as (Hlog & Hids & _);
    destruct (getStackVariable p f o t n) as [a p1] end.
  simpl in *.
  destruct (if getDebugStackVariable config dbgf (get_body p fnc) fnc root is None
            then _ else _); simpl; auto.
Qed.

Lemma phaseA_frame (l : list Instruction) :
  forall st, p_log (foldl stepA st l).1.1 = p_log st.1.1
             /\ List.map sf_id (p_module (foldl stepA st l).1.1)
                = List.map sf_id (p_module st.1.1).
Proof.
  induction l as [|i l IH]; intros st; simpl; [auto|].
  destruct (IH (stepA st i)) as [-> ->]. unfold stepA, phaseA_step.
  destruct (inst_op i); auto.
  destruct (isLlvmToAsmInstruction i); [auto|]. apply handleInstruction_frame.
Qed.

Lemma phaseB_step_frame (acc : bool * (Pass * list ReplaceItem * gmap nat Value))
    (i : Instruction) :
  p_log (stepB acc i).2.1.1 = p_log acc.2.1.1
  /\ List.map sf_id (p_module (stepB acc i).2.1.1) = List.map sf_id (p_module acc.2.1.1).
Proof.
  destruct acc as [changed st]. unfold stepB, phaseB_step. simpl.
  destruct (inst_op i) as [ptr ty|v ptr| | | |]; auto.
  - destruct (skip_pointer ptr); [auto|]. destruct (isGlobalVariable ptr); [auto|].
    pose proof (handleInstruction_frame i ptr ty st) as H. unfold handle in H.
    destruct (handleInstruction _ _ _ _ _ _ _ _ _ _ _) as [c st']. exact H.
  - destruct (isLlvmToAsmInstruction i); [auto|]. destruct (skip_pointer ptr); [auto|].
    destruct (isGlobalVariable ptr); simpl; [auto|].
    pose proof (handleInstruction_frame i ptr (typeOf v) st) as H. unfold handle in H.
    destruct (handleInstruction _ _ _ _ _ _ _ _ _ _ _) as [c st']. exact H.
Qed.

Lemma phaseB_frame (l : list Instruction) :
  forall acc, p_log (foldl stepB acc l).2.1.1 = p_log acc.2.1.1
              /\ List.map sf_id (p_module (foldl stepB acc l).2.1.1)
                 = List.map sf_id (p_module acc.2.1.1).
Proof.
  induction l as [|i l IH]; intros acc; simpl; [auto|].
  destruct (IH (stepB acc i)) as [-> ->]. apply phaseB_step_frame.
Qed.

(** One step of the second loop: the replace list grows at its end, and the
    flag is raised exactly when it grows. *)
Lemma phaseB_step_changed (acc : bool * (Pass * list ReplaceItem * gmap nat Value))
    (i : Instruction) :
  exists new, (stepB acc i).2.1.2 = acc.2.1.2 ++ new
              /\ (stepB acc i).1 = acc.1 || bool_decide (new <> []).
Proof.
  destruct acc as [changed [[p items] m]]. unfold stepB, phaseB_step. cbn [fst snd].
  assert (Hnil : exists new : list ReplaceItem,
            items = items ++ new /\ changed = changed || bool_decide (new <> [])).
  { exists []. rewrite app_nil_r, bool_decide_eq_false_2, orb_false_r by auto. auto. }
  assert (Hh : forall val type,
            exists new,
              (handle i val type (p, items, m)).2.1.2 = items ++ new
              /\ changed || (handle i val type (p, items, m)).1
                 = changed || bool_decide (new <> [])).
  { intros val type.
    destruct (handleInstruction_cases i val type p items m)
      as [->|(-> & a & bits & k & _ & -> & _)].
    - simpl. rewrite orb_false_r. exact Hnil.
    - eexists. split; [reflexivity|]. rewrite bool_decide_eq_true_2 by discriminate.
      reflexivity. }
  destruct (inst_op i) as [ptr ty|v ptr| | | |]; try exact Hnil.
  - destruct (skip_pointer ptr); [exact Hnil|].
    destruct (isGlobalVariable ptr); [exact Hnil|].
    specialize (Hh ptr ty). unfold handle in Hh.
    destruct (handleInstruction _ _ _ _ _ _ _ _ _ _ _) as [c st']. exact Hh.
  - destruct (isLlvmToAsmInstruction i); [exact Hnil|].
    destruct (skip_pointer ptr); [exact Hnil|].
    destruct (isGlobalVariable ptr); cbn [negb]; [exact Hnil|].
    specialize (Hh ptr (typeOf v)). unfold handle in Hh.
    destruct (handleInstruction _ _ _ _ _ _ _ _ _ _ _) as [c st']. exact Hh.
Qed.

Lemma phaseB_fold_changed (l : list Instruction) :
  forall acc, exists new, (foldl stepB acc l).2.1.2 = acc.2.1.2 ++ new
                          /\ (foldl stepB acc l).1 = acc.1 || bool_decide (new <> []).
Proof.
  induction l as [|i l IH]; intros acc; simpl.
  - exists []. rewrite app_nil_r, bool_decide_eq_false_2, orb_false_r by auto. auto.
  - destruct (IH (stepB acc i)) as (new2 & -> & ->).
    destruct (phaseB_step_changed acc i) as (new1 & -> & ->).
    exists (new1 ++ new2). rewrite app_assoc. split; [reflexivity|].
    rewrite <- orb_assoc. f_equal.
    destruct new1 as [|x new1]; reflexivity.
Qed.
End StackFacts.


(** X14. [runOnFunction] returns true exactly when its second loop, over
    the pointer operands of the loads and stores, appends a replace item.
    The items that the first loop records for the value operands of the
    stores do not count, although the third loop carries them out as well. *)
Theorem runOnFunction_changed_iff_second_loop_records (RDA : Type)
    (buildTree : RDA -> list (list Instruction) -> Value -> gmap nat Value -> SymbolicTree * bool)
    (simplifyNode : Config -> SymbolicTree -> SymbolicTree)
    (isLlvmToAsmInstruction : Instruction -> bool)
    (config : Config) (dbgf : option DebugFormat) (rda : RDA) (fnc : nat) (p : Pass) :
  let a := phaseA RDA buildTree simplifyNode isLlvmToAsmInstruction config dbgf rda fnc
             (log_event (EvFunction fnc) p) in
  let b := phaseB RDA buildTree simplifyNode isLlvmToAsmInstruction config dbgf rda fnc a in
  let r := runOnFunction RDA buildTree simplifyNode isLlvmToAsmInstruction config dbgf
             rda fnc p in
  exists new,
    b.2.1.2 = a.1.2 ++ new
    /\ (r.1 = true <-> new <> [])
    /\ r.2 = phaseD fnc (a.1.2 ++ new) b.2.1.1.
Proof.
  intros a b r. subst r. unfold runOnFunction. fold a. fold b.
  destruct (phaseB_fold_changed RDA buildTree simplifyNode isLlvmToAsmInstruction config
              dbgf rda fnc (concat (get_body a.1.1 fnc)) (false, a)) as (new & Hnew & Hc).
  fold (phaseB RDA buildTree simplifyNode isLlvmToAsmInstruction config dbgf rda fnc a)
    in Hnew, Hc.
  fold b in Hnew, Hc. simpl in Hnew, Hc.
  exists new. split; [exact Hnew|].
  destruct b as [changed [[p1 items] m]]. simpl in *. subst items changed.
  split; [|reflexivity].
  destruct new; simpl; split; try discriminate; try congruence; auto.
Qed.


(** ** The order in which the functions are visited *)

Lemma phaseD_frame (fnc : nat) (items : list ReplaceItem) (p : Pass) :
  p_log (phaseD fnc items p) = p_log p
  /\ List.map sf_id (p_module (phaseD fnc items p)) = List.map sf_id (p_module p).
Proof.
  unfold phaseD.
  destruct (foldl phaseD_step (get_body p fnc, [], p_next p) items) as [[body toErase] next].
  split; [reflexivity|]. apply set_body_ids.
Qed.

Section StackRunFacts.
Variable RDA : Type.
Variable RDA_runOnModule : list SFunction -> Config -> RDA.
Variable buildTree :
  RDA -> list (list Instruction) -> Value -> gmap nat Value -> SymbolicTree * bool.
Variable simplifyNode : Config -> SymbolicTree -> SymbolicTree.
Variable isLlvmToAsmInstruction : Instruction -> bool.
Variable config : Config.
Variable dbgf : option DebugFormat.
Variable rda : RDA.

Let runOn := runOnFunction RDA buildTree simplifyNode isLlvmToAsmInstruction config dbgf rda.

Lemma runOnFunction_frame (fnc : nat) (p : Pass) :
  p_log (runOn fnc p).2 = p_log p ++ [EvFunction fnc]
  /\ List.map sf_id (p_module (runOn fnc p).2) = List.map sf_id (p_module p).
Proof.
  unfold runOn, runOnFunction, phaseB, phaseA.
  match goal with |- context [foldl ?stepB (false, foldl ?stepA ?st0 ?lA) ?lB] =>
    pose proof (phaseA_frame RDA buildTree simplifyNode isLlvmToAsmInstruction config dbgf
                  rda fnc lA st0) as [HlogA HidsA];
    pose proof (phaseB_frame RDA buildTree simplifyNode isLlvmToAsmInstruction config dbgf
                  rda fnc lB (false, foldl stepA st0 lA)) as [HlogB HidsB];
    destruct (foldl stepB (false, foldl stepA st0 lA) lB) as [changed [[p1 items] m]]
  end.
  cbn [fst snd] in *.
  destruct (phaseD_frame fnc items p1) as [-> ->].
  rewrite HlogB, HidsB, HlogA, HidsA. auto.
Qed.

Lemma stack_run_fold (fs : list nat) :
  forall (changed : bool) (p : Pass),
    let r := foldl (fun acc f =>
                      let '(changed, p) := acc in
                      let '(c', p') := runOn f p in (changed || c', p'))
                   (changed, p) fs in
    p_log r.2 = p_log p ++ List.map EvFunction fs
    /\ List.map sf_id (p_module r.2) = List.map sf_id (p_module p).
Proof.
  induction fs as [|f fs IH]; intros changed p; simpl.
  - rewrite app_nil_r. auto.
  - destruct (runOnFunction_frame f p) as [Hlog Hids].
    destruct (runOn f p) as [c' p']. simpl in Hlog, Hids.
    destruct (IH (changed || c') p') as [-> ->].
    rewrite Hlog, Hids, <- app_assoc. auto.
Qed.
End StackRunFacts.

(** X15. With a configuration, [StackAnalysis::run] builds the
    reaching-definitions analysis once, before any function is looked at,
    and then visits every function of the module exactly once, in the order
    of the module. The pass adds, removes or reorders no function. *)
Theorem stack_run_visits_each_function_once (RDA : Type)
    (RDA_runOnModule : list SFunction -> Config -> RDA)
    (buildTree : RDA -> list (list Instruction) -> Value -> gmap nat Value -> SymbolicTree * bool)
    (simplifyNode : Config -> SymbolicTree -> SymbolicTree)
    (isLlvmToAsmInstruction : Instruction -> bool)
    (config : Config) (dbgf : option DebugFormat) (p : Pass) :
  let r := stack_run RDA RDA_runOnModule buildTree simplifyNode isLlvmToAsmInstruction
             (Some config) dbgf p in
  p_log r.2
  = p_log p ++ EvReachingDefinitions :: List.map EvFunction (List.map sf_id (p_module p))
  /\ List.map sf_id (p_module r.2) = List.map sf_id (p_module p).
Proof.
  unfold stack_run.
  destruct (stack_run_fold RDA buildTree simplifyNode isLlvmToAsmInstruction config dbgf
              (RDA_runOnModule (p_module p) config)
              (List.map sf_id (p_module (log_event EvReachingDefinitions p)))
              false (log_event EvReachingDefinitions p)) as [Hlog Hids].
  cbn zeta in *. rewrite Hlog, Hids. simpl. rewrite <- app_assoc. auto.
Qed.


(** ** A function that does not touch the stack pointer *)

Lemma set_body_other (f : nat) (body : list (list Instruction)) (m : list SFunction) :
  Forall (fun F => sf_id F <> f) m ->
  List.map (fun F => if Nat.eqb (sf_id F) f then mkSFn f body else F) m = m.
Proof.
  induction 1 as [|F m HF _ IH]; simpl; [reflexivity|].
  destruct (Nat.eqb_spec (sf_id F) f) as [E|_]; [contradiction|]. rewrite IH. reflexivity.
Qed.

Lemma set_body_same (p : Pass) (f : nat) :
  NoDup (List.map sf_id (p_module p)) -> set_body f (get_body p f) p = p.
Proof.
  destruct p as [m vars dbg next log]. unfold set_body, get_body. simpl. intros Hnd.
  f_equal. induction m as [|G m IH]; simpl; [reflexivity|].
  simpl in Hnd. apply NoDup_cons in Hnd as [Hnot Hnd].
  destruct (Nat.eqb_spec (sf_id G) f) as [E|E].
  - f_equal; [destruct G; simpl in *; subst; reflexivity|].
    apply set_body_other. apply List.Forall_forall. intros F HF HE. apply Hnot.
    rewrite E, <- HE. apply list_elem_of_In, in_map, HF.
  - f_equal. apply IH, Hnd.
Qed.

Lemma erase_nothing (body : list (list Instruction)) : erase [] body = body.
Proof.
  unfold erase. simpl. induction body as [|b body IH]; simpl; [reflexivity|].
  rewrite IH. f_equal. induction b as [|x b IHb]; simpl; [reflexivity|].
  rewrite IHb. reflexivity.
Qed.

Lemma phaseD_nothing (fnc : nat) (p : Pass) :
  NoDup (List.map sf_id (p_module p)) -> phaseD fnc [] p = p.
Proof.
  intros Hnd. unfold phaseD. cbn [foldl]. rewrite erase_nothing, set_body_same by exact Hnd.
  destruct p; reflexivity.
Qed.

(** X16. When the configuration knows no stack-pointer register, and a tree
    built with an empty substitution map does not claim to have used it,
    [runOnFunction] returns false and leaves the function, the stack
    variables and the allocator as they are: only the visit is logged. The
    functions of the module are distinct objects. *)
Theorem runOnFunction_without_stack_pointer (RDA : Type)
    (buildTree : RDA -> list (list Instruction) -> Value -> gmap nat Value -> SymbolicTree * bool)
    (simplifyNode : Config -> SymbolicTree -> SymbolicTree)
    (isLlvmToAsmInstruction : Instruction -> bool)
    (config : Config) (dbgf : option DebugFormat) (rda : RDA) (fnc : nat) (p : Pass) :
  (forall v, isStackPointerRegister config v = false) ->
  (forall body v, (buildTree rda body v ∅).2 = false) ->
  NoDup (List.map sf_id (p_module p)) ->
  runOnFunction RDA buildTree simplifyNode isLlvmToAsmInstruction config dbgf rda fnc p
  = (false, log_event (EvFunction fnc) p).
Proof.
  intros Hsp Hused Hnd.
  assert (Hh : forall inst val type q items,
            handleInstruction RDA buildTree simplifyNode config dbgf rda fnc inst val type
              (q, items, ∅) = (false, (q, items, ∅))).
  { intros inst val type q items. unfold handleInstruction.
    specialize (Hused (get_body q fnc) val).
    destruct (buildTree rda (get_body q fnc) val ∅) as [root used]. simpl in Hused.
    subst used. simpl.
    assert (He : forall l, existsb (fun n => from_option (isStackPointerRegister config) false
                                               (st_value n)) l = false).
    { induction l as [|n l IH]; simpl; [reflexivity|]. rewrite IH.
      destruct (st_value n); simpl; [rewrite Hsp|]; reflexivity. }
    rewrite He. reflexivity. }
  assert (HA : forall l q items,
            foldl (phaseA_step RDA buildTree simplifyNode isLlvmToAsmInstruction config dbgf
                     rda fnc) (q, items, ∅) l = (q, items, ∅)).
  { induction l as [|i l IH]; intros q items; cbn [foldl]; [reflexivity|].
    unfold phaseA_step at 2. destruct (inst_op i); try apply IH.
    destruct (isLlvmToAsmInstruction i); [apply IH|]. rewrite Hh. apply IH. }
  assert (HB : forall l q items,
            foldl (phaseB_step RDA buildTree simplifyNode isLlvmToAsmInstruction config dbgf
                     rda fnc) (false, (q, items, ∅)) l = (false, (q, items, ∅))).
  { induction l as [|i l IH]; intros q items; cbn [foldl]; [reflexivity|].
    unfold phaseB_step at 2. destruct (inst_op i) as [ptr ty|v ptr| | | |]; try apply IH.
    - destruct (skip_pointer ptr); [apply IH|].
      destruct (isGlobalVariable ptr); [apply IH|]. rewrite Hh. apply IH.
    - destruct (isLlvmToAsmInstruction i); [apply IH|].
      destruct (skip_pointer ptr); [apply IH|].
      destruct (isGlobalVariable ptr); cbn [negb]; [apply IH|]. rewrite Hh. apply IH. }
  unfold runOnFunction, phaseB, phaseA. rewrite HA. cbn [fst snd]. rewrite HB.
  rewrite phaseD_nothing by exact Hnd. reflexivity.
Qed.

Lemma runOnFunction_without_stack_pointer_witness :
  runOnFunction unit ex_buildTree ex_simplifyNode ex_no_anchor
    (mkConfig (fun _ => false) isGlobalVariable (fun _ => None)) None tt 0 ex_store_pass
  = (false, log_event (EvFunction 0) ex_store_pass).
Proof.
  apply runOnFunction_without_stack_pointer.
  - intros v. reflexivity.
  - intros body v. reflexivity.
  - repeat constructor. simpl. intros H. inversion H.
Defined.


(** ** What the third loop erases *)

Lemma ids_map_same (h : Instruction -> Instruction) (body : list (list Instruction)) :
  (forall x, inst_id (h x) = inst_id x) ->
  List.map inst_id (concat (List.map (List.map h) body)) = List.map inst_id (concat body).
Proof.
  intros Hh. induction body as [|b body IH]; simpl; [reflexivity|].
  rewrite !List.map_app, IH, List.map_map. f_equal. apply List.map_ext, Hh.
Qed.

Lemma ids_set_op (j : nat) (o : Op) (body : list (list Instruction)) :
  List.map inst_id (concat (set_op j o body)) = List.map inst_id (concat body).
Proof.
  apply ids_map_same. intros x. destruct (Nat.eqb_spec (inst_id x) j); simpl; auto.
Qed.

Lemma ids_replaceAllUsesWith (from to : Value) (body : list (list Instruction)) :
  List.map inst_id (concat (replaceAllUsesWith from to body))
  = List.map inst_id (concat body).
Proof. apply ids_map_same. reflexivity. Qed.

Lemma ids_replaceUsesOfWith (j : nat) (from to : Value) (body : list (list Instruction)) :
  List.map inst_id (concat (replaceUsesOfWith j from to body))
  = List.map inst_id (concat body).
Proof.
  apply ids_map_same. intros x. destruct (Nat.eqb (inst_id x) j); reflexivity.
Qed.

Lemma ids_insert_before (i j : nat) (new : list Instruction) (body : list (list Instruction)) :
  In i (List.map inst_id (concat body)) ->
  In i (List.map inst_id (concat (insert_before j new body))).
Proof.
  rewrite !in_map_iff. intros (x & Hx & Hin). exists x. split; [exact Hx|].
  apply in_concat in Hin as (b & Hb & Hxb). apply in_concat.
  exists (flat_map (fun x => if Nat.eqb (inst_id x) j then new ++ [x] else [x]) b).
  split; [apply in_map, Hb|]. apply in_flat_map. exists x. split; [exact Hxb|].
  destruct (Nat.eqb (inst_id x) j); [apply in_or_app; right|]; left; reflexivity.
Qed.

Lemma ids_convertValueToType (i : nat) (v : Value) (ty : Ty) (before fresh : nat)
    (body : list (list Instruction)) :
  In i (List.map inst_id (concat body)) ->
  In i (List.map inst_id (concat (convertValueToType v ty before fresh body).2)).
Proof.
  unfold convertValueToType. destruct (bool_decide (typeOf v = ty)); simpl; [auto|].
  apply ids_insert_before.
Qed.

Lemma ids_erase (i : nat) (dead : list nat) (body : list (list Instruction)) :
  ~ In i dead ->
  In i (List.map inst_id (concat body)) ->
  In i (List.map inst_id (concat (erase dead body))).
Proof.
  intros Hdead. rewrite !in_map_iff. intros (x & Hx & Hin). exists x. split; [exact Hx|].
  apply in_concat in Hin as (b & Hb & Hxb). apply in_concat.
  exists (List.filter (fun x => negb (existsb (Nat.eqb (inst_id x)) dead)) b).
  split; [apply in_map, Hb|]. apply filter_In. split; [exact Hxb|].
  apply negb_true_iff. destruct (existsb (Nat.eqb (inst_id x)) dead) eqn:E; [|reflexivity].
  exfalso. apply existsb_exists in E as (y & Hy & Heq). apply Nat.eqb_eq in Heq.
  apply Hdead. congruence.
Qed.

(** One replacement keeps every instruction in the function and marks at
    most the instruction it is about. *)
Lemma phaseD_step_keeps (i : nat) (ri : ReplaceItem)
    (body : list (list Instruction)) (toErase : list nat) (next : nat) :
  (In i (List.map inst_id (concat body)) ->
   In i (List.map inst_id (concat (phaseD_step (body, toErase, next) ri).1.1)))
  /\ (forall j, j ∈ (phaseD_step (body, toErase, next) ri).1.2 ->
                j ∈ toErase \/ j = ri_inst ri).
Proof.
  assert (Hu : forall j l, j ∈ list_union l [ri_inst ri] -> j ∈ l \/ j = ri_inst ri).
  { intros j l H. apply list_elem_of_union in H as [H|H]; [auto|].
    apply list_elem_of_singleton in H. auto. }
  unfold phaseD_step.
  destruct (inst_op <$> find_inst body (ri_inst ri)) as [[ptr ty|v ptr| | | |]|];
    try (destruct (bool_decide (ptr = ri_from ri));
         [destruct (isAggregateType (al_type (ri_to ri)))|]);
    repeat match goal with
           | |- context [convertValueToType ?v ?ty ?b ?f ?bd] =>
               let H := fresh "Hconv" in
               pose proof (fun Hin => ids_convertValueToType i v ty b f bd Hin) as H;
               destruct (convertValueToType v ty b f bd) as [[conv used] body1];
               cbn [fst snd] in H
           end;
    cbn [fst snd];
    (split;
     [intros Hin;
      rewrite ?ids_set_op, ?ids_replaceUsesOfWith, ?ids_replaceAllUsesWith;
      repeat apply ids_insert_before; auto
     |intros j Hj; auto]).
  - apply Hconv, ids_insert_before, Hin.
  - apply Hu in Hj as [Hj|Hj]; [|auto]. apply Hu in Hj as [Hj|Hj]; auto.
Qed.

Lemma phaseD_fold_keeps (i : nat) (items : list ReplaceItem) :
  forall (body : list (list Instruction)) (toErase : list nat) (next : nat),
    (In i (List.map inst_id (concat body)) ->
     In i (List.map inst_id (concat (foldl phaseD_step (body, toErase, next) items).1.1)))
    /\ (forall j, j ∈ (foldl phaseD_step (body, toErase, next) items).1.2 ->
                  j ∈ toErase \/ In j (List.map ri_inst items)).
Proof.
  induction items as [|ri items IH]; intros body toErase next; cbn [foldl].
  - simpl. auto.
  - destruct (phaseD_step_keeps i ri body toErase next) as [Hk He].
    destruct (phaseD_step (body, toErase, next) ri) as [[body1 toErase1] next1].
    cbn [fst snd] in Hk, He.
    destruct (IH body1 toErase1 next1) as [Hk' He']. split; [auto|].
    intros j Hj. apply He' in Hj as [Hj|Hj]; [|right; right; exact Hj].
    apply He in Hj as [Hj|Hj]; [auto|]. right. left. auto.
Qed.

Lemma get_body_set_body (f : nat) (body : list (list Instruction)) (p : Pass) :
  get_body p f <> [] -> get_body (set_body f body p) f = body.
Proof.
  unfold get_body, set_body. simpl.
  induction (p_module p) as [|G m IH]; simpl; [congruence|].
  destruct (Nat.eqb_spec (sf_id G) f) as [E|E]; simpl.
  - rewrite Nat.eqb_refl. reflexivity.
  - destruct (Nat.eqb_spec (sf_id G) f); [contradiction|]. exact IH.
Qed.

(** X17. The third loop of [runOnFunction] and the erasure that follows it
    remove no instruction but those that a replace item names: an
    instruction of the function that no replace item is about is in the
    function afterwards. *)
Theorem phaseD_erases_only_named (fnc : nat) (items : list ReplaceItem) (p : Pass) (i : nat) :
  In i (List.map inst_id (concat (get_body p fnc))) ->
  ~ In i (List.map ri_inst items) ->
  In i (List.map inst_id (concat (get_body (phaseD fnc items p) fnc))).
Proof.
  intros Hin Hnot. unfold phaseD.
  destruct (phaseD_fold_keeps i items (get_body p fnc) [] (p_next p)) as [Hk He].
  destruct (foldl phaseD_step (get_body p fnc, [], p_next p) items)
    as [[body toErase] next].
  cbn [fst snd] in Hk, He.
  assert (Hbody : get_body p fnc <> []) by (intros E; rewrite E in Hin; exact Hin).
  pose proof (get_body_set_body fnc (erase toErase body) p Hbody) as Hget.
  unfold get_body in Hget |- *. simpl in Hget |- *. rewrite Hget.
  apply ids_erase; [|auto].
  intros Hd. apply list_elem_of_In, He in Hd as [Hd|Hd]; [inversion Hd|auto].
Qed.

Lemma phaseD_erases_only_named_witness :
  In 2%nat
    (List.map inst_id
       (concat (get_body
                  (phaseD 0
                     [mkReplace 4 (InstValue 3 (PointerTy (IntegerTy 32)))
                        (mkAlloca 5 (IntegerTy 32) "stack_var_8")]
                     ex_store_pass) 0))).
Proof.
  apply phaseD_erases_only_named.
  - simpl. auto.
  - simpl. intros [H|H]; [discriminate|exact H].
Defined.


(** ** The debug variable of a stack access *)

(** X18. A debug variable that [getDebugStackVariable] returns is a local of
    the debug function found at the address the configuration gives for the
    function, and it is kept on the stack. When the root of the tree is a
    constant, the offset of the variable is that constant, sign-extended and
    then cut to an [int]; without debug information nothing is returned. *)
Theorem getDebugStackVariable_is_stack_local (config : Config) (dbgf : option DebugFormat)
    (body : list (list Instruction)) (fnc : nat) (root : SymbolicTree) (var : DebugVar) :
  getDebugStackVariable config dbgf body fnc root = Some var ->
  dv_isStack var = true
  /\ (exists dbg locals,
        dbgf = Some dbg
        /\ dbg_getFunction dbg (cfg_getFunctionAddress config fnc) = Some locals
        /\ In var locals)
  /\ (forall bits k, st_value root = Some (ConstantInt bits k) ->
        dv_stackOffset var = to_int (getSExtValue bits k)).
Proof.
  unfold getDebugStackVariable. destruct dbgf as [dbg|]; [|discriminate]. simpl.
  destruct (dbg_getFunction dbg (cfg_getFunctionAddress config fnc)) as [locals|] eqn:Hloc;
    [|discriminate]. simpl.
  destruct (match as_constant (st_value root) with
            | Some k => Some (to_int k)
            | None => first_add_offset config body (getLevelOrder root)
            end) as [baseOffset|] eqn:Hbase; [|discriminate]. simpl.
  intros H. apply List.find_some in H as [Hin Hp].
  apply andb_prop in Hp as [Hstack Hoff]. apply Z.eqb_eq in Hoff.
  split; [exact Hstack|]. split; [exists dbg, locals; auto|].
  intros bits k Hroot. rewrite Hroot in Hbase. simpl in Hbase. congruence.
Qed.

Lemma getDebugStackVariable_is_stack_local_witness :
  let dbgf := Some (mkDebug (fun _ => Some [mkDebugVar "x" false 8 (IntegerTy 32);
                                            mkDebugVar "y" true 8 (IntegerTy 32)])) in
  let root := SNode (Some (ConstantInt 64 (2 ^ 32 + 8))) [] in
  getDebugStackVariable ex_config dbgf [] 0 root = Some (mkDebugVar "y" true 8 (IntegerTy 32))
  /\ dv_stackOffset (mkDebugVar "y" true 8 (IntegerTy 32))
     = to_int (getSExtValue 64 (2 ^ 32 + 8)).
Proof.
  intros dbgf root.
  assert (Hrun : getDebugStackVariable ex_config dbgf [] 0 root
                 = Some (mkDebugVar "y" true 8 (IntegerTy 32))) by (vm_compute; reflexivity).
  split; [exact Hrun|].
  destruct (getDebugStackVariable_is_stack_local ex_config dbgf [] 0 root _ Hrun)
    as (_ & _ & Hoff).
  exact (Hoff 64%N (2 ^ 32 + 8) eq_refl).
Defined.


(** ** The replacement of a load from a scalar slot *)

Lemma uses_subst_op (from to : Value) (o : Op) :
  uses (subst_op from to o) = List.map (subst_value from to) (uses o).
Proof. destruct o; reflexivity. Qed.

Lemma replaceAllUsesWith_no_use (from to : Value) (body : list (list Instruction)) :
  to <> from ->
  Forall (fun x => ~ In from (uses (inst_op x))) (concat (replaceAllUsesWith from to body)).
Proof.
  intros Hne. apply List.Forall_forall. intros x Hx.
  apply in_concat in Hx as (b & Hb & Hx). unfold replaceAllUsesWith in Hb.
  apply in_map_iff in Hb as (b0 & <- & _). apply in_map_iff in Hx as (x0 & <- & _).
  simpl. rewrite uses_subst_op. intros Hin.
  apply in_map_iff in Hin as (v & Hv & _). unfold subst_value in Hv.
  destruct (bool_decide_reflect (v = from)); congruence.
Qed.

(** X19. The load branch of the third loop, for a slot that is no
    aggregate: the replaced load [ri.inst] is marked for erasure, and by then
    no instruction of the function uses its value any more, so erasing it
    leaves no dangling operand. The load was created before the allocator's
    next pointer. *)
Theorem replaced_scalar_load_has_no_use_left (body : list (list Instruction))
    (toErase : list nat) (next : nat) (ri : ReplaceItem) (ty : Ty) :
  inst_op <$> find_inst body (ri_inst ri) = Some (Load (ri_from ri) ty) ->
  isAggregateType (al_type (ri_to ri)) = false ->
  (ri_inst ri < next)%nat ->
  let r := phaseD_step (body, toErase, next) ri in
  ri_inst ri ∈ r.1.2
  /\ Forall (fun x => ~ In (InstValue (ri_inst ri) ty) (uses (inst_op x))) (concat r.1.1).
Proof.
  intros Hfind Hagg Hlt r. subst r. unfold phaseD_step. rewrite Hfind.
  rewrite bool_decide_eq_true_2 by reflexivity. rewrite Hagg.
  unfold convertValueToType.
  destruct (bool_decide (typeOf _ = ty)); cbn [fst snd];
    (split; [apply list_elem_of_union; right; apply list_elem_of_singleton; reflexivity|]);
    apply replaceAllUsesWith_no_use; unfold inst_value; simpl; intros [= E]; lia.
Qed.

Lemma replaced_scalar_load_has_no_use_left_witness :
  let body := [[mkInst 1 (Load ex_sp (IntegerTy 32));
                mkInst 2 (Add (InstValue 1 (IntegerTy 32)) (ConstantInt 32 8) (IntegerTy 32));
                mkInst 3 (Convert (InstValue 2 (IntegerTy 32)) (PointerTy (IntegerTy 32)));
                mkInst 4 (Load (InstValue 3 (PointerTy (IntegerTy 32))) (IntegerTy 32));
                mkInst 5 (OtherOp [InstValue 4 (IntegerTy 32)] VoidTy)]] in
  let ri := mkReplace 4 (InstValue 3 (PointerTy (IntegerTy 32)))
              (mkAlloca 6 (IntegerTy 32) "stack_var_8") in
  let r := phaseD_step (body, [], 7%nat) ri in
  4%nat ∈ r.1.2
  /\ Forall (fun x => ~ In (InstValue 4 (IntegerTy 32)) (uses (inst_op x))) (concat r.1.1).
Proof.
  intros body ri.
  apply (replaced_scalar_load_has_no_use_left body [] 7 ri (IntegerTy 32)).
  - reflexivity.
  - reflexivity.
  - simpl. lia.
Defined.
